(** * Graph.js: a directed graph kept as a modified incidence list

    A shallow embedding of [src/distribution/Graph.js] (compiled from the
    CoffeeScript original) and the properties of its public operations.

    Representation choices, all read off the source:

    - identifiers are JavaScript property keys, hence strings ([2] and
      ['2'] name the same key);
    - [this._nodes] and the edge maps are plain objects: a read [o[k]]
      that finds no own property [k] yields the member of
      [Object.prototype] of that name, when there is one.  The methods
      are embedded twice.  The first embedding reads own properties
      only; it is the code on identifiers that are not inherited names,
      and most properties are stated on it.  The module [Js] has the
      reads in full; [Js_exec_own] relates the two, and the properties
      that depend on inherited names are stated on [Js];
    - [this._nodes] is an object used as a map: a [gmap string Node];
    - [_outEdges] and [_inEdges] are objects enumerated with [for ... in]:
      they are kept as association lists in insertion order, so that an
      enumeration is a list of keys (an engine lists integer-like keys
      first; nothing below depends on which order it is, only on its
      being the same from one enumeration to the next);
    - a node object is reachable only through the slot of [_nodes] that
      holds it, so a reference to a node is the key of that slot, and
      [undefined] is [None];
    - edge objects are shared by the two maps that hold them and are
      compared with [===]: every edge carries the identity it was
      allocated with ([e_ref]), taken from the counter [fresh];
    - the counters are JavaScript numbers used as integers: [Z];
    - reading a property of [undefined] throws a [TypeError]; operations
      live in a state-and-exception monad so that this is visible. *)

From stdpp Require Import base option list strings gmap fin_maps.
From Stdlib Require Import ZArith.

Local Open Scope Z_scope.

(** ** Data model *)

Record Edge := mkEdge {
  e_ref : nat;
  _fromId : string;
  _toId : string;
  weight : Z
}.

(** An object whose own properties hold edges, in enumeration order. *)
Abbreviation Obj := (list (string * Edge)).

Record Node := mkNode {
  _id : string;
  _outEdges : Obj;
  _inEdges : Obj;
  _edgeCount : Z
}.

Record Graph := mkGraph {
  _nodes : gmap string Node;
  nodeSize : Z;
  edgeSize : Z;
  fresh : nat
}.

(** [new Graph] *)
Definition newGraph : Graph :=
  {| _nodes := ∅; nodeSize := 0; edgeSize := 0; fresh := 0%nat |}.

(** *** Property access on edge maps *)

(** [o[k]], by own properties: what the read yields when [k] is no
    inherited name ([prop_get] has the read in full). *)
Fixpoint obj_get (k : string) (o : Obj) : option Edge :=
  match o with
  | [] => None
  | (k', e) :: o' => if String.eqb k k' then Some e else obj_get k o'
  end.

(** [o[k] = e]: an existing property keeps its place, a new one goes last. *)
Fixpoint obj_set (k : string) (e : Edge) (o : Obj) : Obj :=
  match o with
  | [] => [(k, e)]
  | (k', e') :: o' =>
      if String.eqb k k' then (k, e) :: o' else (k', e') :: obj_set k e o'
  end.

(** [delete o[k]] *)
Fixpoint obj_delete (k : string) (o : Obj) : Obj :=
  match o with
  | [] => []
  | (k', e') :: o' =>
      if String.eqb k k' then obj_delete k o' else (k', e') :: obj_delete k o'
  end.

(** The keys [for (k in o)] visits. *)
Definition obj_keys (o : Obj) : list string := map fst o.

(** JavaScript truthiness of a value that is an object or [undefined]. *)
Definition truthy {A} (v : option A) : bool :=
  match v with Some _ => true | None => false end.

(** [e1 === e2] on edge objects: identity of reference. *)
Definition same_edge (e1 e2 : Edge) : bool := Nat.eqb (e_ref e1) (e_ref e2).

(** *** Field updates *)

Definition with_nodes (f : gmap string Node → gmap string Node) (g : Graph) : Graph :=
  {| _nodes := f (_nodes g); nodeSize := nodeSize g;
     edgeSize := edgeSize g; fresh := fresh g |}.

Definition with_nodeSize (f : Z → Z) (g : Graph) : Graph :=
  {| _nodes := _nodes g; nodeSize := f (nodeSize g);
     edgeSize := edgeSize g; fresh := fresh g |}.

Definition with_edgeSize (f : Z → Z) (g : Graph) : Graph :=
  {| _nodes := _nodes g; nodeSize := nodeSize g;
     edgeSize := f (edgeSize g); fresh := fresh g |}.

Definition with_fresh (f : nat → nat) (g : Graph) : Graph :=
  {| _nodes := _nodes g; nodeSize := nodeSize g;
     edgeSize := edgeSize g; fresh := f (fresh g) |}.

Definition with_outEdges (f : Obj → Obj) (n : Node) : Node :=
  {| _id := _id n; _outEdges := f (_outEdges n);
     _inEdges := _inEdges n; _edgeCount := _edgeCount n |}.

Definition with_inEdges (f : Obj → Obj) (n : Node) : Node :=
  {| _id := _id n; _outEdges := _outEdges n;
     _inEdges := f (_inEdges n); _edgeCount := _edgeCount n |}.

Definition with_edgeCount (f : Z → Z) (n : Node) : Node :=
  {| _id := _id n; _outEdges := _outEdges n;
     _inEdges := _inEdges n; _edgeCount := f (_edgeCount n) |}.

(** ** The monad of graph methods *)

Inductive exn := TypeError.

Inductive result (A : Type) :=
  | Ok (a : A)
  | Throw (e : exn).
Arguments Ok {A} a.
Arguments Throw {A} e.

Definition M (A : Type) : Type := Graph → result (A * Graph).

Definition ret {A} (a : A) : M A := λ g, Ok (a, g).

Definition bind {A B} (m : M A) (k : A → M B) : M B :=
  λ g, match m g with
       | Ok (a, g') => k a g'
       | Throw e => Throw e
       end.

Definition modify (f : Graph → Graph) : M unit := λ g, Ok (tt, f g).

Definition gets {A} (f : Graph → A) : M A := λ g, Ok (f g, g).

Declare Scope js_scope.
Delimit Scope js_scope with js.
Notation "'var' x <- m ; k" := (bind m (λ x, k))
  (at level 10, x name, m at level 100, k at level 200) : js_scope.
Notation "m ;; k" := (bind m (λ _, k))
  (at level 100, k at level 200, right associativity) : js_scope.
Local Open Scope js_scope.

(** A reference to a node object, or [undefined]. *)
Definition NodeRef := option string.

(** [this._nodes[id]], by own properties ([Js.nodes_get] has the read in
    full). *)
Definition nodes_get (id : string) : M NodeRef :=
  λ g, Ok (match _nodes g !! id with Some _ => Some id | None => None end, g).

(** Reading through a reference; [undefined.field] throws. *)
Definition deref (r : NodeRef) : M Node :=
  λ g, match r with
       | None => Throw TypeError
       | Some k => match _nodes g !! k with
                   | Some n => Ok (n, g)
                   | None => Throw TypeError
                   end
       end.

(** Writing through a reference; assigning into [undefined] throws. *)
Definition update (r : NodeRef) (f : Node → Node) : M unit :=
  λ g, match r with
       | None => Throw TypeError
       | Some k => match _nodes g !! k with
                   | Some n => Ok (tt, with_nodes (<[k := f n]>) g)
                   | None => Throw TypeError
                   end
       end.

(** [r1 !== r2] on node references. *)
Definition ref_neq (r1 r2 : NodeRef) : bool :=
  match r1, r2 with
  | Some a, Some b => negb (String.eqb a b)
  | None, None => false
  | _, _ => true
  end.

(** ** The methods of [Graph.prototype], on own keys *)

Definition addNode (id : string) : M (option Node) :=
  var cur <- nodes_get id;
  if negb (truthy cur) then
    modify (with_nodeSize (λ s, s + 1)) ;;
    let n := {| _id := id; _outEdges := []; _inEdges := []; _edgeCount := 0 |} in
    modify (with_nodes (<[id := n]>)) ;;
    ret (Some n)
  else ret None.

Definition getNode (id : string) : M (option Node) :=
  λ g, Ok (_nodes g !! id, g).

Definition removeNode (id : string) : M (option Node) :=
  var nodeToRemove <- nodes_get id;
  if negb (truthy nodeToRemove) then ret None
  else
    var r <- nodes_get id;
    var n <- deref r;
    modify (with_edgeSize (λ s, s - _edgeCount n)) ;;
    modify (with_nodeSize (λ s, s - 1)) ;;
    modify (with_nodes (delete id)) ;;
    ret (Some n).

Definition getEdge (fromId toId : string) : M (option Edge) :=
  var fromNode <- nodes_get fromId;
  var toNode <- nodes_get toId;
  if negb (truthy fromNode) && negb (truthy toNode) then ret None
  else if negb (truthy fromNode) then
    var t <- deref toNode;
    (if truthy (obj_get fromId (_inEdges t))
     then update toNode (with_inEdges (obj_delete fromId))
     else ret tt) ;;
    ret None
  else if negb (truthy toNode) then
    var f <- deref fromNode;
    (if truthy (obj_get toId (_outEdges f))
     then update fromNode (with_outEdges (obj_delete toId))
     else ret tt) ;;
    ret None
  else
    var f <- deref fromNode;
    var t <- deref toNode;
    if negb (truthy (obj_get toId (_outEdges f))) && truthy (obj_get fromId (_inEdges t))
    then update toNode (with_inEdges (obj_delete fromId)) ;; ret None
    else if negb (truthy (obj_get fromId (_inEdges t))) && truthy (obj_get toId (_outEdges f))
    then update fromNode (with_outEdges (obj_delete toId)) ;; ret None
    else ret (obj_get toId (_outEdges f)).

(** [{_fromId: fromId, _toId: toId, weight: weight}]: a new object. *)
Definition new_edge (fromId toId : string) (w : Z) : M Edge :=
  λ g, Ok ({| e_ref := fresh g; _fromId := fromId; _toId := toId; weight := w |},
           with_fresh S g).

(** The optional argument [weight] is [None] when it is [undefined] or
    [null] at the call. *)
Definition addEdge (fromId toId : string) (weight : option Z) : M (option Edge) :=
  let weight := match weight with Some w => w | None => 1 end in
  var existing <- getEdge fromId toId;
  if truthy existing then ret None
  else
    var fromNode <- nodes_get fromId;
    var toNode <- nodes_get toId;
    if negb (truthy fromNode) || negb (truthy toNode) then ret None
    else
      var edgeToAdd <- new_edge fromId toId weight;
      update fromNode (with_outEdges (obj_set toId edgeToAdd)) ;;
      update toNode (with_inEdges (obj_set fromId edgeToAdd)) ;;
      update fromNode (with_edgeCount (λ c, c + 1)) ;;
      modify (with_edgeSize (λ s, s + 1)) ;;
      (if ref_neq fromNode toNode
       then update toNode (with_edgeCount (λ c, c + 1))
       else ret tt) ;;
      ret (Some edgeToAdd).

Definition removeEdge (fromId toId : string) : M (option Edge) :=
  var fromNode <- nodes_get fromId;
  var toNode <- nodes_get toId;
  var edgeToDelete <- getEdge fromId toId;
  if negb (truthy edgeToDelete) then ret None
  else
    update fromNode (with_outEdges (obj_delete toId)) ;;
    update toNode (with_inEdges (obj_delete fromId)) ;;
    modify (with_edgeSize (λ s, s - 1)) ;;
    ret edgeToDelete.

(** [for (k in o) { edge = body(k); if (edge) acc.push(edge); }] over the keys
    [o] has when the loop starts: the bodies below delete no other key of
    [o] than the one they are visiting. *)
Fixpoint for_in_push (body : string → M (option Edge)) (keys : list string)
    (acc : list Edge) : M (list Edge) :=
  match keys with
  | [] => ret acc
  | k :: keys' =>
      var edge <- body k;
      for_in_push body keys'
        (match edge with Some e => acc ++ [e] | None => acc end)
  end.

Definition getInEdgesOf (nodeId : string) : M (list Edge) :=
  var toNode <- nodes_get nodeId;
  if negb (truthy toNode) then ret []
  else
    var t <- deref toNode;
    for_in_push (λ fromId, getEdge fromId nodeId) (obj_keys (_inEdges t)) [].

Definition getOutEdgesOf (nodeId : string) : M (list Edge) :=
  var fromNode <- nodes_get nodeId;
  if negb (truthy fromNode) then ret []
  else
    var f <- deref fromNode;
    for_in_push (λ toId, getEdge nodeId toId) (obj_keys (_outEdges f)) [].

(** The loop of [getAllEdgesOf]: at the first [i] with
    [inEdges[i] === selfEdge], swap it with the last element, pop, break.
    [n] counts the iterations left. *)
Fixpoint drop_self (selfEdge : Edge) (inEdges : list Edge) (i n : nat) : list Edge :=
  match n with
  | O => inEdges
  | S n' =>
      match inEdges !! i, last inEdges with
      | Some e, Some l =>
          if same_edge e selfEdge
          then removelast (<[i := l]> inEdges)
          else drop_self selfEdge inEdges (S i) n'
      | _, _ => inEdges
      end
  end.

Definition getAllEdgesOf (nodeId : string) : M (list Edge) :=
  var inEdges <- getInEdgesOf nodeId;
  var outEdges <- getOutEdgesOf nodeId;
  if Nat.eqb (length inEdges) 0 then ret outEdges
  else
    var selfEdge <- getEdge nodeId nodeId;
    match selfEdge with
    | Some s => ret (drop_self s inEdges 0 (length inEdges) ++ outEdges)
    | None => ret (inEdges ++ outEdges)
    end.

(** ** Sequences of calls *)

Inductive Call :=
  | AddNode (id : string)
  | GetNode (id : string)
  | RemoveNode (id : string)
  | AddEdge (fromId toId : string) (weight : option Z)
  | GetEdge (fromId toId : string)
  | RemoveEdge (fromId toId : string)
  | GetInEdgesOf (id : string)
  | GetOutEdgesOf (id : string)
  | GetAllEdgesOf (id : string).

(** The state a call leaves behind; its return value is dropped. *)
Definition exec (c : Call) : M unit :=
  match c with
  | AddNode id => addNode id ;; ret tt
  | GetNode id => getNode id ;; ret tt
  | RemoveNode id => removeNode id ;; ret tt
  | AddEdge f t w => addEdge f t w ;; ret tt
  | GetEdge f t => getEdge f t ;; ret tt
  | RemoveEdge f t => removeEdge f t ;; ret tt
  | GetInEdgesOf id => getInEdgesOf id ;; ret tt
  | GetOutEdgesOf id => getOutEdgesOf id ;; ret tt
  | GetAllEdgesOf id => getAllEdgesOf id ;; ret tt
  end.

Fixpoint run (cs : list Call) : M unit :=
  match cs with
  | [] => ret tt
  | c :: cs' => exec c ;; run cs'
  end.

(** [n] successive calls of [m]; each result is paired with the value of
    [edgeSize] right after the call. *)
Fixpoint calls {A} (m : M A) (n : nat) : M (list (A * Z)) :=
  match n with
  | O => ret []
  | S n' =>
      var r <- m;
      var size <- gets edgeSize;
      var rest <- calls m n';
      ret ((r, size) :: rest)
  end.

(** The state of a fresh graph after the calls [cs]. *)
Definition after (cs : list Call) : Graph :=
  match run cs newGraph with
  | Ok (_, g) => g
  | Throw _ => newGraph
  end.

(** ** Vocabulary of the specification *)

(** [id] names a live node. *)
Definition live (g : Graph) (id : string) : bool := truthy (_nodes g !! id).

(** A valid edge from [f] to [t]: both nodes are live, the tail holds a
    slot for [t] in its out-map and the head a slot for [f] in its in-map. *)
Definition valid_edge (g : Graph) (f t : string) : bool :=
  match _nodes g !! f, _nodes g !! t with
  | Some fn, Some tn =>
      truthy (obj_get t (_outEdges fn)) && truthy (obj_get f (_inEdges tn))
  | _, _ => false
  end.

(** The content of [fromNode._outEdges[toId]], when there is such a node. *)
Definition out_slot (g : Graph) (f t : string) : option Edge :=
  match _nodes g !! f with
  | Some fn => obj_get t (_outEdges fn)
  | None => None
  end.

(** The content of [toNode._inEdges[fromId]], when there is such a node. *)
Definition in_slot (g : Graph) (f t : string) : option Edge :=
  match _nodes g !! t with
  | Some tn => obj_get f (_inEdges tn)
  | None => None
  end.

(** Deleting the slot [fromNode._outEdges[toId]]. *)
Definition delete_out_slot (f t : string) (g : Graph) : Graph :=
  with_nodes (alter (with_outEdges (obj_delete t)) f) g.

(** Deleting the slot [toNode._inEdges[fromId]]. *)
Definition delete_in_slot (f t : string) (g : Graph) : Graph :=
  with_nodes (alter (with_inEdges (obj_delete f)) t) g.

(** The number of valid edges of the whole graph, each found from the
    out-map of its tail. *)
Definition validEdgeCount (g : Graph) : Z :=
  Z.of_nat (length (
    flat_map (λ kn : string * Node,
                filter (λ t, valid_edge g kn.1 t = true) (obj_keys (_outEdges kn.2)))
             (map_to_list (_nodes g)))).

(** The number of valid edges that touch [id], a self-loop counted once. *)
Definition edgesTouching (g : Graph) (id : string) : Z :=
  match _nodes g !! id with
  | Some n =>
      Z.of_nat (length (filter (λ t, valid_edge g id t = true) (obj_keys (_outEdges n))))
      + Z.of_nat (length (filter (λ f, valid_edge g f id = true ∧ f ≠ id)
                                 (obj_keys (_inEdges n))))
  | None => 0
  end.

(** ** Closed forms of the methods *)

(** The node [addNode(id)] creates. *)
Definition new_node (id : string) : Node :=
  {| _id := id; _outEdges := []; _inEdges := []; _edgeCount := 0 |}.

Definition addNode_state (g : Graph) (id : string) : Graph :=
  with_nodes (<[id := new_node id]>) (with_nodeSize (λ s, s + 1) g).

(** The state [getEdge fromId toId] leaves: untouched when the edge is valid
    or neither slot is filled, with the one filled slot deleted otherwise. *)
Definition getEdge_state (g : Graph) (f t : string) : Graph :=
  if valid_edge g f t then g
  else if truthy (in_slot g f t) && live g t then delete_in_slot f t g
  else if truthy (out_slot g f t) then delete_out_slot f t g
  else g.

Definition getEdge_value (g : Graph) (f t : string) : option Edge :=
  if valid_edge g f t then out_slot g f t else None.

Definition removeEdge_state (g : Graph) (f t : string) : Graph :=
  with_edgeSize (λ s, s - 1) (delete_in_slot f t (delete_out_slot f t g)).

(** The edge [addEdge] builds in state [g]. *)
Definition addEdge_edge (g : Graph) (f t : string) (w : option Z) : Edge :=
  {| e_ref := fresh g; _fromId := f; _toId := t;
     weight := match w with Some w => w | None => 1 end |}.

(** The state a successful [addEdge] leaves, assignment by assignment. *)
Definition addEdge_state (g : Graph) (f t : string) (e : Edge) : Graph :=
  (if negb (String.eqb f t)
   then with_nodes (alter (with_edgeCount (λ c, c + 1)) t) else id)
    (with_edgeSize (λ s, s + 1)
      (with_nodes (alter (with_edgeCount (λ c, c + 1)) f)
        (with_nodes (alter (with_inEdges (obj_set f e)) t)
          (with_nodes (alter (with_outEdges (obj_set t e)) f)
            (with_fresh S (getEdge_state g f t)))))).

(** The edges [getInEdgesOf(id)] returns: the valid ones among the keys of
    the in-map, each read from the out-map of its tail. *)
Definition inEdges_of (g : Graph) (id : string) : list Edge :=
  match _nodes g !! id with
  | Some n => omap (λ k, getEdge_value g k id) (obj_keys (_inEdges n))
  | None => []
  end.

(** The state [getInEdgesOf(id)] leaves: the in-map of [id] has lost its
    entries that were no valid edge. *)
Definition prune_in (g : Graph) (id : string) : Graph :=
  with_nodes
    (alter (with_inEdges (filter (λ ke, valid_edge g ke.1 id = true))) id) g.

Definition outEdges_of (g : Graph) (id : string) : list Edge :=
  match _nodes g !! id with
  | Some n => omap (λ k, getEdge_value g id k) (obj_keys (_outEdges n))
  | None => []
  end.

Definition prune_out (g : Graph) (id : string) : Graph :=
  with_nodes
    (alter (with_outEdges (filter (λ ke, valid_edge g id ke.1 = true))) id) g.

(** The state of the loop of [getInEdgesOf] once the keys [done] have been visited. *)
Definition in_loop_state (g : Graph) (id : string) (done : list string) : Graph :=
  with_nodes
    (alter (with_inEdges
              (filter (λ ke, valid_edge g ke.1 id = true ∨ ke.1 ∉ done))) id) g.

(** The state of the loop of [getOutEdgesOf] once the keys [done] have been visited. *)
Definition out_loop_state (g : Graph) (id : string) (done : list string) : Graph :=
  with_nodes
    (alter (with_outEdges
              (filter (λ ke, valid_edge g id ke.1 = true ∨ ke.1 ∉ done))) id) g.

(** The state [getAllEdgesOf(id)] leaves when [id] has in-edges. *)
Definition getAllEdgesOf_state (g : Graph) (id : string) : Graph :=
  getEdge_state (prune_out (prune_in g id) id) id id.

Definition removeNode_state (g : Graph) (id : string) (n : Node) : Graph :=
  with_nodes (delete id)
    (with_nodeSize (λ s, s - 1) (with_edgeSize (λ s, s - _edgeCount n) g)).

(** ** Traversals *)

(** [forEachNode(operation)].  The callback is a visitor that leaves the
    graph alone: its effect is a change of a state [A] of its own, and the
    method returns nothing but that effect.  The nodes are visited in the
    order in which [_nodes] enumerates them; no property depends on it. *)
Definition forEachNode {A} (operation : Node → A → A) (a : A) : M A :=
  λ g, Ok (foldl (λ acc kn, operation kn.2 acc) a (map_to_list (_nodes g)), g).

(** [forEachEdge(operation)]: for every node, for every key of its
    [_outEdges], the callback on the edge stored there. *)
Definition forEachEdge {A} (operation : Edge → A → A) (a : A) : M A :=
  λ g, Ok (foldl
             (λ acc (kn : string * Node),
                foldl (λ acc' toId,
                         match obj_get toId (_outEdges kn.2) with
                         | Some edgeObject => operation edgeObject acc'
                         | None => acc'
                         end)
                      acc (obj_keys (_outEdges kn.2)))
             a (map_to_list (_nodes g)), g).

(** The visitor that writes down what it is called with. *)
Definition record {X} (x : X) (seen : list X) : list X := seen ++ [x].

(** ** Reachable states *)

(** The states a fresh graph reaches by calls of its methods. *)
Definition reachable (g : Graph) : Prop :=
  ∃ cs, run cs newGraph = Ok (tt, g).






(** ** What every reachable state satisfies *)

Record wf (g : Graph) : Prop := mk_wf {
  wf_nodeSize : nodeSize g = Z.of_nat (size (_nodes g));
  wf_id : ∀ k n, _nodes g !! k = Some n → _id n = k;
  wf_keys : ∀ k n, _nodes g !! k = Some n →
    NoDup (obj_keys (_outEdges n)) ∧ NoDup (obj_keys (_inEdges n));
  wf_out : ∀ f t e, out_slot g f t = Some e →
    _fromId e = f ∧ _toId e = t ∧ (e_ref e < fresh g)%nat;
  wf_in : ∀ f t e, in_slot g f t = Some e →
    _fromId e = f ∧ _toId e = t ∧ (e_ref e < fresh g)%nat;
  wf_shared : ∀ f t e e',
    out_slot g f t = Some e → in_slot g f t = Some e' → e = e';
  wf_refs : ∀ f t f' t' e e',
    out_slot g f t = Some e → out_slot g f' t' = Some e' →
    e_ref e = e_ref e' → e = e'
}.

(** [g'] holds no more than [g]: each of its nodes is a node of [g] that
    may have lost slots, or has no slot at all, and no edge was allocated. *)
Definition thins (g g' : Graph) : Prop :=
  fresh g' = fresh g
  ∧ ∀ k n', _nodes g' !! k = Some n' →
      (_id n' = k ∧ _outEdges n' = [] ∧ _inEdges n' = [])
      ∨ ∃ n, _nodes g !! k = Some n ∧ _id n' = _id n
             ∧ _outEdges n' `sublist_of` _outEdges n
             ∧ _inEdges n' `sublist_of` _inEdges n.

(** A node update that keeps the name of the node and the distinctness of
    the keys of its maps. *)
Definition tidy (h : Node → Node) : Prop :=
  ∀ n, _id (h n) = _id n
       ∧ (NoDup (obj_keys (_outEdges n)) → NoDup (obj_keys (_outEdges (h n))))
       ∧ (NoDup (obj_keys (_inEdges n)) → NoDup (obj_keys (_inEdges (h n)))).

(** The edges [forEachEdge] meets in one node, and in the whole graph. *)
Definition out_entries (n : Node) : list Edge :=
  omap (λ toId, obj_get toId (_outEdges n)) (obj_keys (_outEdges n)).

Definition stored_edges (g : Graph) : list Edge :=
  map_to_list (_nodes g) ≫= (λ kn, out_entries kn.2).

(** ** Names inherited from [Object.prototype] *)

(** [this._nodes], [_outEdges] and [_inEdges] are made by [{}]: where such
    an object has no own property [k], reading [o[k]] goes on to
    [Object.prototype].  These are the names found there: the properties
    of the Object prototype object of ECMAScript and the additional ones
    of its annex B that the engines provide.  None of them is enumerable,
    so [for ... in] does not visit them, and [delete] removes own
    properties only. *)
Definition inherited_names : list string :=
  ["constructor"; "toString"; "toLocaleString"; "valueOf"; "hasOwnProperty";
   "isPrototypeOf"; "propertyIsEnumerable"; "__proto__"; "__defineGetter__";
   "__defineSetter__"; "__lookupGetter__"; "__lookupSetter__"].

Definition inherited (k : string) : bool := bool_decide (k ∈ inherited_names).

(** What a property read yields: [undefined], an object of the graph, or
    the member of [Object.prototype] of the given name.  Such a member is
    a function (the prototype itself under ['__proto__']): it is truthy
    and has none of the fields of a node or of an edge. *)
Inductive jsval (A : Type) :=
  | undefined
  | object (a : A)
  | inherited_member (k : string).
Arguments undefined {A}.
Arguments object {A} a.
Arguments inherited_member {A} k.

(** [o[k]], where [own] is what [o] holds as its own under [k]. *)
Definition prop_get {A} (own : option A) (k : string) : jsval A :=
  match own with
  | Some a => object a
  | None => if inherited k then inherited_member k else undefined
  end.

(** An object or [undefined] among the values. *)
Definition of_option {A} (v : option A) : jsval A :=
  match v with Some a => object a | None => undefined end.

(** The identifiers a call is given. *)
Definition call_ids (c : Call) : list string :=
  match c with
  | AddNode id | GetNode id | RemoveNode id => [id]
  | AddEdge f t _ | GetEdge f t | RemoveEdge f t => [f; t]
  | GetInEdgesOf id | GetOutEdgesOf id | GetAllEdgesOf id => [id]
  end.

(** No identifier of the call is an inherited name. *)
Definition own_names (c : Call) : bool :=
  forallb (λ id, negb (inherited id)) (call_ids c).

(** The call is no [removeNode] of an inherited name. *)
Definition removes_own_name (c : Call) : bool :=
  match c with
  | RemoveNode id => negb (inherited id)
  | _ => true
  end.

(** The call is an edge method with an endpoint that is an inherited name. *)
Definition inherited_endpoint (c : Call) : bool :=
  match c with
  | AddEdge f t _ | GetEdge f t | RemoveEdge f t => inherited f || inherited t
  | _ => false
  end.

(** No key of [_nodes] and no key of an edge map is an inherited name. *)
Definition own_keys (g : Graph) : Prop :=
  ∀ k n, _nodes g !! k = Some n →
    inherited k = false
    ∧ (∀ a, a ∈ obj_keys (_outEdges n) → inherited a = false)
    ∧ (∀ a, a ∈ obj_keys (_inEdges n) → inherited a = false).

(** ** The methods on every property name *)

(** The methods above read [this._nodes[id]] and the edge maps by own
    keys.  The module [Js] has the same methods with the property reads of
    the source in full: a read that finds no own property yields the
    inherited member when the name is an inherited one.  The two agree on
    every call whose identifiers are not inherited names ([Js_exec_own]),
    and no method ever stores a key that is one ([Js_run_own_keys]). *)
Module Js.

(** [edgeSize] is a JavaScript number: it turns into [NaN] when
    [undefined] is subtracted from it, and stays so. *)
Record State := mkState {
  graph : Graph;
  edgeSize_NaN : bool
}.

Definition of_graph (g : Graph) : State :=
  {| graph := g; edgeSize_NaN := false |}.

(** [new Graph] *)
Definition newGraph : State := of_graph newGraph.

(** [this.edgeSize]; [None] is [NaN]. *)
Definition edgeSize (s : State) : option Z :=
  if edgeSize_NaN s then None else Some (edgeSize (graph s)).

(** What a method does: it returns a value, or throws; either way it
    leaves a state, which for a throw is the state reached when the
    exception was raised. *)
Inductive outcome (A : Type) :=
  | Returns (a : A) (s : State)
  | Throws (e : exn) (s : State).
Arguments Returns {A} a s.
Arguments Throws {A} e s.

Definition state_of {A} (o : outcome A) : State :=
  match o with Returns _ s | Throws _ s => s end.

Definition M (A : Type) : Type := State → outcome A.

Definition ret {A} (a : A) : M A := λ s, Returns a s.

Definition bind {A B} (m : M A) (k : A → M B) : M B :=
  λ s, match m s with
       | Returns a s' => k a s'
       | Throws e s' => Throws e s'
       end.

Definition modify (f : Graph → Graph) : M unit :=
  λ s, Returns tt {| graph := f (graph s); edgeSize_NaN := edgeSize_NaN s |}.

Declare Scope jsval_scope.
Notation "'var' x <- m ; k" := (bind m (λ x, k))
  (at level 10, x name, m at level 100, k at level 200) : jsval_scope.
Notation "m ;; k" := (bind m (λ _, k))
  (at level 100, k at level 200, right associativity) : jsval_scope.
Local Open Scope jsval_scope.

Definition truthy {A} (v : jsval A) : bool :=
  match v with undefined => false | _ => true end.

(** What [this._nodes[id]] yields: a reference to a node, an inherited
    member, or [undefined]. *)
Definition NodeRef := jsval string.

(** [this._nodes[id]] *)
Definition nodes_get (id : string) : M NodeRef :=
  λ s, Returns (prop_get (match _nodes (graph s) !! id with
                          | Some _ => Some id
                          | None => None
                          end) id) s.

(** The object a reference stands for. *)
Definition node_of (r : NodeRef) : M (jsval Node) :=
  λ s, match r with
       | undefined => Returns undefined s
       | inherited_member k => Returns (inherited_member k) s
       | object id => match _nodes (graph s) !! id with
                      | Some n => Returns (object n) s
                      | None => Throws TypeError s
                      end
       end.

(** [r._outEdges[k]] and [r._inEdges[k]], the map being [map].  An
    inherited member has no such map: the read indexes [undefined]. *)
Definition edges_get (map : Node → Obj) (r : NodeRef) (k : string) : M (jsval Edge) :=
  λ s, match r with
       | object id => match _nodes (graph s) !! id with
                      | Some n => Returns (prop_get (obj_get k (map n)) k) s
                      | None => Throws TypeError s
                      end
       | _ => Throws TypeError s
       end.

(** The keys [for (k in r._outEdges)] and [for (k in r._inEdges)] visit;
    there is none when the map is [undefined]. *)
Definition edges_keys (map : Node → Obj) (r : NodeRef) : M (list string) :=
  λ s, match r with
       | undefined => Throws TypeError s
       | inherited_member _ => Returns [] s
       | object id => match _nodes (graph s) !! id with
                      | Some n => Returns (obj_keys (map n)) s
                      | None => Throws TypeError s
                      end
       end.

(** [r.map[k] = e] and [delete r.map[k]]: a write into a map of [r]. *)
Definition update (r : NodeRef) (f : Node → Node) : M unit :=
  λ s, match r with
       | object k => match _nodes (graph s) !! k with
                     | Some n => Returns tt {| graph := with_nodes (<[k := f n]>) (graph s);
                                               edgeSize_NaN := edgeSize_NaN s |}
                     | None => Throws TypeError s
                     end
       | _ => Throws TypeError s
       end.

(** [r._edgeCount++].  On an inherited member the write lands on the
    member, not in the graph. *)
Definition edgeCount_incr (r : NodeRef) : M unit :=
  match r with
  | inherited_member _ => ret tt
  | _ => update r (with_edgeCount (λ c, c + 1))
  end.

(** [r._edgeCount]; [None] is [undefined], what an inherited member has
    there. *)
Definition edgeCount_get (r : NodeRef) : M (option Z) :=
  λ s, match r with
       | undefined => Throws TypeError s
       | inherited_member _ => Returns None s
       | object id => match _nodes (graph s) !! id with
                      | Some n => Returns (Some (_edgeCount n)) s
                      | None => Throws TypeError s
                      end
       end.

(** [this.edgeSize -= c] *)
Definition edgeSize_sub (c : option Z) : M unit :=
  match c with
  | Some c => modify (with_edgeSize (λ s, s - c))
  | None => λ s, Returns tt {| graph := graph s; edgeSize_NaN := true |}
  end.

(** [r1 !== r2] *)
Definition ref_neq (r1 r2 : NodeRef) : bool :=
  match r1, r2 with
  | object a, object b => negb (String.eqb a b)
  | inherited_member a, inherited_member b => negb (String.eqb a b)
  | undefined, undefined => false
  | _, _ => true
  end.

(** [v1 === v2] on what an edge map yields. *)
Definition same_value (v1 v2 : jsval Edge) : bool :=
  match v1, v2 with
  | object e1, object e2 => same_edge e1 e2
  | inherited_member a, inherited_member b => String.eqb a b
  | undefined, undefined => true
  | _, _ => false
  end.

Definition addNode (id : string) : M (jsval Node) :=
  var cur <- nodes_get id;
  if negb (truthy cur) then
    modify (with_nodeSize (λ s, s + 1)) ;;
    let n := {| _id := id; _outEdges := []; _inEdges := []; _edgeCount := 0 |} in
    modify (with_nodes (<[id := n]>)) ;;
    ret (object n)
  else ret undefined.

Definition getNode (id : string) : M (jsval Node) :=
  var r <- nodes_get id;
  node_of r.

Definition removeNode (id : string) : M (jsval Node) :=
  var nodeToRemove <- nodes_get id;
  if negb (truthy nodeToRemove) then ret undefined
  else
    var removed <- node_of nodeToRemove;
    var r <- nodes_get id;
    var count <- edgeCount_get r;
    edgeSize_sub count ;;
    modify (with_nodeSize (λ s, s - 1)) ;;
    modify (with_nodes (delete id)) ;;
    ret removed.

(** The conditions of the last branch are evaluated as written: the right
    operand of [&&] is read only when the left one holds. *)
Definition getEdge (fromId toId : string) : M (jsval Edge) :=
  var fromNode <- nodes_get fromId;
  var toNode <- nodes_get toId;
  if negb (truthy fromNode) && negb (truthy toNode) then ret undefined
  else if negb (truthy fromNode) then
    var i <- edges_get _inEdges toNode fromId;
    (if truthy i
     then update toNode (with_inEdges (obj_delete fromId))
     else ret tt) ;;
    ret undefined
  else if negb (truthy toNode) then
    var o <- edges_get _outEdges fromNode toId;
    (if truthy o
     then update fromNode (with_outEdges (obj_delete toId))
     else ret tt) ;;
    ret undefined
  else
    var o <- edges_get _outEdges fromNode toId;
    var stale_in <- (if negb (truthy o)
                     then var i <- edges_get _inEdges toNode fromId; ret (truthy i)
                     else ret false);
    if stale_in
    then update toNode (with_inEdges (obj_delete fromId)) ;; ret undefined
    else
      var i <- edges_get _inEdges toNode fromId;
      var stale_out <- (if negb (truthy i)
                        then var o <- edges_get _outEdges fromNode toId; ret (truthy o)
                        else ret false);
      if stale_out
      then update fromNode (with_outEdges (obj_delete toId)) ;; ret undefined
      else edges_get _outEdges fromNode toId.

Definition new_edge (fromId toId : string) (w : Z) : M Edge :=
  λ s, Returns {| e_ref := fresh (graph s); _fromId := fromId; _toId := toId;
                  weight := w |}
               {| graph := with_fresh S (graph s); edgeSize_NaN := edgeSize_NaN s |}.

Definition addEdge (fromId toId : string) (weight : option Z) : M (jsval Edge) :=
  let weight := match weight with Some w => w | None => 1 end in
  var existing <- getEdge fromId toId;
  if truthy existing then ret undefined
  else
    var fromNode <- nodes_get fromId;
    var toNode <- nodes_get toId;
    if negb (truthy fromNode) || negb (truthy toNode) then ret undefined
    else
      var edgeToAdd <- new_edge fromId toId weight;
      update fromNode (with_outEdges (obj_set toId edgeToAdd)) ;;
      update toNode (with_inEdges (obj_set fromId edgeToAdd)) ;;
      edgeCount_incr fromNode ;;
      modify (with_edgeSize (λ s, s + 1)) ;;
      (if ref_neq fromNode toNode
       then edgeCount_incr toNode
       else ret tt) ;;
      ret (object edgeToAdd).

Definition removeEdge (fromId toId : string) : M (jsval Edge) :=
  var fromNode <- nodes_get fromId;
  var toNode <- nodes_get toId;
  var edgeToDelete <- getEdge fromId toId;
  if negb (truthy edgeToDelete) then ret undefined
  else
    update fromNode (with_outEdges (obj_delete toId)) ;;
    update toNode (with_inEdges (obj_delete fromId)) ;;
    modify (with_edgeSize (λ s, s - 1)) ;;
    ret edgeToDelete.

Fixpoint for_in_push (body : string → M (jsval Edge)) (keys : list string)
    (acc : list (jsval Edge)) : M (list (jsval Edge)) :=
  match keys with
  | [] => ret acc
  | k :: keys' =>
      var edge <- body k;
      for_in_push body keys' (if truthy edge then acc ++ [edge] else acc)
  end.

Definition getInEdgesOf (nodeId : string) : M (list (jsval Edge)) :=
  var toNode <- nodes_get nodeId;
  if negb (truthy toNode) then ret []
  else
    var keys <- edges_keys _inEdges toNode;
    for_in_push (λ fromId, getEdge fromId nodeId) keys [].

Definition getOutEdgesOf (nodeId : string) : M (list (jsval Edge)) :=
  var fromNode <- nodes_get nodeId;
  if negb (truthy fromNode) then ret []
  else
    var keys <- edges_keys _outEdges fromNode;
    for_in_push (λ toId, getEdge nodeId toId) keys [].

Fixpoint drop_self (selfEdge : jsval Edge) (inEdges : list (jsval Edge)) (i n : nat)
    : list (jsval Edge) :=
  match n with
  | O => inEdges
  | S n' =>
      match inEdges !! i, last inEdges with
      | Some e, Some l =>
          if same_value e selfEdge
          then removelast (<[i := l]> inEdges)
          else drop_self selfEdge inEdges (S i) n'
      | _, _ => inEdges
      end
  end.

Definition getAllEdgesOf (nodeId : string) : M (list (jsval Edge)) :=
  var inEdges <- getInEdgesOf nodeId;
  var outEdges <- getOutEdgesOf nodeId;
  if Nat.eqb (length inEdges) 0 then ret outEdges
  else
    var selfEdge <- getEdge nodeId nodeId;
    if truthy selfEdge
    then ret (drop_self selfEdge inEdges 0 (length inEdges) ++ outEdges)
    else ret (inEdges ++ outEdges).

(** [forEachNode(operation)]: [for ... in] visits the own keys of
    [_nodes]. *)
Definition forEachNode {A} (operation : Node → A → A) (a : A) : M A :=
  λ s, Returns (foldl (λ acc kn, operation kn.2 acc) a
                      (map_to_list (_nodes (graph s)))) s.

Definition exec (c : Call) : M unit :=
  match c with
  | AddNode id => addNode id ;; ret tt
  | GetNode id => getNode id ;; ret tt
  | RemoveNode id => removeNode id ;; ret tt
  | AddEdge f t w => addEdge f t w ;; ret tt
  | GetEdge f t => getEdge f t ;; ret tt
  | RemoveEdge f t => removeEdge f t ;; ret tt
  | GetInEdgesOf id => getInEdgesOf id ;; ret tt
  | GetOutEdgesOf id => getOutEdgesOf id ;; ret tt
  | GetAllEdgesOf id => getAllEdgesOf id ;; ret tt
  end.

(** The state after the calls [cs], made one after the other by a caller
    that goes on when a call throws. *)
Fixpoint run (cs : list Call) (s : State) : State :=
  match cs with
  | [] => s
  | c :: cs' => run cs' (state_of (exec c s))
  end.

(** The state of a fresh graph after the calls [cs]. *)
Definition after (cs : list Call) : State := run cs newGraph.

(** What a method of the embedding on own keys does, as an outcome on
    [State]. *)
Definition lift {A B} (f : A → B) (s : State) (r : result (A * Graph)) : outcome B :=
  match r with
  | Ok (a, g) => Returns (f a) {| graph := g; edgeSize_NaN := edgeSize_NaN s |}
  | Throw e => Throws e s
  end.

End Js.

(** ** Edge maps *)

Section obj.
Implicit Types (k : string) (o : Obj) (e : Edge).

Lemma obj_get_delete_eq k o : obj_get k (obj_delete k o) = None.
Proof.
  induction o as [|[k' e'] o IH]; simpl; [done|].
  destruct (String.eqb k k') eqn:E; simpl; [done|]. by rewrite E.
Qed.

Lemma obj_get_delete_ne k k' o :
  k ≠ k' → obj_get k (obj_delete k' o) = obj_get k o.
Proof.
  intros Hne. induction o as [|[k2 e2] o IH]; simpl; [done|].
  destruct (String.eqb k' k2) eqn:E; simpl.
  - apply String.eqb_eq in E as <-.
    apply String.eqb_neq in Hne. by rewrite Hne.
  - by rewrite IH.
Qed.

Lemma obj_delete_absent k o : obj_get k o = None → obj_delete k o = o.
Proof.
  induction o as [|[k' e'] o IH]; simpl; [done|].
  destruct (String.eqb k k'); [done|]. intros H. by rewrite IH.
Qed.

Lemma obj_get_set_eq k e o : obj_get k (obj_set k e o) = Some e.
Proof.
  induction o as [|[k' e'] o IH]; simpl.
  - by rewrite String.eqb_refl.
  - destruct (String.eqb k k') eqn:E; simpl.
    + by rewrite String.eqb_refl.
    + by rewrite E.
Qed.

Lemma obj_get_set_ne k k' e o :
  k ≠ k' → obj_get k (obj_set k' e o) = obj_get k o.
Proof.
  intros Hne. apply String.eqb_neq in Hne.
  induction o as [|[k2 e2] o IH]; simpl.
  - by rewrite Hne.
  - destruct (String.eqb k' k2) eqn:E; simpl.
    + apply String.eqb_eq in E as <-. by rewrite Hne.
    + by rewrite IH.
Qed.

Lemma obj_get_keys k o : k ∈ obj_keys o ↔ is_Some (obj_get k o).
Proof.
  unfold obj_keys. induction o as [|[k' e'] o IH]; simpl.
  - split; [by intros ?%elem_of_nil | by intros ?%is_Some_None].
  - rewrite elem_of_cons, IH.
    destruct (String.eqb k k') eqn:E.
    + apply String.eqb_eq in E. split; eauto.
    + apply String.eqb_neq in E. split; [by intros [?|?] | by right].
Qed.
End obj.

Lemma truthy_is_Some {A} (v : option A) : truthy v = true ↔ is_Some v.
Proof. destruct v; simpl; split; eauto; [done | by intros ?%is_Some_None]. Qed.

(** ** Node updates through the store *)

Lemma insert_as_alter (m : gmap string Node) k n (h : Node → Node) :
  m !! k = Some n → <[k := h n]> m = alter h k m.
Proof.
  intros H. apply map_eq; intros j. destruct (decide (k = j)) as [<-|Hne].
  - by rewrite lookup_insert_eq, lookup_alter_eq, H.
  - by rewrite lookup_insert_ne, lookup_alter_ne.
Qed.

(** ** What [getEdge] computes *)

Lemma getEdge_eq f t g :
  getEdge f t g = Ok (getEdge_value g f t, getEdge_state g f t).
Proof.
  unfold getEdge, getEdge_value, getEdge_state, valid_edge, in_slot, out_slot, live,
    delete_in_slot, delete_out_slot, bind, nodes_get, deref, update, ret.
  destruct (_nodes g !! f) as [fn|] eqn:Hf, (_nodes g !! t) as [tn|] eqn:Ht;
    simpl; rewrite ?Hf, ?Ht; simpl; try done.
  - destruct (obj_get t (_outEdges fn)) eqn:Ho, (obj_get f (_inEdges tn)) eqn:Hi;
      simpl; rewrite ?Hf, ?Ht; simpl; try done.
    + unfold with_nodes; simpl. by erewrite insert_as_alter.
    + unfold with_nodes; simpl. by erewrite insert_as_alter.
  - destruct (obj_get t (_outEdges fn)) eqn:Ho; simpl; rewrite ?Hf; simpl; [|done].
    unfold with_nodes; simpl. by erewrite insert_as_alter.
  - destruct (obj_get f (_inEdges tn)) eqn:Hi; simpl; rewrite ?Ht; simpl; [|done].
    unfold with_nodes; simpl. by erewrite insert_as_alter.
Qed.

(** [getEdge] deletes at most one slot, and only a stale one. *)
Lemma getEdge_state_cases g f t :
  getEdge_state g f t = g
  ∨ (valid_edge g f t = false ∧ is_Some (in_slot g f t)
     ∧ getEdge_state g f t = delete_in_slot f t g)
  ∨ (valid_edge g f t = false ∧ is_Some (out_slot g f t)
     ∧ getEdge_state g f t = delete_out_slot f t g).
Proof.
  unfold getEdge_state. destruct (valid_edge g f t); [by left|].
  destruct (truthy (in_slot g f t)) eqn:Hi; simpl.
  - destruct (live g t) eqn:Hl.
    + right; left. by rewrite <- truthy_is_Some.
    + unfold in_slot, live in *. destruct (_nodes g !! t); simplify_eq/=.
  - destruct (truthy (out_slot g f t)) eqn:Ho; [|by left].
    right; right. by rewrite <- truthy_is_Some.
Qed.

Lemma lookup_delete_in_slot g f t k :
  _nodes (delete_in_slot f t g) !! k
  = (if decide (t = k) then with_inEdges (obj_delete f) else id) <$> _nodes g !! k.
Proof.
  unfold delete_in_slot, with_nodes; simpl. rewrite lookup_alter.
  case_decide; [by subst|]. by destruct (_nodes g !! k).
Qed.

Lemma lookup_delete_out_slot g f t k :
  _nodes (delete_out_slot f t g) !! k
  = (if decide (f = k) then with_outEdges (obj_delete t) else id) <$> _nodes g !! k.
Proof.
  unfold delete_out_slot, with_nodes; simpl. rewrite lookup_alter.
  case_decide; [by subst|]. by destruct (_nodes g !! k).
Qed.

(** The nodes of the state [getEdge] leaves are those it found, with their
    counts; only edge maps can have lost a slot. *)
Lemma getEdge_state_lookup g f t k :
  ∃ h : Node → Node,
    _nodes (getEdge_state g f t) !! k = h <$> _nodes g !! k
    ∧ ∀ n, _edgeCount (h n) = _edgeCount n ∧ _id (h n) = _id n.
Proof.
  destruct (getEdge_state_cases g f t) as [->|[(_ & _ & ->)|(_ & _ & ->)]].
  - exists id. split; [by destruct (_nodes g !! k)|done].
  - rewrite lookup_delete_in_slot. eexists; split; [done|]. by case_decide.
  - rewrite lookup_delete_out_slot. eexists; split; [done|]. by case_decide.
Qed.

Lemma getEdge_state_live g f t k : live (getEdge_state g f t) k = live g k.
Proof.
  unfold live. destruct (getEdge_state_lookup g f t k) as (h & -> & _).
  by destruct (_nodes g !! k).
Qed.

Lemma getEdge_state_dom g f t : dom (_nodes (getEdge_state g f t)) = dom (_nodes g).
Proof.
  apply set_eq; intros k. rewrite !elem_of_dom.
  destruct (getEdge_state_lookup g f t k) as (h & -> & _).
  by rewrite fmap_is_Some.
Qed.

Lemma getEdge_state_sizes g f t :
  nodeSize (getEdge_state g f t) = nodeSize g
  ∧ edgeSize (getEdge_state g f t) = edgeSize g
  ∧ fresh (getEdge_state g f t) = fresh g.
Proof.
  by destruct (getEdge_state_cases g f t) as [->|[(_ & _ & ->)|(_ & _ & ->)]].
Qed.

Lemma getEdge_state_valid g f t :
  valid_edge g f t = true → getEdge_state g f t = g.
Proof. unfold getEdge_state. by intros ->. Qed.

Lemma getEdge_value_Some g f t e :
  getEdge_value g f t = Some e ↔ valid_edge g f t = true ∧ out_slot g f t = Some e.
Proof.
  unfold getEdge_value. destruct (valid_edge g f t); split; try done.
  - by intros [_ ?].
  - by intros [? _].
Qed.

Lemma valid_edge_slots g f t :
  valid_edge g f t = true ↔ is_Some (out_slot g f t) ∧ is_Some (in_slot g f t).
Proof.
  unfold valid_edge, out_slot, in_slot.
  destruct (_nodes g !! f) as [fn|], (_nodes g !! t) as [tn|]; simpl;
    rewrite ?andb_true_iff, ?truthy_is_Some; try done.
  - split; [done|]. by intros [_ ?%is_Some_None].
  - split; [done|]. by intros [?%is_Some_None _].
  - split; [done|]. by intros [?%is_Some_None _].
Qed.

Lemma getEdge_value_truthy g f t :
  truthy (getEdge_value g f t) = valid_edge g f t.
Proof.
  unfold getEdge_value. destruct (valid_edge g f t) eqn:Hv; [|done].
  apply valid_edge_slots in Hv as [Ho _]. by apply truthy_is_Some.
Qed.

(** ** [getEdge] only repairs (C7) *)


(** ** [addNode] and [getNode] *)

Lemma addNode_eq id g :
  addNode id g =
  match _nodes g !! id with
  | Some _ => Ok (None, g)
  | None => Ok (Some (new_node id), addNode_state g id)
  end.
Proof.
  unfold addNode, bind, nodes_get, modify, ret.
  by destruct (_nodes g !! id).
Qed.

(** On own keys: when [id] names no node, [addNode(id)] returns a node,
    [getNode(id)] then returns that node and [nodeSize] has grown by one;
    when [id] names a node, [addNode(id)] returns nothing and leaves the
    whole state, the node and its edge maps included, as it was. *)
Lemma addNode_spec (id : string) (g : Graph) :
  match _nodes g !! id with
  | None =>
      ∃ n g', addNode id g = Ok (Some n, g')
        ∧ getNode id g' = Ok (Some n, g')
        ∧ nodeSize g' = nodeSize g + 1
  | Some n =>
      addNode id g = Ok (None, g)
      ∧ getNode id g = Ok (Some n, g)
  end.
Proof.
  rewrite addNode_eq. unfold getNode.
  destruct (_nodes g !! id) as [n|] eqn:Hn.
  - done.
  - eexists _, _. split; [done|]. unfold addNode_state; simpl.
    by rewrite lookup_insert_eq.
Qed.

(** ** Reading and writing through references *)

Lemma nodes_get_eq id g :
  nodes_get id g = Ok (if live g id then Some id else None, g).
Proof. unfold nodes_get, live. by destruct (_nodes g !! id). Qed.

Lemma update_live k h g :
  live g k = true → update (Some k) h g = Ok (tt, with_nodes (alter h k) g).
Proof.
  unfold live, update. destruct (_nodes g !! k) as [n|] eqn:Hn; [|done].
  intros _. unfold with_nodes; simpl. by erewrite insert_as_alter.
Qed.

Lemma live_with_nodes_alter h k g j :
  live (with_nodes (alter h k) g) j = live g j.
Proof.
  unfold live, with_nodes; simpl. rewrite lookup_alter.
  case_decide; subst; by destruct (_nodes g !! j).
Qed.

Lemma valid_edge_live g f t :
  valid_edge g f t = true → live g f = true ∧ live g t = true.
Proof.
  unfold valid_edge, live.
  by destruct (_nodes g !! f), (_nodes g !! t).
Qed.

(** A field that an update of a node keeps is kept in the store. *)
Lemma lookup_alter_field {B} (p : Node → B) (h : Node → Node) k j
    (m : gmap string Node) :
  (∀ n, p (h n) = p n) → p <$> alter h k m !! j = p <$> m !! j.
Proof.
  intros Hp. rewrite lookup_alter. case_decide; subst; [|done].
  destruct (m !! j); simpl; [|done]. by rewrite Hp.
Qed.

(** ** [removeEdge] (C3) *)

Lemma removeEdge_eq f t g :
  removeEdge f t g =
  if valid_edge g f t then Ok (out_slot g f t, removeEdge_state g f t)
  else Ok (None, getEdge_state g f t).
Proof.
  unfold removeEdge, bind. rewrite !nodes_get_eq, getEdge_eq; simpl.
  rewrite getEdge_value_truthy. destruct (valid_edge g f t) eqn:Hv; simpl.
  - rewrite (getEdge_state_valid _ _ _ Hv).
    apply valid_edge_live in Hv as Hl. destruct Hl as [Hf Ht]. rewrite Hf, Ht.
    rewrite update_live by done.
    rewrite update_live by (by rewrite live_with_nodes_alter).
    unfold getEdge_value. by rewrite Hv.
  - done.
Qed.

Lemma out_slot_delete_out_slot g f t a b :
  out_slot (delete_out_slot f t g) a b
  = if decide (a = f ∧ b = t) then None else out_slot g a b.
Proof.
  unfold out_slot. rewrite lookup_delete_out_slot.
  destruct (_nodes g !! a) as [n|] eqn:Hn; simpl; [|by case_decide].
  destruct (decide (f = a)) as [->|Hfa]; simpl.
  - destruct (decide (b = t)) as [->|Hbt].
    + rewrite decide_True by done. apply obj_get_delete_eq.
    + rewrite decide_False by (by intros [_ ?]). by apply obj_get_delete_ne.
  - rewrite decide_False; [done|]. by intros [-> _].
Qed.

Lemma in_slot_delete_out_slot g f t a b :
  in_slot (delete_out_slot f t g) a b = in_slot g a b.
Proof.
  unfold in_slot. rewrite lookup_delete_out_slot.
  destruct (_nodes g !! b) as [n|]; simpl; [|done]. by case_decide.
Qed.

Lemma in_slot_delete_in_slot g f t a b :
  in_slot (delete_in_slot f t g) a b
  = if decide (a = f ∧ b = t) then None else in_slot g a b.
Proof.
  unfold in_slot. rewrite lookup_delete_in_slot.
  destruct (_nodes g !! b) as [n|] eqn:Hn; simpl; [|by case_decide].
  destruct (decide (t = b)) as [->|Htb]; simpl.
  - destruct (decide (a = f)) as [->|Haf].
    + rewrite decide_True by done. apply obj_get_delete_eq.
    + rewrite decide_False by (by intros [? _]). by apply obj_get_delete_ne.
  - rewrite decide_False; [done|]. by intros [_ ->].
Qed.

Lemma out_slot_delete_in_slot g f t a b :
  out_slot (delete_in_slot f t g) a b = out_slot g a b.
Proof.
  unfold out_slot. rewrite lookup_delete_in_slot.
  destruct (_nodes g !! a) as [n|]; simpl; [|done]. by case_decide.
Qed.

(** C3: a [removeEdge(fromId, toId)] call that returns an edge leaves
    [_edgeCount] (and [_id]) of every node, both endpoints included, as it
    was; it takes one from [edgeSize], empties the two slots
    [fromNode._outEdges[toId]] and [toNode._inEdges[fromId]], and changes
    neither another slot, nor [nodeSize], nor the set of nodes. *)
Theorem removeEdge_frame (fromId toId : string) (g g' : Graph) (e : Edge) :
  removeEdge fromId toId g = Ok (Some e, g') →
  (∀ id, _edgeCount <$> _nodes g' !! id = _edgeCount <$> _nodes g !! id)
  ∧ (∀ id, _id <$> _nodes g' !! id = _id <$> _nodes g !! id)
  ∧ edgeSize g' = edgeSize g - 1
  ∧ nodeSize g' = nodeSize g
  ∧ fresh g' = fresh g
  ∧ out_slot g fromId toId = Some e
  ∧ out_slot g' fromId toId = None
  ∧ in_slot g' fromId toId = None
  ∧ (∀ a b, ¬ (a = fromId ∧ b = toId) →
       out_slot g' a b = out_slot g a b ∧ in_slot g' a b = in_slot g a b)
  ∧ g' = with_edgeSize (λ s, s - 1)
           (delete_in_slot fromId toId (delete_out_slot fromId toId g)).
Proof.
  rewrite removeEdge_eq. destruct (valid_edge g fromId toId) eqn:Hv; [|done].
  intros [= He <-]. unfold removeEdge_state.
  split.
  { intros id0. simpl. by rewrite !lookup_alter_field. }
  split.
  { intros id0. simpl. by rewrite !lookup_alter_field. }
  repeat (split; [done|]).
  change (out_slot (with_edgeSize ?h ?s)) with (out_slot s).
  change (in_slot (with_edgeSize ?h ?s)) with (in_slot s).
  split; [by rewrite out_slot_delete_in_slot, out_slot_delete_out_slot, decide_True|].
  split; [by rewrite in_slot_delete_in_slot, decide_True|].
  split; [|done]. intros a b Hab.
  by rewrite out_slot_delete_in_slot, out_slot_delete_out_slot,
    in_slot_delete_in_slot, in_slot_delete_out_slot, !decide_False by done.
Qed.

(** ** [addEdge] (C6) *)

Lemma addEdge_eq f t w g :
  addEdge f t w g =
  if valid_edge g f t then Ok (None, g)
  else if live g f && live g t
       then Ok (Some (addEdge_edge g f t w),
                addEdge_state g f t (addEdge_edge g f t w))
       else Ok (None, getEdge_state g f t).
Proof.
  unfold addEdge, bind. rewrite getEdge_eq; cbv beta iota.
  rewrite getEdge_value_truthy. destruct (valid_edge g f t) eqn:Hv.
  { by rewrite getEdge_state_valid. }
  rewrite !nodes_get_eq; cbv beta iota. rewrite !getEdge_state_live.
  destruct (live g f) eqn:Hf, (live g t) eqn:Ht; try done.
  unfold new_edge. cbn [truthy negb orb andb]. cbv beta iota.
  destruct (getEdge_state_sizes g f t) as (_ & _ & Hfr).
  set (s := getEdge_state g f t) in *.
  assert (Hsf : live s f = true) by (by unfold s; rewrite getEdge_state_live).
  assert (Hst : live s t = true) by (by unfold s; rewrite getEdge_state_live).
  assert (Hsf' : live (with_fresh S s) f = true) by done.
  assert (Hst' : live (with_fresh S s) t = true) by done.
  rewrite update_live by done.
  rewrite update_live by (by rewrite live_with_nodes_alter).
  rewrite update_live by (by rewrite !live_with_nodes_alter).
  unfold modify, addEdge_state, addEdge_edge, ref_neq, ret. fold s. rewrite Hfr.
  destruct (String.eqb f t) eqn:Hft; cbn [negb]; [done|].
  rewrite update_live; [done|].
  change (live (with_edgeSize ?h ?x)) with (live x).
  by rewrite !live_with_nodes_alter.
Qed.

Lemma live_lookup g k : live g k = true → ∃ n, _nodes g !! k = Some n.
Proof. unfold live. destruct (_nodes g !! k); [eauto|done]. Qed.

Lemma addEdge_state_out_slot g f t e :
  live g f = true → out_slot (addEdge_state g f t e) f t = Some e.
Proof.
  intros Hf. rewrite <- (getEdge_state_live g f t) in Hf.
  apply live_lookup in Hf as [n Hn].
  unfold addEdge_state, out_slot.
  destruct (String.eqb f t) eqn:Hft; simpl.
  - apply String.eqb_eq in Hft as <-.
    rewrite !lookup_alter_eq, Hn; simpl. apply obj_get_set_eq.
  - apply String.eqb_neq in Hft.
    rewrite lookup_alter_ne, lookup_alter_eq, lookup_alter_ne, lookup_alter_eq, Hn
      by done.
    simpl. apply obj_get_set_eq.
Qed.

Lemma addEdge_state_in_slot g f t e :
  live g t = true → in_slot (addEdge_state g f t e) f t = Some e.
Proof.
  intros Ht. rewrite <- (getEdge_state_live g f t) in Ht.
  apply live_lookup in Ht as [n Hn].
  unfold addEdge_state, in_slot.
  destruct (String.eqb f t) eqn:Hft; simpl.
  - apply String.eqb_eq in Hft as <-.
    rewrite !lookup_alter_eq, Hn; simpl. apply obj_get_set_eq.
  - apply String.eqb_neq in Hft.
    rewrite lookup_alter_eq, lookup_alter_ne, lookup_alter_eq, lookup_alter_ne, Hn
      by done.
    simpl. apply obj_get_set_eq.
Qed.

Lemma addEdge_state_edgeSize g f t e :
  edgeSize (addEdge_state g f t e) = edgeSize g + 1.
Proof.
  unfold addEdge_state. destruct (getEdge_state_sizes g f t) as (_ & <- & _).
  by destruct (negb (String.eqb f t)).
Qed.

Lemma addEdge_state_fresh g f t e :
  fresh (addEdge_state g f t e) = S (fresh g).
Proof.
  unfold addEdge_state. destruct (getEdge_state_sizes g f t) as (_ & _ & <-).
  by destruct (negb (String.eqb f t)).
Qed.




Lemma valid_edge_eq g f t :
  valid_edge g f t = truthy (out_slot g f t) && truthy (in_slot g f t).
Proof.
  unfold valid_edge, out_slot, in_slot.
  destruct (_nodes g !! f), (_nodes g !! t); simpl; try done.
  by rewrite andb_false_r.
Qed.

Lemma out_slot_alter g h k a b :
  (∀ n, k = a → obj_get b (_outEdges (h n)) = obj_get b (_outEdges n)) →
  out_slot (with_nodes (alter h k) g) a b = out_slot g a b.
Proof.
  intros Hh. unfold out_slot, with_nodes; simpl. rewrite lookup_alter.
  case_decide; [subst|done]. destruct (_nodes g !! a); simpl; [|done]. by apply Hh.
Qed.

Lemma in_slot_alter g h k a b :
  (∀ n, k = b → obj_get a (_inEdges (h n)) = obj_get a (_inEdges n)) →
  in_slot (with_nodes (alter h k) g) a b = in_slot g a b.
Proof.
  intros Hh. unfold in_slot, with_nodes; simpl. rewrite lookup_alter.
  case_decide; [subst|done]. destruct (_nodes g !! b); simpl; [|done]. by apply Hh.
Qed.

Lemma getEdge_state_slots_other g f t a b :
  ¬ (a = f ∧ b = t) →
  out_slot (getEdge_state g f t) a b = out_slot g a b
  ∧ in_slot (getEdge_state g f t) a b = in_slot g a b.
Proof.
  intros Hab.
  destruct (getEdge_state_cases g f t) as [->|[(_ & _ & ->)|(_ & _ & ->)]]; [done|..].
  - by rewrite out_slot_delete_in_slot, in_slot_delete_in_slot, decide_False.
  - by rewrite out_slot_delete_out_slot, in_slot_delete_out_slot, decide_False.
Qed.

Lemma slots_with_edgeSize h g a b :
  out_slot (with_edgeSize h g) a b = out_slot g a b
  ∧ in_slot (with_edgeSize h g) a b = in_slot g a b.
Proof. done. Qed.

Lemma slots_with_fresh h g a b :
  out_slot (with_fresh h g) a b = out_slot g a b
  ∧ in_slot (with_fresh h g) a b = in_slot g a b.
Proof. done. Qed.

(** A successful [addEdge] fills the slots of its own pair only. *)
Lemma addEdge_state_slots_other g f t e a b :
  ¬ (a = f ∧ b = t) →
  out_slot (addEdge_state g f t e) a b = out_slot g a b
  ∧ in_slot (addEdge_state g f t e) a b = in_slot g a b.
Proof.
  intros Hab. destruct (getEdge_state_slots_other g f t a b Hab) as [<- <-].
  unfold addEdge_state.
  assert (∀ s,
    out_slot (with_nodes (alter (with_edgeCount (λ c, c + 1)) f)
      (with_nodes (alter (with_inEdges (obj_set f e)) t)
        (with_nodes (alter (with_outEdges (obj_set t e)) f) s))) a b = out_slot s a b
    ∧ in_slot (with_nodes (alter (with_edgeCount (λ c, c + 1)) f)
      (with_nodes (alter (with_inEdges (obj_set f e)) t)
        (with_nodes (alter (with_outEdges (obj_set t e)) f) s))) a b = in_slot s a b)
    as Hs.
  { intros s. split.
    - rewrite !out_slot_alter; try done.
      intros n ->; simpl. apply obj_get_set_ne. naive_solver.
    - rewrite !in_slot_alter; try done.
      intros n ->; simpl. apply obj_get_set_ne. naive_solver. }
  destruct (slots_with_fresh S (getEdge_state g f t) a b) as [<- <-].
  destruct (Hs (with_fresh S (getEdge_state g f t))) as [<- <-].
  destruct (negb (String.eqb f t)).
  - rewrite out_slot_alter, in_slot_alter by done. apply slots_with_edgeSize.
  - apply slots_with_edgeSize.
Qed.

(** C6: after a successful [addEdge(A, B)] between distinct nodes,
    [getEdge(A, B)] returns the edge just created, and [getEdge(B, A)]
    returns what it returned before the call: nothing, unless a valid edge
    from [B] to [A] was there already, in which case that edge. *)
Theorem addEdge_directed (A B : string) (w : option Z) (g g' : Graph) (e : Edge) :
  A ≠ B →
  addEdge A B w g = Ok (Some e, g') →
  getEdge A B g' = Ok (Some e, g')
  ∧ (∃ g'', getEdge B A g' = Ok (getEdge_value g B A, g''))
  ∧ (valid_edge g B A = false → ∃ g'', getEdge B A g' = Ok (None, g''))
  ∧ (valid_edge g B A = true → getEdge B A g' = Ok (out_slot g B A, g')).
Proof.
  intros Hne. rewrite addEdge_eq.
  destruct (valid_edge g A B) eqn:Hv; [done|].
  destruct (live g A) eqn:HA, (live g B) eqn:HB; simpl; try done.
  intros [= <- <-].
  set (e := addEdge_edge g A B w). set (g' := addEdge_state g A B e).
  pose proof (addEdge_state_out_slot g A B e HA) as Ho.
  pose proof (addEdge_state_in_slot g A B e HB) as Hi.
  assert (¬ (B = A ∧ A = B)) as Hp by (intros [? _]; congruence).
  destruct (addEdge_state_slots_other g A B e B A Hp) as [Ho' Hi'].
  fold g' in Ho, Hi, Ho', Hi'.
  assert (valid_edge g' A B = true) as Hv'.
  { apply valid_edge_slots. by rewrite Ho, Hi. }
  assert (valid_edge g' B A = valid_edge g B A) as Hback.
  { by rewrite !valid_edge_eq, Ho', Hi'. }
  assert (getEdge_value g' B A = getEdge_value g B A) as Hval.
  { unfold getEdge_value. by rewrite Hback, Ho'. }
  rewrite !getEdge_eq, Hval.
  split; [|split; [|split]].
  - unfold getEdge_value, getEdge_state. by rewrite Hv', Ho.
  - eauto.
  - intros Hn. unfold getEdge_value. rewrite Hn. eauto.
  - intros Hy. unfold getEdge_value, getEdge_state. by rewrite Hback, Hy.
Qed.

(** ** The enumerations [getInEdgesOf] and [getOutEdgesOf] *)

Lemma obj_delete_filter k (o : Obj) :
  obj_delete k o = filter (λ ke : string * Edge, ke.1 ≠ k) o.
Proof.
  induction o as [|[k' e'] o IH]; [done|].
  rewrite filter_cons. cbn [obj_delete fst]. destruct (String.eqb k k') eqn:E.
  - apply String.eqb_eq in E as <-. by rewrite decide_False by naive_solver.
  - apply String.eqb_neq in E. rewrite decide_True by naive_solver. by rewrite IH.
Qed.

Lemma obj_get_filter (P : string → Prop) k (o : Obj)
    (d1 : ∀ ke : string * Edge, Decision (P ke.1)) (d2 : Decision (P k)) :
  obj_get k (@filter _ _ _ (λ ke : string * Edge, P ke.1) d1 o)
  = if d2 then obj_get k o else None.
Proof.
  induction o as [|[k' e'] o IH]; [by destruct d2|].
  rewrite filter_cons. cbn [obj_get fst]. destruct (String.eqb k k') eqn:E.
  - apply String.eqb_eq in E as <-.
    unfold decide. destruct (d1 (k, e')) as [Hp|Hp], d2 as [Hp'|Hp']; try done.
    cbn [obj_get]. by rewrite String.eqb_refl.
  - unfold decide. destruct (d1 (k', e')); [|done]. cbn [obj_get]. by rewrite E.
Qed.

Lemma filter_ext_in {A} (P1 P2 : A → Prop)
    `{!∀ x, Decision (P1 x), !∀ x, Decision (P2 x)} (l : list A) :
  (∀ x, x ∈ l → P1 x ↔ P2 x) → filter P1 l = filter P2 l.
Proof.
  induction l as [|a l IH]; intros Hext; [done|].
  rewrite !filter_cons. rewrite IH by (intros x Hx; apply Hext; by right).
  destruct (decide (P1 a)) as [H1|H1], (decide (P2 a)) as [H2|H2]; try done.
  - destruct H2. apply Hext; [by left|done].
  - destruct H1. apply Hext; [by left|done].
Qed.

Lemma filter_all {A} (P : A → Prop) `{!∀ x, Decision (P x)} (l : list A) :
  (∀ x, x ∈ l → P x) → filter P l = l.
Proof.
  induction l as [|a l IH]; intros Hall; [done|].
  rewrite filter_cons_True by (apply Hall; by left).
  rewrite IH; [done|]. intros x Hx. apply Hall. by right.
Qed.

Lemma with_nodes_alter_id h k g :
  (∀ n, _nodes g !! k = Some n → h n = n) → with_nodes (alter h k) g = g.
Proof.
  intros H. destruct g as [m ? ? ?]; unfold with_nodes; simpl in *.
  f_equal. by apply alter_id.
Qed.

Lemma with_nodes_alter_ext h1 h2 k g :
  (∀ n, _nodes g !! k = Some n → h1 n = h2 n) →
  with_nodes (alter h1 k) g = with_nodes (alter h2 k) g.
Proof. intros H. unfold with_nodes. f_equal. by apply alter_ext. Qed.

Lemma with_nodes_alter_alter h1 h2 k g :
  with_nodes (alter h1 k) (with_nodes (alter h2 k) g)
  = with_nodes (alter (h1 ∘ h2) k) g.
Proof. unfold with_nodes; simpl. f_equal. apply alter_alter_eq. Qed.

Section in_loop.
Variables (g : Graph) (id : string) (n : Node).
Hypothesis Hn : _nodes g !! id = Some n.

Lemma in_loop_out_slot done a b :
  out_slot (in_loop_state g id done) a b = out_slot g a b.
Proof. unfold in_loop_state. by apply out_slot_alter. Qed.

Lemma in_loop_in_slot done k :
  in_slot (in_loop_state g id done) k id
  = if decide (valid_edge g k id = true ∨ k ∉ done) then in_slot g k id else None.
Proof.
  unfold in_loop_state, in_slot, with_nodes; simpl.
  rewrite lookup_alter_eq, Hn; simpl.
  apply (obj_get_filter (λ k, valid_edge g k id = true ∨ k ∉ done)).
Qed.

Lemma in_loop_valid done k :
  valid_edge (in_loop_state g id done) k id = valid_edge g k id.
Proof.
  rewrite !valid_edge_eq, in_loop_out_slot, in_loop_in_slot.
  case_decide as HQ; [done|].
  destruct (valid_edge g k id) eqn:Hv; [naive_solver|].
  rewrite valid_edge_eq in Hv. rewrite Hv. apply andb_false_r.
Qed.

Lemma in_loop_step done k :
  k ∈ obj_keys (_inEdges n) →
  getEdge k id (in_loop_state g id done)
  = Ok (getEdge_value g k id, in_loop_state g id (k :: done)).
Proof.
  intros Hk. rewrite getEdge_eq. f_equal. f_equal.
  { unfold getEdge_value. by rewrite in_loop_valid, in_loop_out_slot. }
  apply obj_get_keys in Hk.
  assert (is_Some (in_slot g k id)) as Hin by (unfold in_slot; by rewrite Hn).
  unfold getEdge_state. rewrite in_loop_valid, in_loop_out_slot, in_loop_in_slot.
  destruct (valid_edge g k id) eqn:Hv.
  { unfold in_loop_state. apply with_nodes_alter_ext. intros m _.
    unfold with_inEdges; f_equal.
    apply list_filter_iff. intros [a e]; simpl. rewrite elem_of_cons.
    destruct (decide (a = k)) as [->|]; intuition congruence. }
  case_decide as HQ.
  - destruct HQ as [?|Hnd]; [done|].
    apply truthy_is_Some in Hin as ->. simpl.
    assert (live (in_loop_state g id done) id = true) as ->.
    { unfold in_loop_state. rewrite live_with_nodes_alter.
      unfold live. by rewrite Hn. }
    unfold delete_in_slot, in_loop_state. rewrite with_nodes_alter_alter.
    apply with_nodes_alter_ext. intros m _. unfold with_inEdges; simpl. f_equal.
    rewrite obj_delete_filter, list_filter_filter.
    apply list_filter_iff. intros [a e]; simpl. rewrite elem_of_cons.
    destruct (decide (a = k)) as [->|]; intuition congruence.
  - simpl. pose proof Hv as Hv0. rewrite valid_edge_eq in Hv.
    apply truthy_is_Some in Hin. rewrite Hin, andb_true_r in Hv. rewrite Hv.
    unfold in_loop_state. apply with_nodes_alter_ext. intros m _.
    unfold with_inEdges; f_equal.
    apply list_filter_iff. intros [a e]; simpl. rewrite elem_of_cons.
    destruct (decide (a = k)) as [->|]; [|intuition congruence].
    split.
    + intros [?|?]; [congruence|]. destruct HQ. by right.
    + intros [?|Hc]; [congruence|]. destruct Hc. by left.
Qed.

Lemma in_loop_run keys : ∀ done acc,
  (∀ k, k ∈ keys → k ∈ obj_keys (_inEdges n)) →
  for_in_push (λ fromId, getEdge fromId id) keys acc (in_loop_state g id done)
  = Ok (acc ++ omap (λ k, getEdge_value g k id) keys,
        in_loop_state g id (reverse keys ++ done)).
Proof.
  induction keys as [|k keys IH]; intros done acc Hsub; simpl.
  - unfold ret. by rewrite app_nil_r.
  - unfold bind. rewrite in_loop_step by (apply Hsub; by left).
    rewrite IH by (intros k' Hk'; apply Hsub; by right).
    rewrite reverse_cons, <- app_assoc; simpl. f_equal. f_equal.
    destruct (getEdge_value g k id); simpl; [|done]. by rewrite <- app_assoc.
Qed.

Lemma in_loop_init : in_loop_state g id [] = g.
Proof.
  unfold in_loop_state. apply with_nodes_alter_id. intros m _.
  destruct m; unfold with_inEdges; simpl. f_equal.
  apply filter_all. intros ? _. right. apply not_elem_of_nil.
Qed.

Lemma in_loop_final :
  in_loop_state g id (reverse (obj_keys (_inEdges n)) ++ []) = prune_in g id.
Proof.
  unfold in_loop_state, prune_in. apply with_nodes_alter_ext.
  intros m Hm. rewrite Hn in Hm. injection Hm as <-.
  unfold with_inEdges; simpl. f_equal.
  apply filter_ext_in. intros [a e] Hae; simpl.
  split; [|by left]. intros [?|Hnot]; [done|]. destruct Hnot.
  rewrite app_nil_r, elem_of_reverse. unfold obj_keys.
  apply list_elem_of_fmap. by exists (a, e).
Qed.
End in_loop.

Lemma getInEdgesOf_eq id g :
  getInEdgesOf id g = Ok (inEdges_of g id, prune_in g id).
Proof.
  unfold getInEdgesOf, bind, inEdges_of. rewrite nodes_get_eq. unfold live.
  destruct (_nodes g !! id) as [n|] eqn:Hn; simpl.
  - unfold deref. rewrite Hn.
    rewrite <- (in_loop_init g id) at 1.
    rewrite (in_loop_run g id n Hn) by done.
    by rewrite (in_loop_final g id n Hn).
  - unfold ret, prune_in. by rewrite with_nodes_alter_id by (intros ?; by rewrite Hn).
Qed.

Section out_loop.
Variables (g : Graph) (id : string) (n : Node).
Hypothesis Hn : _nodes g !! id = Some n.

Lemma out_loop_in_slot done a b :
  in_slot (out_loop_state g id done) a b = in_slot g a b.
Proof. unfold out_loop_state. by apply in_slot_alter. Qed.

Lemma out_loop_out_slot done k :
  out_slot (out_loop_state g id done) id k
  = if decide (valid_edge g id k = true ∨ k ∉ done) then out_slot g id k else None.
Proof.
  unfold out_loop_state, out_slot, with_nodes; simpl.
  rewrite lookup_alter_eq, Hn; simpl.
  apply (obj_get_filter (λ k, valid_edge g id k = true ∨ k ∉ done)).
Qed.

Lemma out_loop_valid done k :
  valid_edge (out_loop_state g id done) id k = valid_edge g id k.
Proof.
  rewrite !valid_edge_eq, out_loop_out_slot, out_loop_in_slot.
  case_decide as HQ; [done|].
  destruct (valid_edge g id k) eqn:Hv; [destruct HQ; by left|].
  by rewrite valid_edge_eq in Hv.
Qed.

Lemma out_loop_step done k :
  k ∈ obj_keys (_outEdges n) →
  getEdge id k (out_loop_state g id done)
  = Ok (getEdge_value g id k, out_loop_state g id (k :: done)).
Proof.
  intros Hk. rewrite getEdge_eq. f_equal. f_equal.
  { unfold getEdge_value. rewrite out_loop_valid.
    destruct (valid_edge g id k) eqn:Hv; [|done].
    rewrite out_loop_out_slot. rewrite decide_True; [done|by left]. }
  apply obj_get_keys in Hk.
  assert (is_Some (out_slot g id k)) as Hout by (unfold out_slot; by rewrite Hn).
  unfold getEdge_state. rewrite out_loop_valid, out_loop_out_slot, out_loop_in_slot.
  destruct (valid_edge g id k) eqn:Hv.
  { unfold out_loop_state. apply with_nodes_alter_ext. intros m _.
    unfold with_outEdges; f_equal.
    apply list_filter_iff. intros [a e]; simpl. rewrite elem_of_cons.
    destruct (decide (a = k)) as [->|]; intuition congruence. }
  pose proof Hv as Hv0. rewrite valid_edge_eq in Hv.
  apply truthy_is_Some in Hout. rewrite Hout in Hv; simpl in Hv. rewrite Hv; simpl.
  case_decide as HQ.
  - destruct HQ as [?|Hnd]; [done|]. rewrite Hout.
    unfold delete_out_slot, out_loop_state. rewrite with_nodes_alter_alter.
    apply with_nodes_alter_ext. intros m _. unfold with_outEdges; simpl. f_equal.
    rewrite obj_delete_filter, list_filter_filter.
    apply list_filter_iff. intros [a e]; simpl. rewrite elem_of_cons.
    destruct (decide (a = k)) as [->|]; intuition congruence.
  - simpl. unfold out_loop_state. apply with_nodes_alter_ext. intros m _.
    unfold with_outEdges; f_equal.
    apply list_filter_iff. intros [a e]; simpl. rewrite elem_of_cons.
    destruct (decide (a = k)) as [->|]; [|intuition congruence].
    split.
    + intros [?|?]; [congruence|]. destruct HQ. by right.
    + intros [?|Hc]; [congruence|]. destruct Hc. by left.
Qed.

Lemma out_loop_run keys : ∀ done acc,
  (∀ k, k ∈ keys → k ∈ obj_keys (_outEdges n)) →
  for_in_push (λ toId, getEdge id toId) keys acc (out_loop_state g id done)
  = Ok (acc ++ omap (λ k, getEdge_value g id k) keys,
        out_loop_state g id (reverse keys ++ done)).
Proof.
  induction keys as [|k keys IH]; intros done acc Hsub; simpl.
  - unfold ret. by rewrite app_nil_r.
  - unfold bind. rewrite out_loop_step by (apply Hsub; by left).
    rewrite IH by (intros k' Hk'; apply Hsub; by right).
    rewrite reverse_cons, <- app_assoc; simpl. f_equal. f_equal.
    destruct (getEdge_value g id k); simpl; [|done]. by rewrite <- app_assoc.
Qed.

Lemma out_loop_init : out_loop_state g id [] = g.
Proof.
  unfold out_loop_state. apply with_nodes_alter_id. intros m _.
  destruct m; unfold with_outEdges; simpl. f_equal.
  apply filter_all. intros ? _. right. apply not_elem_of_nil.
Qed.

Lemma out_loop_final :
  out_loop_state g id (reverse (obj_keys (_outEdges n)) ++ []) = prune_out g id.
Proof.
  unfold out_loop_state, prune_out. apply with_nodes_alter_ext.
  intros m Hm. rewrite Hn in Hm. injection Hm as <-.
  unfold with_outEdges; simpl. f_equal.
  apply filter_ext_in. intros [a e] Hae; simpl.
  split; [|by left]. intros [?|Hnot]; [done|]. destruct Hnot.
  rewrite app_nil_r, elem_of_reverse. unfold obj_keys.
  apply list_elem_of_fmap. by exists (a, e).
Qed.
End out_loop.

Lemma getOutEdgesOf_eq id g :
  getOutEdgesOf id g = Ok (outEdges_of g id, prune_out g id).
Proof.
  unfold getOutEdgesOf, bind, outEdges_of. rewrite nodes_get_eq. unfold live.
  destruct (_nodes g !! id) as [n|] eqn:Hn; simpl.
  - unfold deref. rewrite Hn.
    rewrite <- (out_loop_init g id) at 1.
    rewrite (out_loop_run g id n Hn) by done.
    by rewrite (out_loop_final g id n Hn).
  - unfold ret, prune_out. by rewrite with_nodes_alter_id by (intros ?; by rewrite Hn).
Qed.

(** *** Pruning keeps the valid edges *)

Lemma prune_in_out_slot g id a b : out_slot (prune_in g id) a b = out_slot g a b.
Proof. unfold prune_in. by apply out_slot_alter. Qed.

Lemma prune_out_in_slot g id a b : in_slot (prune_out g id) a b = in_slot g a b.
Proof. unfold prune_out. by apply in_slot_alter. Qed.

Lemma prune_in_in_slot g id a b :
  in_slot (prune_in g id) a b
  = if decide (b = id ∧ valid_edge g a id = false) then None else in_slot g a b.
Proof.
  unfold prune_in, in_slot, with_nodes; simpl. rewrite lookup_alter.
  destruct (decide (id = b)) as [->|Hne].
  - destruct (_nodes g !! b) as [n|] eqn:Hn; simpl; [|by case_decide].
    rewrite (obj_get_filter (λ k, valid_edge g k b = true) a _ _ _).
    destruct (valid_edge g a b); repeat case_decide; intuition congruence.
  - rewrite decide_False; [done|]. intros [-> _]. done.
Qed.

Lemma prune_out_out_slot g id a b :
  out_slot (prune_out g id) a b
  = if decide (a = id ∧ valid_edge g id b = false) then None else out_slot g a b.
Proof.
  unfold prune_out, out_slot, with_nodes; simpl. rewrite lookup_alter.
  destruct (decide (id = a)) as [->|Hne].
  - destruct (_nodes g !! a) as [n|] eqn:Hn; simpl; [|by case_decide].
    rewrite (obj_get_filter (λ k, valid_edge g a k = true) b _ _ _).
    destruct (valid_edge g a b); repeat case_decide; intuition congruence.
  - rewrite decide_False; [done|]. intros [-> _]. done.
Qed.

Lemma prune_in_valid g id a b :
  valid_edge (prune_in g id) a b = valid_edge g a b.
Proof.
  rewrite !valid_edge_eq, prune_in_out_slot, prune_in_in_slot.
  case_decide as H; [|done]. destruct H as [-> Hv].
  rewrite valid_edge_eq in Hv. by rewrite Hv, andb_false_r.
Qed.

Lemma prune_out_valid g id a b :
  valid_edge (prune_out g id) a b = valid_edge g a b.
Proof.
  rewrite !valid_edge_eq, prune_out_out_slot, prune_out_in_slot.
  case_decide as H; [|done]. destruct H as [-> Hv].
  by rewrite valid_edge_eq in Hv.
Qed.

Lemma prune_in_value g id a b :
  getEdge_value (prune_in g id) a b = getEdge_value g a b.
Proof. unfold getEdge_value. by rewrite prune_in_valid, prune_in_out_slot. Qed.

Lemma prune_out_value g id a b :
  getEdge_value (prune_out g id) a b = getEdge_value g a b.
Proof.
  unfold getEdge_value. rewrite prune_out_valid, prune_out_out_slot.
  destruct (valid_edge g a b) eqn:Hv; [|done].
  rewrite decide_False; [done|]. intros [-> ?]. congruence.
Qed.

(** Keys that are no valid edge contribute nothing to an enumeration. *)
Lemma omap_filter_keys (F : string → option Edge) (P : string → Prop)
    (d : ∀ ke : string * Edge, Decision (P ke.1)) (o : Obj) :
  (∀ k, ¬ P k → F k = None) →
  omap F (obj_keys (@filter _ _ _ (λ ke : string * Edge, P ke.1) d o))
  = omap F (obj_keys o).
Proof.
  intros HF. unfold obj_keys. induction o as [|[k e] o IH]; [done|].
  rewrite filter_cons. unfold decide. destruct (d (k, e)) as [Hp|Hp]; simpl.
  - fold (omap F (map fst (filter (λ ke : string * Edge, P ke.1) o))).
    fold (omap F (map fst o)). by rewrite IH.
  - fold (omap F (map fst o)). simpl in Hp. by rewrite IH, (HF k Hp).
Qed.

Lemma omap_ext_all (F G : string → option Edge) (l : list string) :
  (∀ k, F k = G k) → omap F l = omap G l.
Proof.
  intros HFG. apply list_omap_ext. induction l; constructor; auto.
Qed.

Lemma getEdge_value_invalid g f t :
  valid_edge g f t ≠ true → getEdge_value g f t = None.
Proof. unfold getEdge_value. by destruct (valid_edge g f t). Qed.

(** A second enumeration finds what the first one found and changes nothing. *)
Lemma prune_in_idempotent g id :
  inEdges_of (prune_in g id) id = inEdges_of g id
  ∧ prune_in (prune_in g id) id = prune_in g id.
Proof.
  split.
  - unfold inEdges_of. unfold prune_in at 1, with_nodes; simpl.
    rewrite lookup_alter_eq. destruct (_nodes g !! id) as [n|]; simpl; [|done].
    rewrite (omap_filter_keys _ (λ k, valid_edge g k id = true))
      by (intros k Hk; rewrite prune_in_value; by apply getEdge_value_invalid).
    apply omap_ext_all. intros k. apply prune_in_value.
  - transitivity (with_nodes
      (alter (with_inEdges (filter (λ ke, valid_edge g ke.1 id = true))) id)
      (prune_in g id)).
    + unfold prune_in at 1. apply with_nodes_alter_ext. intros n _.
      unfold with_inEdges; f_equal. apply list_filter_iff.
      intros [k e]; simpl. by rewrite prune_in_valid.
    + unfold prune_in. rewrite with_nodes_alter_alter.
      apply with_nodes_alter_ext. intros n _. unfold with_inEdges; simpl. f_equal.
      by apply list_filter_filter_r.
Qed.

Lemma prune_out_idempotent g id :
  outEdges_of (prune_out g id) id = outEdges_of g id
  ∧ prune_out (prune_out g id) id = prune_out g id.
Proof.
  split.
  - unfold outEdges_of. unfold prune_out at 1, with_nodes; simpl.
    rewrite lookup_alter_eq. destruct (_nodes g !! id) as [n|]; simpl; [|done].
    rewrite (omap_filter_keys _ (λ k, valid_edge g id k = true))
      by (intros k Hk; rewrite prune_out_value; by apply getEdge_value_invalid).
    apply omap_ext_all. intros k. apply prune_out_value.
  - transitivity (with_nodes
      (alter (with_outEdges (filter (λ ke, valid_edge g id ke.1 = true))) id)
      (prune_out g id)).
    + unfold prune_out at 1. apply with_nodes_alter_ext. intros n _.
      unfold with_outEdges; f_equal. apply list_filter_iff.
      intros [k e]; simpl. by rewrite prune_out_valid.
    + unfold prune_out. rewrite with_nodes_alter_alter.
      apply with_nodes_alter_ext. intros n _. unfold with_outEdges; simpl. f_equal.
      by apply list_filter_filter_r.
Qed.

(** [getEdge] is idempotent: a second call finds the state the first one
    left and returns the same value. *)
Lemma getEdge_idempotent g f t :
  getEdge f t (getEdge_state g f t)
  = Ok (getEdge_value g f t, getEdge_state g f t).
Proof.
  rewrite getEdge_eq.
  destruct (getEdge_state_cases g f t) as [Hs|[(Hv & Hs & ->)|(Hv & Hs & ->)]].
  - by rewrite !Hs.
  - pose proof Hv as Hv0. rewrite valid_edge_eq in Hv.
    apply truthy_is_Some in Hs. rewrite Hs, andb_true_r in Hv.
    assert (valid_edge (delete_in_slot f t g) f t = false) as Hd.
    { by rewrite valid_edge_eq, in_slot_delete_in_slot, decide_True, andb_false_r. }
    unfold getEdge_value, getEdge_state. rewrite Hd, Hv0.
    by rewrite in_slot_delete_in_slot, decide_True, out_slot_delete_in_slot, Hv.
  - assert (valid_edge (delete_out_slot f t g) f t = false) as Hd.
    { by rewrite valid_edge_eq, out_slot_delete_out_slot, decide_True. }
    unfold getEdge_value, getEdge_state. rewrite Hd, Hv.
    rewrite in_slot_delete_out_slot, out_slot_delete_out_slot, decide_True by done.
    apply truthy_is_Some in Hs. rewrite valid_edge_eq, Hs in Hv. simpl in Hv.
    by rewrite Hv.
Qed.

(** ** Repeated look-ups (C8) *)

Lemma calls_stable {A} (m : M A) (r : A) (g1 : Graph) n :
  m g1 = Ok (r, g1) →
  calls m n g1 = Ok (replicate n (r, edgeSize g1), g1).
Proof.
  intros Hm. induction n as [|n IH]; simpl; [done|].
  unfold bind, gets, ret. by rewrite Hm, IH.
Qed.

Lemma calls_settle {A} (m : M A) (r : A) (g g1 : Graph) n :
  m g = Ok (r, g1) →
  m g1 = Ok (r, g1) →
  edgeSize g1 = edgeSize g →
  ∃ g', calls m n g = Ok (replicate n (r, edgeSize g), g').
Proof.
  intros Hm Hm1 He. destruct n as [|n]; simpl; [by eexists|].
  unfold bind, gets, ret. rewrite Hm, (calls_stable m r g1 n Hm1), He. by eexists.
Qed.

Lemma outEdges_of_valid g id e :
  e ∈ outEdges_of g id → ∃ k, valid_edge g id k = true ∧ out_slot g id k = Some e.
Proof.
  unfold outEdges_of. destruct (_nodes g !! id); [|by intros ?%elem_of_nil].
  intros (k & _ & Hk)%list_elem_of_omap. exists k. by apply getEdge_value_Some.
Qed.

Lemma inEdges_of_valid g id e :
  e ∈ inEdges_of g id → ∃ k, valid_edge g k id = true ∧ out_slot g k id = Some e.
Proof.
  unfold inEdges_of. destruct (_nodes g !! id); [|by intros ?%elem_of_nil].
  intros (k & _ & Hk)%list_elem_of_omap. exists k. by apply getEdge_value_Some.
Qed.

Lemma not_live_invalid g a b :
  live g a = false ∨ live g b = false → valid_edge g a b = false.
Proof.
  destruct (valid_edge g a b) eqn:Hv; [|done].
  apply valid_edge_live in Hv as [-> ->]. by intros [?|?].
Qed.

Lemma outEdges_of_none g id :
  (∀ k, valid_edge g id k = false) → outEdges_of g id = [].
Proof.
  intros Hno. destruct (outEdges_of g id) as [|e l] eqn:Hl; [done|].
  destruct (outEdges_of_valid g id e) as (k & Hv & _); [rewrite Hl; by left|].
  by rewrite Hno in Hv.
Qed.

Lemma inEdges_of_none g id :
  (∀ k, valid_edge g k id = false) → inEdges_of g id = [].
Proof.
  intros Hno. destruct (inEdges_of g id) as [|e l] eqn:Hl; [done|].
  destruct (inEdges_of_valid g id e) as (k & Hv & _); [rewrite Hl; by left|].
  by rewrite Hno in Hv.
Qed.

(** C8: once node [A] is gone, any number of successive [getEdge(A, B)]
    calls, or [getEdge(B, A)] calls, each return nothing, and any number of
    successive [getOutEdgesOf(B)] calls, or [getInEdgesOf(B)] calls, each
    return the same list, in which every edge is a valid edge with an
    endpoint other than [A], and which is empty when [B] has no valid edge
    in that direction; after every one of these calls [edgeSize] is what it
    was before the first. *)
Theorem ghost_cleanup_idempotent (A B : string) (g : Graph) (n : nat) :
  live g A = false →
  (∃ g', calls (getEdge A B) n g = Ok (replicate n (None, edgeSize g), g'))
  ∧ (∃ g', calls (getEdge B A) n g = Ok (replicate n (None, edgeSize g), g'))
  ∧ (∃ r g', calls (getOutEdgesOf B) n g = Ok (replicate n (r, edgeSize g), g')
       ∧ (∀ e, e ∈ r →
            ∃ k, k ≠ A ∧ valid_edge g B k = true ∧ out_slot g B k = Some e)
       ∧ ((∀ k, valid_edge g B k = false) → r = []))
  ∧ (∃ r g', calls (getInEdgesOf B) n g = Ok (replicate n (r, edgeSize g), g')
       ∧ (∀ e, e ∈ r →
            ∃ k, k ≠ A ∧ valid_edge g k B = true ∧ out_slot g k B = Some e)
       ∧ ((∀ k, valid_edge g k B = false) → r = [])).
Proof.
  intros HA.
  assert (∀ f t, valid_edge g f t = false →
    ∃ g', calls (getEdge f t) n g = Ok (replicate n (None, edgeSize g), g')) as Hget.
  { intros f t Hv. apply (calls_settle _ _ _ (getEdge_state g f t)).
    - rewrite getEdge_eq. unfold getEdge_value. by rewrite Hv.
    - rewrite getEdge_idempotent. unfold getEdge_value. by rewrite Hv.
    - apply getEdge_state_sizes. }
  split; [apply Hget, not_live_invalid; by left|].
  split; [apply Hget, not_live_invalid; by right|].
  split.
  - exists (outEdges_of g B).
    destruct (calls_settle (getOutEdgesOf B) (outEdges_of g B) g (prune_out g B) n)
      as [g' Hg'].
    + apply getOutEdgesOf_eq.
    + rewrite getOutEdgesOf_eq. by destruct (prune_out_idempotent g B) as [-> ->].
    + done.
    + exists g'. split; [done|]. split; [|apply outEdges_of_none].
      intros e (k & Hv & Hs)%outEdges_of_valid.
      exists k. split; [|done]. intros ->.
      apply valid_edge_live in Hv as [_ Hl]. congruence.
  - exists (inEdges_of g B).
    destruct (calls_settle (getInEdgesOf B) (inEdges_of g B) g (prune_in g B) n)
      as [g' Hg'].
    + apply getInEdgesOf_eq.
    + rewrite getInEdgesOf_eq. by destruct (prune_in_idempotent g B) as [-> ->].
    + done.
    + exists g'. split; [done|]. split; [|apply inEdges_of_none].
      intros e (k & Hv & Hs)%inEdges_of_valid.
      exists k. split; [|done]. intros ->.
      apply valid_edge_live in Hv as [Hl _]. congruence.
Qed.

(** ** [getAllEdgesOf] (C9) *)

Lemma outEdges_of_prune_in g id :
  outEdges_of (prune_in g id) id = outEdges_of g id.
Proof.
  unfold outEdges_of, prune_in at 1, with_nodes; simpl. rewrite lookup_alter_eq.
  destruct (_nodes g !! id) as [n|]; simpl; [|done].
  apply omap_ext_all. intros k. apply prune_in_value.
Qed.

Lemma getAllEdgesOf_eq id g :
  getAllEdgesOf id g =
  if Nat.eqb (length (inEdges_of g id)) 0
  then Ok (outEdges_of g id, prune_out (prune_in g id) id)
  else Ok (match getEdge_value g id id with
           | Some s =>
               drop_self s (inEdges_of g id) 0 (length (inEdges_of g id))
               ++ outEdges_of g id
           | None => inEdges_of g id ++ outEdges_of g id
           end, getAllEdgesOf_state g id).
Proof.
  unfold getAllEdgesOf, bind.
  rewrite getInEdgesOf_eq, getOutEdgesOf_eq, outEdges_of_prune_in.
  destruct (Nat.eqb (length (inEdges_of g id)) 0); [done|].
  rewrite getEdge_eq, prune_out_value, prune_in_value.
  by destruct (getEdge_value g id id).
Qed.

Lemma omap_valid_keys (F : string → option Edge) (P : string → Prop)
    `{!∀ k, Decision (P k)} (keys : list string) :
  (∀ k, ¬ P k → F k = None) →
  omap F keys = omap F (filter P keys).
Proof.
  intros HF. induction keys as [|k keys IH]; [done|].
  rewrite filter_cons. destruct (decide (P k)) as [Hp|Hp]; simpl.
  - fold (omap F keys). fold (omap F (filter P keys)). by rewrite IH.
  - fold (omap F keys). by rewrite (HF k Hp), IH.
Qed.

(** C9: when the valid in-edges of a live node [id] are its self-loop alone
    and its valid out-edges are the self-loop and the edge to one other
    node, [getAllEdgesOf(id)] returns exactly two edges: the self-loop,
    once, and the other edge. *)
Theorem getAllEdgesOf_self_loop (id other : string) (g : Graph) (n : Node)
    (self e : Edge) :
  _nodes g !! id = Some n →
  other ≠ id →
  filter (λ k, valid_edge g k id = true) (obj_keys (_inEdges n)) = [id] →
  (filter (λ k, valid_edge g id k = true) (obj_keys (_outEdges n)) = [id; other]
   ∨ filter (λ k, valid_edge g id k = true) (obj_keys (_outEdges n)) = [other; id]) →
  out_slot g id id = Some self →
  out_slot g id other = Some e →
  ∃ r g', getAllEdgesOf id g = Ok (r, g')
    ∧ length r = 2%nat
    ∧ (r = [self; e] ∨ r = [e; self]).
Proof.
  intros Hn Hne Hin Hout Hself He.
  assert (valid_edge g id id = true) as Hvs.
  { assert (id ∈ filter (λ k, valid_edge g k id = true) (obj_keys (_inEdges n))) as Hm
      by (rewrite Hin; by left).
    by apply list_elem_of_filter in Hm as [? _]. }
  assert (valid_edge g id other = true) as Hvo.
  { assert (other ∈ filter (λ k, valid_edge g id k = true) (obj_keys (_outEdges n)))
      as Hm by (destruct Hout as [-> | ->]; set_solver).
    by apply list_elem_of_filter in Hm as [? _]. }
  assert (getEdge_value g id id = Some self) as Hgs
    by (by apply getEdge_value_Some).
  assert (getEdge_value g id other = Some e) as Hgo
    by (by apply getEdge_value_Some).
  assert (inEdges_of g id = [self]) as Hins.
  { unfold inEdges_of. rewrite Hn.
    rewrite (omap_valid_keys _ (λ k, valid_edge g k id = true))
      by (intros k Hk; by apply getEdge_value_invalid).
    rewrite Hin; simpl. by rewrite Hgs. }
  assert (outEdges_of g id = [self; e] ∨ outEdges_of g id = [e; self]) as Houts.
  { unfold outEdges_of. rewrite Hn.
    rewrite (omap_valid_keys _ (λ k, valid_edge g id k = true))
      by (intros k Hk; by apply getEdge_value_invalid).
    destruct Hout as [-> | ->]; simpl; rewrite Hgs, Hgo; auto. }
  rewrite getAllEdgesOf_eq, Hins, Hgs; simpl.
  unfold same_edge. rewrite Nat.eqb_refl; simpl.
  eexists _, _. split; [done|]. by destruct Houts as [-> | ->]; auto.
Qed.

(** ** [removeNode] *)

Lemma removeNode_eq id g :
  removeNode id g =
  match _nodes g !! id with
  | Some n => Ok (Some n, removeNode_state g id n)
  | None => Ok (None, g)
  end.
Proof.
  unfold removeNode, bind, nodes_get, deref, modify, ret.
  destruct (_nodes g !! id) as [n|] eqn:Hn; simpl; [|done]. by rewrite !Hn.
Qed.

(** What [removeNode] does for every state: it returns the node, takes one
    from [nodeSize] and the cached [_edgeCount] from [edgeSize], and no
    [getEdge] with [id] as an endpoint finds an edge afterwards. *)
Lemma removeNode_spec id g n :
  _nodes g !! id = Some n →
  ∃ g', removeNode id g = Ok (Some n, g')
    ∧ nodeSize g' = nodeSize g - 1
    ∧ edgeSize g' = edgeSize g - _edgeCount n
    ∧ live g' id = false
    ∧ ∀ k, (∃ s, getEdge id k g' = Ok (None, s))
           ∧ (∃ s, getEdge k id g' = Ok (None, s)).
Proof.
  intros Hn. rewrite removeNode_eq, Hn. eexists. split; [done|].
  assert (live (removeNode_state g id n) id = false) as Hl.
  { unfold live, removeNode_state; simpl. by rewrite lookup_delete_eq. }
  repeat split; try done.
  - rewrite getEdge_eq. unfold getEdge_value.
    rewrite not_live_invalid by (by left). by eexists.
  - rewrite getEdge_eq. unfold getEdge_value.
    rewrite not_live_invalid by (by right). by eexists.
Qed.

(** ** No method throws on own keys *)

(** On own keys, in every state and for all arguments, each public method
    returns a value and a state, never an exception; when the node or edge
    asked for is missing, or the node or edge to add exists, the value is
    [undefined] ([None]), or the empty array for the enumerations. *)
Lemma operations_total (g : Graph) :
  (∀ id, ∃ r g', addNode id g = Ok (r, g') ∧ (live g id = true → r = None))
  ∧ (∀ id, ∃ r, getNode id g = Ok (r, g) ∧ (live g id = false → r = None))
  ∧ (∀ id, ∃ r g', removeNode id g = Ok (r, g') ∧ (live g id = false → r = None))
  ∧ (∀ f t w, ∃ r g', addEdge f t w g = Ok (r, g')
       ∧ (valid_edge g f t = true ∨ live g f = false ∨ live g t = false → r = None))
  ∧ (∀ f t, ∃ r g', getEdge f t g = Ok (r, g')
       ∧ (valid_edge g f t = false → r = None))
  ∧ (∀ f t, ∃ r g', removeEdge f t g = Ok (r, g')
       ∧ (valid_edge g f t = false → r = None))
  ∧ (∀ id, ∃ r g', getInEdgesOf id g = Ok (r, g') ∧ (live g id = false → r = []))
  ∧ (∀ id, ∃ r g', getOutEdgesOf id g = Ok (r, g') ∧ (live g id = false → r = []))
  ∧ (∀ id, ∃ r g', getAllEdgesOf id g = Ok (r, g') ∧ (live g id = false → r = [])).
Proof.
  repeat split.
  - intros id. rewrite addNode_eq. unfold live.
    destruct (_nodes g !! id); by eexists _, _.
  - intros id. unfold getNode, live. eexists. split; [done|].
    by destruct (_nodes g !! id).
  - intros id. rewrite removeNode_eq. unfold live.
    destruct (_nodes g !! id); by eexists _, _.
  - intros f t w. rewrite addEdge_eq.
    destruct (valid_edge g f t); [by eexists _, _|].
    destruct (live g f), (live g t); simpl; eexists _, _; split; try done;
      intros [?|[?|?]]; done.
  - intros f t. rewrite getEdge_eq. eexists _, _. split; [done|].
    unfold getEdge_value. by intros ->.
  - intros f t. rewrite removeEdge_eq.
    destruct (valid_edge g f t); by eexists _, _.
  - intros id. rewrite getInEdgesOf_eq. eexists _, _. split; [done|].
    unfold inEdges_of, live. by destruct (_nodes g !! id).
  - intros id. rewrite getOutEdgesOf_eq. eexists _, _. split; [done|].
    unfold outEdges_of, live. by destruct (_nodes g !! id).
  - intros id. rewrite getAllEdgesOf_eq.
    destruct (Nat.eqb (length (inEdges_of g id)) 0) eqn:Hl.
    + eexists _, _. split; [done|].
      unfold outEdges_of, live. by destruct (_nodes g !! id).
    + eexists _, _. split; [done|]. intros Hd. exfalso.
      unfold inEdges_of, live in *. by destruct (_nodes g !! id).
Qed.

(** ** The counters against the edges (C1, C2) *)

(** C1: [edgeSize] is not the number of valid edges in every reachable
    state.  [addEdge] counts the edge against both endpoints, [removeNode]
    takes the cached [_edgeCount] of the node it removes from [edgeSize], and
    nothing ever lowers the count cached in the other endpoint: after
    [addNode('A'); addNode('B'); addEdge('A','B'); removeNode('A');
    removeNode('B')] the graph is empty, no valid edge is left, and
    [edgeSize] is [-1]. *)
Theorem edgeSize_drifts_below_zero :
  ∃ g, run [AddNode "A"; AddNode "B"; AddEdge "A" "B" None;
            RemoveNode "A"; RemoveNode "B"] newGraph = Ok (tt, g)
    ∧ _nodes g = ∅
    ∧ nodeSize g = 0
    ∧ validEdgeCount g = 0
    ∧ edgeSize g = -1.
Proof. eexists. split; [vm_compute; reflexivity|]. by vm_compute. Qed.

(** C2: [removeNode] takes the cached [_edgeCount] from [edgeSize], and
    this is not always the number of edges that touch the node.
    [removeEdge] leaves [_edgeCount] alone, so after [addNode('A');
    addNode('B'); addEdge('A','B'); removeEdge('A','B')] no edge touches
    ['A'], and [removeNode('A')] still returns the node, takes one from
    [nodeSize] and takes one from [edgeSize]. *)
Theorem removeNode_counts_removed_edge :
  ∃ g n g', run [AddNode "A"; AddNode "B"; AddEdge "A" "B" None;
                 RemoveEdge "A" "B"] newGraph = Ok (tt, g)
    ∧ edgesTouching g "A" = 0
    ∧ validEdgeCount g = 0
    ∧ edgeSize g = 0
    ∧ removeNode "A" g = Ok (Some n, g')
    ∧ _edgeCount n = 1
    ∧ nodeSize g' = nodeSize g - 1
    ∧ edgeSize g' = edgeSize g - 1.
Proof.
  eexists _, _, _. split; [vm_compute; reflexivity|].
  do 3 (split; [by vm_compute|]). split; [vm_compute; reflexivity|]. by vm_compute.
Qed.

(** ** The properties at concrete graphs *)

(** The scenario of the overview: three nodes, the edges [A→C] and [A→B]. *)
Example overview_scenario :
  ∃ g, run [AddNode "A"; AddNode "B"; AddNode "C";
            AddEdge "A" "C" None; AddEdge "A" "B" None] newGraph = Ok (tt, g)
  ∧ (∃ s, getEdge "B" "A" g = Ok (None, s))
  ∧ (∃ e s, getEdge "A" "B" g = Ok (Some e, s) ∧ weight e = 1)
  ∧ (∃ r s, getOutEdgesOf "A" g = Ok (r, s) ∧ length r = 2%nat)
  ∧ (∃ r s, getInEdgesOf "B" g = Ok (r, s) ∧ length r = 1%nat)
  ∧ (∃ n g1 e g2,
       removeNode "C" g = Ok (Some n, g1) ∧ _id n = "C"
       ∧ edgeSize g1 = edgeSize g - 1
       ∧ removeEdge "A" "B" g1 = Ok (Some e, g2) ∧ edgeSize g2 = 0).
Proof.
  eexists. split; [vm_compute; reflexivity|].
  split; [eexists; vm_compute; reflexivity|].
  split; [eexists _, _; split; vm_compute; reflexivity|].
  split; [eexists _, _; split; vm_compute; reflexivity|].
  split; [eexists _, _; split; vm_compute; reflexivity|].
  eexists _, _, _, _.
  split; [vm_compute; reflexivity|]. split; [vm_compute; reflexivity|].
  split; [vm_compute; reflexivity|]. split; vm_compute; reflexivity.
Qed.

(** [removeEdge_frame] at the graph [A→B]. *)
Lemma removeEdge_frame_witness :
  ∃ e g', removeEdge "A" "B" (after [AddNode "A"; AddNode "B"; AddEdge "A" "B" None])
          = Ok (Some e, g')
    ∧ edgeSize g' = 0
    ∧ ∀ id, _edgeCount <$> _nodes g' !! id
            = _edgeCount <$> _nodes (after [AddNode "A"; AddNode "B";
                                             AddEdge "A" "B" None]) !! id.
Proof.
  destruct (removeEdge_frame "A" "B"
              (after [AddNode "A"; AddNode "B"; AddEdge "A" "B" None]) _ _
              ltac:(vm_compute; reflexivity)) as (Hc & _ & He & _).
  eexists _, _. split; [vm_compute; reflexivity|]. split; [exact He|exact Hc].
Defined.

(** [addEdge_directed] at the graph of two nodes without an edge. *)
Lemma addEdge_directed_witness :
  ∃ e g', addEdge "A" "B" None (after [AddNode "A"; AddNode "B"]) = Ok (Some e, g')
    ∧ getEdge "A" "B" g' = Ok (Some e, g')
    ∧ ∃ g'', getEdge "B" "A" g' = Ok (None, g'').
Proof.
  assert ("A" ≠ "B") as Hne by discriminate.
  destruct (addEdge_directed "A" "B" None (after [AddNode "A"; AddNode "B"]) _ _
              Hne ltac:(vm_compute; reflexivity)) as (Hab & _ & Hba & _).
  eexists _, _. split; [vm_compute; reflexivity|]. split; [exact Hab|].
  apply Hba. vm_compute. reflexivity.
Defined.

(** [ghost_cleanup_idempotent] at the graph [A→B] once [A] is removed:
    three calls in a row. *)
Lemma ghost_cleanup_idempotent_witness :
  live (after [AddNode "A"; AddNode "B"; AddEdge "A" "B" None; RemoveNode "A"]) "A"
  = false
  ∧ (∃ g', calls (getEdge "A" "B") 3
             (after [AddNode "A"; AddNode "B"; AddEdge "A" "B" None; RemoveNode "A"])
           = Ok ([(None, 0); (None, 0); (None, 0)], g'))
  ∧ (∃ r g', calls (getOutEdgesOf "B") 3
               (after [AddNode "A"; AddNode "B"; AddEdge "A" "B" None; RemoveNode "A"])
             = Ok ([(r, 0); (r, 0); (r, 0)], g'))
  ∧ (∃ r g', calls (getInEdgesOf "B") 3
               (after [AddNode "A"; AddNode "B"; AddEdge "A" "B" None; RemoveNode "A"])
             = Ok ([(r, 0); (r, 0); (r, 0)], g')).
Proof.
  assert (live (after [AddNode "A"; AddNode "B"; AddEdge "A" "B" None;
                       RemoveNode "A"]) "A" = false) as Hl
    by (vm_compute; reflexivity).
  destruct (ghost_cleanup_idempotent "A" "B" _ 3 Hl)
    as (Hab & _ & (ro & go & Hout & _) & (ri & gi & Hin & _)).
  split; [exact Hl|]. split; [exact Hab|].
  split; [exists ro, go; exact Hout | exists ri, gi; exact Hin].
Defined.

(** [getAllEdgesOf_self_loop] at the graph [A→A], [A→B]. *)
Lemma getAllEdgesOf_self_loop_witness :
  ∃ r g', getAllEdgesOf "A"
            (after [AddNode "A"; AddNode "B"; AddEdge "A" "A" None;
                    AddEdge "A" "B" None]) = Ok (r, g')
    ∧ length r = 2%nat.
Proof.
  destruct (getAllEdgesOf_self_loop "A" "B"
              (after [AddNode "A"; AddNode "B"; AddEdge "A" "A" None;
                      AddEdge "A" "B" None]) _ _ _
              ltac:(vm_compute; reflexivity)
              ltac:(discriminate)
              ltac:(vm_compute; reflexivity)
              ltac:(left; vm_compute; reflexivity)
              ltac:(vm_compute; reflexivity)
              ltac:(vm_compute; reflexivity)) as (r & g' & Hr & Hlen & _).
  exists r, g'. split; [exact Hr|exact Hlen].
Defined.

(** * Further properties of the methods *)

(** ** Adding and removing a node *)

(** On own keys: for an identifier that names no node, [addNode(id)]
    followed by [removeNode(id)] returns the node just created and gives
    back the state the graph was in, counters included. *)
Lemma addNode_removeNode_own_keys (id : string) (g : Graph) :
  _nodes g !! id = None →
  ∃ n g1, addNode id g = Ok (Some n, g1)
    ∧ removeNode id g1 = Ok (Some n, g).
Proof.
  intros Hn. rewrite addNode_eq, Hn. eexists _, _. split; [done|].
  rewrite removeNode_eq. unfold addNode_state at 1; simpl.
  rewrite lookup_insert_eq. f_equal. f_equal.
  unfold removeNode_state, addNode_state, with_nodes, with_nodeSize, with_edgeSize;
    simpl.
  destruct g as [m ns es fr]; simpl in *. f_equal.
  - by apply delete_insert_id.
  - lia.
  - lia.
Qed.

(** On own keys: a node added under an identifier that names no node has
    no edge, whatever slots a former node of that name has left behind in
    its neighbours: [getEdge] finds nothing from it or to it, and
    [getAllEdgesOf] returns the empty array. *)
Lemma addNode_starts_without_edges_own_keys (id : string) (g : Graph) :
  live g id = false →
  ∃ n g1, addNode id g = Ok (Some n, g1)
    ∧ (∀ k, ∃ s, getEdge id k g1 = Ok (None, s))
    ∧ (∀ k, ∃ s, getEdge k id g1 = Ok (None, s))
    ∧ (∃ s, getInEdgesOf id g1 = Ok ([], s))
    ∧ (∃ s, getOutEdgesOf id g1 = Ok ([], s))
    ∧ (∃ s, getAllEdgesOf id g1 = Ok ([], s)).
Proof.
  intros Hl. rewrite addNode_eq. unfold live in Hl.
  destruct (_nodes g !! id) eqn:Hn; [done|]. eexists _, _. split; [done|].
  set (g1 := addNode_state g id).
  assert (_nodes g1 !! id = Some (new_node id)) as Hnew
    by (unfold g1, addNode_state; simpl; apply lookup_insert_eq).
  assert (∀ k, valid_edge g1 id k = false) as Hout.
  { intros k. rewrite valid_edge_eq. unfold out_slot. by rewrite Hnew. }
  assert (∀ k, valid_edge g1 k id = false) as Hin.
  { intros k. rewrite valid_edge_eq. unfold in_slot. rewrite Hnew; simpl.
    apply andb_false_r. }
  assert (inEdges_of g1 id = []) as Hi by (by apply inEdges_of_none).
  assert (outEdges_of g1 id = []) as Ho by (by apply outEdges_of_none).
  split; [intros k; rewrite getEdge_eq; unfold getEdge_value; rewrite Hout; by eexists|].
  split; [intros k; rewrite getEdge_eq; unfold getEdge_value; rewrite Hin; by eexists|].
  split; [rewrite getInEdgesOf_eq, Hi; by eexists|].
  split; [rewrite getOutEdgesOf_eq, Ho; by eexists|].
  rewrite getAllEdgesOf_eq, Hi, Ho; simpl. by eexists.
Qed.

(** ** Adding and removing an edge *)

Lemma addEdge_state_live g f t e k : live (addEdge_state g f t e) k = live g k.
Proof.
  unfold addEdge_state. rewrite <- (getEdge_state_live g f t k).
  destruct (negb (String.eqb f t)); simpl.
  - rewrite live_with_nodes_alter.
    change (live (with_edgeSize ?h ?x)) with (live x).
    by rewrite !live_with_nodes_alter.
  - change (live (with_edgeSize ?h ?x)) with (live x).
    by rewrite !live_with_nodes_alter.
Qed.

Lemma removeEdge_state_live g f t k : live (removeEdge_state g f t) k = live g k.
Proof.
  unfold removeEdge_state, delete_in_slot, delete_out_slot.
  change (live (with_edgeSize ?h ?x)) with (live x).
  by rewrite !live_with_nodes_alter.
Qed.

Lemma addEdge_success f t w g e g1 :
  addEdge f t w g = Ok (Some e, g1) →
  valid_edge g f t = false ∧ live g f = true ∧ live g t = true
  ∧ e = addEdge_edge g f t w ∧ g1 = addEdge_state g f t e.
Proof.
  rewrite addEdge_eq. destruct (valid_edge g f t); [done|].
  destruct (live g f), (live g t); simpl; try done. by intros [= <- <-].
Qed.

(** X3: an edge that [addEdge(fromId, toId)] has just added is the one
    [removeEdge(fromId, toId)] removes: it returns that edge, [edgeSize] and
    [nodeSize] are what they were before the edge was added, [getEdge] no
    longer finds it, and [addEdge(fromId, toId)] succeeds again. *)
Theorem addEdge_removeEdge_roundtrip (fromId toId : string) (w : option Z)
    (g g1 : Graph) (e : Edge) :
  addEdge fromId toId w g = Ok (Some e, g1) →
  ∃ g2, removeEdge fromId toId g1 = Ok (Some e, g2)
    ∧ edgeSize g2 = edgeSize g
    ∧ nodeSize g2 = nodeSize g
    ∧ (∃ s, getEdge fromId toId g2 = Ok (None, s))
    ∧ (∃ e' g3, addEdge fromId toId w g2 = Ok (Some e', g3)).
Proof.
  intros (Hv & Hf & Ht & -> & ->)%addEdge_success.
  set (e := addEdge_edge g fromId toId w). set (g1 := addEdge_state g fromId toId e).
  pose proof (addEdge_state_out_slot g fromId toId e Hf) as Ho.
  pose proof (addEdge_state_in_slot g fromId toId e Ht) as Hi.
  fold g1 in Ho, Hi.
  assert (valid_edge g1 fromId toId = true) as Hv1
    by (apply valid_edge_slots; by rewrite Ho, Hi).
  rewrite removeEdge_eq, Hv1, Ho. eexists. split; [done|].
  set (g2 := removeEdge_state g1 fromId toId).
  assert (valid_edge g2 fromId toId = false) as Hv2.
  { rewrite valid_edge_eq. unfold g2, removeEdge_state.
    destruct (slots_with_edgeSize (λ s, s - 1)
      (delete_in_slot fromId toId (delete_out_slot fromId toId g1)) fromId toId)
      as [-> ->].
    by rewrite out_slot_delete_in_slot, out_slot_delete_out_slot, decide_True. }
  split.
  { unfold g2, removeEdge_state, g1; simpl.
    change (edgeSize (addEdge_state g fromId toId e) - 1 = edgeSize g).
    rewrite addEdge_state_edgeSize. lia. }
  split.
  { unfold g2, removeEdge_state, g1, addEdge_state; simpl.
    destruct (getEdge_state_sizes g fromId toId) as (<- & _ & _).
    by destruct (negb (String.eqb fromId toId)). }
  split.
  { rewrite getEdge_eq. unfold getEdge_value. rewrite Hv2. by eexists. }
  rewrite addEdge_eq, Hv2. unfold g2. rewrite !removeEdge_state_live.
  unfold g1. rewrite !addEdge_state_live, Hf, Ht. simpl. by eexists _, _.
Qed.

(** X4: a successful [addEdge(fromId, toId)] adds one to [_edgeCount] of
    each endpoint, once only when the edge is a self-loop, and leaves
    [_edgeCount] of every other node, [nodeSize] and the set of nodes as they
    were. *)
Theorem addEdge_edgeCount (fromId toId : string) (w : option Z)
    (g g1 : Graph) (e : Edge) :
  addEdge fromId toId w g = Ok (Some e, g1) →
  (∀ k, _edgeCount <$> _nodes g1 !! k
        = (λ c, if decide (k = fromId ∨ k = toId) then c + 1 else c)
            <$> (_edgeCount <$> _nodes g !! k))
  ∧ nodeSize g1 = nodeSize g
  ∧ dom (_nodes g1) = dom (_nodes g).
Proof.
  intros (Hv & Hf & Ht & -> & ->)%addEdge_success.
  set (e := addEdge_edge g fromId toId w).
  split; [|split].
  - intros k. destruct (getEdge_state_lookup g fromId toId k) as (h & Hh & Hc).
    assert (_edgeCount <$> _nodes (getEdge_state g fromId toId) !! k
            = _edgeCount <$> _nodes g !! k) as Hg.
    { rewrite Hh. destruct (_nodes g !! k); simpl; [|done]. f_equal. apply Hc. }
    rewrite <- Hg. unfold addEdge_state.
    destruct (String.eqb fromId toId) eqn:Hft; simpl.
    + apply String.eqb_eq in Hft as <-.
      destruct (decide (fromId = k)) as [->|Hne].
      * rewrite !lookup_alter_eq.
        destruct (_nodes (getEdge_state g k k) !! k); simpl; [|done].
        by rewrite decide_True by (by left).
      * rewrite !lookup_alter_ne by done.
        destruct (_nodes (getEdge_state g fromId fromId) !! k); simpl; [|done].
        rewrite decide_False; [done|]. intros [?|?]; congruence.
    + apply String.eqb_neq in Hft.
      destruct (decide (toId = k)) as [->|Hne1].
      * rewrite lookup_alter_eq, lookup_alter_ne, lookup_alter_eq, lookup_alter_ne
          by done.
        destruct (_nodes (getEdge_state g fromId k) !! k); simpl; [|done].
        by rewrite decide_True by (by right).
      * rewrite lookup_alter_ne by done.
        destruct (decide (fromId = k)) as [->|Hne2].
        -- rewrite lookup_alter_eq, lookup_alter_ne, lookup_alter_eq by done.
           destruct (_nodes (getEdge_state g k toId) !! k); simpl; [|done].
           by rewrite decide_True by (by left).
        -- rewrite !lookup_alter_ne by done.
           destruct (_nodes (getEdge_state g fromId toId) !! k); simpl; [|done].
           rewrite decide_False; [done|]. intros [?|?]; congruence.
  - unfold addEdge_state.
    destruct (getEdge_state_sizes g fromId toId) as (<- & _ & _).
    by destruct (negb (String.eqb fromId toId)).
  - rewrite <- (getEdge_state_dom g fromId toId). unfold addEdge_state.
    destruct (negb (String.eqb fromId toId)); simpl; by rewrite !dom_alter_L.
Qed.


(** ** Enumerations against look-ups *)

Lemma outEdges_of_iff g id e :
  e ∈ outEdges_of g id ↔ ∃ k, getEdge_value g id k = Some e.
Proof.
  split.
  - intros (k & Hv & Hs)%outEdges_of_valid. exists k. by apply getEdge_value_Some.
  - intros (k & Hk). pose proof Hk as (Hv & Hs)%getEdge_value_Some.
    unfold outEdges_of. unfold out_slot in Hs.
    destruct (_nodes g !! id) as [n|]; [|done].
    apply list_elem_of_omap. exists k. split; [|done].
    apply obj_get_keys. by rewrite Hs.
Qed.

Lemma inEdges_of_iff g id e :
  e ∈ inEdges_of g id ↔ ∃ k, getEdge_value g k id = Some e.
Proof.
  split.
  - intros (k & Hv & Hs)%inEdges_of_valid. exists k. by apply getEdge_value_Some.
  - intros (k & Hk). pose proof Hk as (Hv & Hs)%getEdge_value_Some.
    apply valid_edge_slots in Hv as [_ Hi].
    unfold inEdges_of. unfold in_slot in Hi.
    destruct (_nodes g !! id) as [n|]; [|by apply is_Some_None in Hi].
    apply list_elem_of_omap. exists k. split; [|done]. by apply obj_get_keys.
Qed.

(** X6: [getOutEdgesOf(id)] lists exactly the edges [getEdge(id, toId)]
    finds for some [toId], and [getInEdgesOf(id)] exactly the edges
    [getEdge(fromId, id)] finds for some [fromId]. *)
Theorem enumerations_list_what_getEdge_finds (id : string) (g : Graph) (e : Edge) :
  ((∃ r s, getOutEdgesOf id g = Ok (r, s) ∧ e ∈ r)
     ↔ ∃ toId s, getEdge id toId g = Ok (Some e, s))
  ∧ ((∃ r s, getInEdgesOf id g = Ok (r, s) ∧ e ∈ r)
     ↔ ∃ fromId s, getEdge fromId id g = Ok (Some e, s)).
Proof.
  split; split.
  - intros (r & s & Hr & He). rewrite getOutEdgesOf_eq in Hr. injection Hr as <- <-.
    apply outEdges_of_iff in He as [k Hk]. exists k.
    rewrite getEdge_eq, Hk. by eexists.
  - intros (k & s & Hk). rewrite getEdge_eq in Hk. injection Hk as Hk _.
    rewrite getOutEdgesOf_eq. eexists _, _. split; [done|].
    apply outEdges_of_iff. by exists k.
  - intros (r & s & Hr & He). rewrite getInEdgesOf_eq in Hr. injection Hr as <- <-.
    apply inEdges_of_iff in He as [k Hk]. exists k.
    rewrite getEdge_eq, Hk. by eexists.
  - intros (k & s & Hk). rewrite getEdge_eq in Hk. injection Hk as Hk _.
    rewrite getInEdgesOf_eq. eexists _, _. split; [done|].
    apply inEdges_of_iff. by exists k.
Qed.

(** *** The removal of the self-loop in [getAllEdgesOf] *)

Lemma removelast_cons_ne {A} (a : A) (l : list A) :
  l ≠ [] → removelast (a :: l) = a :: removelast l.
Proof. by destruct l. Qed.

Lemma removelast_last_Permutation {A} (l : list A) (y : A) :
  last l = Some y → y :: removelast l ≡ₚ l.
Proof.
  intros (l' & ->)%last_Some. rewrite removelast_last.
  by rewrite Permutation_cons_append.
Qed.

(** Overwriting position [j] with the last element and popping leaves the
    elements of the list but the one at [j]. *)
Lemma swap_pop_Permutation {A} (l : list A) : ∀ j x y,
  l !! j = Some x → last l = Some y →
  removelast (<[j := y]> l) ≡ₚ delete j l.
Proof.
  induction l as [|a l IH]; intros j x y Hj Hy; [done|].
  destruct j as [|j].
  - destruct l as [|b l]; [done|].
    rewrite last_cons_cons in Hy.
    change (removelast (y :: b :: l) ≡ₚ b :: l).
    rewrite removelast_cons_ne by done. by apply removelast_last_Permutation.
  - change (removelast (a :: <[j := y]> l) ≡ₚ a :: delete j l).
    change (l !! j = Some x) in Hj.
    destruct l as [|b l]; [done|]. rewrite last_cons_cons in Hy.
    rewrite removelast_cons_ne.
    + by rewrite (IH j x y).
    + intros Hnil. apply (f_equal length) in Hnil. by rewrite length_insert in Hnil.
Qed.

(** The loop either finds no element that is [=== selfEdge] from position [i]
    on and leaves the array alone, or removes the first such element. *)
Lemma drop_self_spec (s : Edge) (l : list Edge) : ∀ n i,
  (i + n = length l)%nat →
  (drop_self s l i n = l
   ∧ ∀ j x, (i ≤ j)%nat → l !! j = Some x → same_edge x s = false)
  ∨ (∃ j x, l !! j = Some x ∧ same_edge x s = true
       ∧ drop_self s l i n ≡ₚ delete j l).
Proof.
  induction n as [|n IH]; intros i Hi; simpl.
  - left. split; [done|]. intros j x Hj Hx.
    apply lookup_lt_Some in Hx. lia.
  - destruct (l !! i) as [x|] eqn:Hx.
    2:{ apply lookup_ge_None in Hx. lia. }
    destruct (last l) as [y|] eqn:Hy.
    2:{ apply last_None in Hy. subst. done. }
    destruct (same_edge x s) eqn:Hsame.
    + right. exists i, x. split; [done|]. split; [done|].
      by apply (swap_pop_Permutation l i x y).
    + destruct (IH (S i)) as [[-> Hno]|Hyes]; [lia| |by right].
      left. split; [done|]. intros j x' Hj Hx'.
      destruct (decide (j = i)) as [->|]; [congruence|].
      apply (Hno j); [lia|done].
Qed.

Lemma same_edge_refl e : same_edge e e = true.
Proof. apply Nat.eqb_refl. Qed.

(** A valid self-loop is among the in-edges. *)
Lemma self_loop_in_inEdges g id s :
  getEdge_value g id id = Some s → s ∈ inEdges_of g id.
Proof.
  intros Hs. pose proof Hs as (Hv & _)%getEdge_value_Some.
  apply valid_edge_slots in Hv as [_ Hi].
  unfold inEdges_of. unfold in_slot in Hi.
  destruct (_nodes g !! id) as [n|]; [|by apply is_Some_None in Hi].
  apply list_elem_of_omap. exists id. split; [|done]. by apply obj_get_keys.
Qed.

(** What [getAllEdgesOf] returns when the node has a valid self-loop:
    the in-edges but one that is [===] the self-loop, then the out-edges. *)
Lemma getAllEdgesOf_self g id s :
  getEdge_value g id id = Some s →
  ∃ r g' j x, getAllEdgesOf id g = Ok (r ++ outEdges_of g id, g')
    ∧ inEdges_of g id !! j = Some x ∧ same_edge x s = true
    ∧ r ≡ₚ delete j (inEdges_of g id).
Proof.
  intros Hs. pose proof (self_loop_in_inEdges g id s Hs) as Hin.
  rewrite getAllEdgesOf_eq, Hs.
  destruct (inEdges_of g id) as [|a l] eqn:Hl; [by apply elem_of_nil in Hin|].
  rewrite <- Hl in *. replace (Nat.eqb (length (inEdges_of g id)) 0) with false
    by (by rewrite Hl).
  destruct (drop_self_spec s (inEdges_of g id) (length (inEdges_of g id)) 0)
    as [[_ Hno]|(j & x & Hj & Hx & Hp)]; [done| |].
  - apply list_elem_of_lookup in Hin as [j Hj].
    pose proof (Hno j s ltac:(lia) Hj) as Hc.
    by rewrite same_edge_refl in Hc.
  - by eexists _, _, j, x.
Qed.

(** X7: [getAllEdgesOf(id)] returns the in-edges followed by the out-edges
    when the node has no valid self-loop; when it has one, it returns one
    edge less than the two enumerations together, and nothing beside their
    edges. *)
Theorem getAllEdgesOf_count (id : string) (g : Graph) :
  ∃ ri si ro so r s,
    getInEdgesOf id g = Ok (ri, si)
    ∧ getOutEdgesOf id g = Ok (ro, so)
    ∧ getAllEdgesOf id g = Ok (r, s)
    ∧ if valid_edge g id id
      then (length r + 1 = length ri + length ro)%nat
           ∧ ∀ e, e ∈ r → e ∈ ri ∨ e ∈ ro
      else r = ri ++ ro.
Proof.
  rewrite getInEdgesOf_eq, getOutEdgesOf_eq.
  destruct (valid_edge g id id) eqn:Hv.
  - assert (∃ s, getEdge_value g id id = Some s) as [s Hs].
    { pose proof Hv as [[s Hs] _]%valid_edge_slots. exists s.
      by apply getEdge_value_Some. }
    destruct (getAllEdgesOf_self g id s Hs) as (r & g' & j & x & -> & Hj & _ & Hp).
    eexists _, _, _, _, _, _. repeat (split; [done|]). split.
    + rewrite length_app, Hp, length_delete by eauto.
      apply lookup_lt_Some in Hj. lia.
    + intros e [He|He]%elem_of_app; [left|by right].
      rewrite Hp in He. by apply list_elem_of_delete_inv in He.
  - rewrite getAllEdgesOf_eq. rewrite getEdge_value_invalid by congruence.
    destruct (inEdges_of g id) eqn:Hl; simpl; by eexists _, _, _, _, _, _.
Qed.

(** ** Reading does not change what is read *)




Section scrub.
Context (g : Graph) (k : string) (P : string → Prop) {Hdec : ∀ a, Decision (P a)}.








End scrub.










(** ** Invariants of the reachable states *)

Lemma obj_keys_sublist (o' o : Obj) :
  o' `sublist_of` o → obj_keys o' `sublist_of` obj_keys o.
Proof.
  unfold obj_keys. induction 1; simpl; [constructor|by constructor|by constructor].
Qed.

Lemma obj_get_sublist (o' o : Obj) k e :
  NoDup (obj_keys o) → o' `sublist_of` o →
  obj_get k o' = Some e → obj_get k o = Some e.
Proof.
  intros Hnd Hsub. induction Hsub as [|[k1 e1] l1 l2 Hsub IH|[k1 e1] l1 l2 Hsub IH];
    simpl in *; [done| |].
  - apply NoDup_cons in Hnd as [_ Hnd].
    destruct (String.eqb k k1); [done|]. by apply IH.
  - apply NoDup_cons in Hnd as [Hk1 Hnd]. intros He.
    specialize (IH Hnd He). destruct (String.eqb k k1) eqn:E; [|done].
    apply String.eqb_eq in E as <-. destruct Hk1.
    apply obj_get_keys. by rewrite IH.
Qed.

Lemma obj_delete_sublist k (o : Obj) : obj_delete k o `sublist_of` o.
Proof. rewrite obj_delete_filter. apply sublist_filter. Qed.

Lemma obj_keys_set a k e (o : Obj) :
  a ∈ obj_keys (obj_set k e o) ↔ a = k ∨ a ∈ obj_keys o.
Proof.
  rewrite !obj_get_keys. destruct (decide (a = k)) as [->|Hne].
  - rewrite obj_get_set_eq. split; [by left|by eexists].
  - rewrite obj_get_set_ne by done. split; [by right|by intros [?|?]].
Qed.

Lemma obj_set_NoDup k e (o : Obj) :
  NoDup (obj_keys o) → NoDup (obj_keys (obj_set k e o)).
Proof.
  induction o as [|[k1 e1] o IH]; simpl.
  - intros _. apply NoDup_singleton.
  - intros [Hk1 Hnd]%NoDup_cons. destruct (String.eqb k k1) eqn:E; simpl.
    + apply String.eqb_eq in E as ->. by apply NoDup_cons.
    + apply String.eqb_neq in E. apply NoDup_cons. split; [|by apply IH].
      intros [?|?]%obj_keys_set; [congruence|done].
Qed.

Lemma size_alter (h : Node → Node) k (m : gmap string Node) :
  size (alter h k m) = size m.
Proof. by rewrite <- !size_dom, dom_alter_L. Qed.

(** *** Thinning *)

Lemma thins_refl g : thins g g.
Proof. split; [done|]. intros k n Hn. right. by exists n. Qed.

Lemma thins_trans g1 g2 g3 : thins g1 g2 → thins g2 g3 → thins g1 g3.
Proof.
  intros [Hf1 H1] [Hf2 H2]. split; [congruence|].
  intros k n3 Hn3.
  destruct (H2 k n3 Hn3) as [?|(n2 & Hn2 & Hid & Ho & Hi)]; [by left|].
  destruct (H1 k n2 Hn2) as [(Hk & Ho2 & Hi2)|(n1 & Hn1 & Hid1 & Ho1 & Hi1)].
  - left. rewrite Ho2 in Ho. rewrite Hi2 in Hi.
    apply sublist_nil_r in Ho. apply sublist_nil_r in Hi. split; [congruence|done].
  - right. exists n1. split; [done|]. split; [congruence|].
    split; by etrans.
Qed.

Lemma thins_alter h k g :
  (∀ n, _id (h n) = _id n
        ∧ _outEdges (h n) `sublist_of` _outEdges n
        ∧ _inEdges (h n) `sublist_of` _inEdges n) →
  thins g (with_nodes (alter h k) g).
Proof.
  intros Hh. split; [done|]. intros j n'. unfold with_nodes; simpl.
  rewrite lookup_alter. case_decide; subst.
  - destruct (_nodes g !! j) as [n|] eqn:Hn; simpl; [|done]. intros [= <-].
    right. exists n. split; [done|]. apply Hh.
  - intros Hn. right. by exists n'.
Qed.

Lemma thins_delete_in_slot f t g : thins g (delete_in_slot f t g).
Proof.
  apply thins_alter. intros n. split; [done|]. split; [done|].
  apply obj_delete_sublist.
Qed.

Lemma thins_delete_out_slot f t g : thins g (delete_out_slot f t g).
Proof.
  apply thins_alter. intros n. split; [done|]. split; [|done].
  apply obj_delete_sublist.
Qed.

Lemma thins_getEdge_state g f t : thins g (getEdge_state g f t).
Proof.
  destruct (getEdge_state_cases g f t) as [->|[(_ & _ & ->)|(_ & _ & ->)]].
  - apply thins_refl.
  - apply thins_delete_in_slot.
  - apply thins_delete_out_slot.
Qed.

Lemma thins_prune_in g id : thins g (prune_in g id).
Proof.
  apply thins_alter. intros n. split; [done|]. split; [done|].
  apply sublist_filter.
Qed.

Lemma thins_prune_out g id : thins g (prune_out g id).
Proof.
  apply thins_alter. intros n. split; [done|]. split; [|done].
  apply sublist_filter.
Qed.

Lemma thins_removeEdge_state g f t : thins g (removeEdge_state g f t).
Proof.
  unfold removeEdge_state.
  destruct (thins_trans g _ _ (thins_delete_out_slot f t g)
              (thins_delete_in_slot f t (delete_out_slot f t g))) as [Hf Hn].
  by split.
Qed.

Lemma thins_removeNode_state g id n : thins g (removeNode_state g id n).
Proof.
  split; [done|]. intros k n'. unfold removeNode_state; simpl.
  intros [_ Hn]%lookup_delete_Some. right. by exists n'.
Qed.

Lemma thins_addNode_state g id : thins g (addNode_state g id).
Proof.
  split; [done|]. intros k n'. unfold addNode_state; simpl.
  intros [[<- <-]|[_ Hn]]%lookup_insert_Some; [by left|].
  right. by exists n'.
Qed.

Lemma thins_out_slot g g' f t e :
  wf g → thins g g' → out_slot g' f t = Some e → out_slot g f t = Some e.
Proof.
  intros Hwf [_ Hth]. unfold out_slot.
  destruct (_nodes g' !! f) as [n'|] eqn:Hn'; [|done].
  destruct (Hth f n' Hn') as [(_ & -> & _)|(n & Hk & _ & Ho & _)]; [done|].
  rewrite Hk. apply obj_get_sublist; [|done]. by eapply wf_keys.
Qed.

Lemma thins_in_slot g g' f t e :
  wf g → thins g g' → in_slot g' f t = Some e → in_slot g f t = Some e.
Proof.
  intros Hwf [_ Hth]. unfold in_slot.
  destruct (_nodes g' !! t) as [n'|] eqn:Hn'; [|done].
  destruct (Hth t n' Hn') as [(_ & _ & ->)|(n & Hk & _ & _ & Hi)]; [done|].
  rewrite Hk. apply obj_get_sublist; [|done]. by eapply wf_keys.
Qed.

(** A state that holds no more than a well-formed one, and counts its nodes
    right, is well-formed. *)
Lemma wf_thins g g' :
  wf g → thins g g' → nodeSize g' = Z.of_nat (size (_nodes g')) → wf g'.
Proof.
  intros Hwf Hth Hsize. pose proof Hth as [Hfr Hn]. split.
  - done.
  - intros k n' Hn'.
    destruct (Hn k n' Hn') as [(? & _)|(n & Hk & -> & _)]; [done|].
    by eapply wf_id.
  - intros k n' Hn'.
    destruct (Hn k n' Hn') as [(_ & -> & ->)|(n & Hk & _ & Ho & Hi)].
    + split; apply NoDup_nil_2.
    + destruct (wf_keys g Hwf k n Hk) as [Hko Hki].
      split.
      * eapply sublist_NoDup; [exact Hko|by apply obj_keys_sublist].
      * eapply sublist_NoDup; [exact Hki|by apply obj_keys_sublist].
  - intros f t e He. rewrite Hfr. eapply wf_out; [done|].
    by eapply thins_out_slot.
  - intros f t e He. rewrite Hfr. eapply wf_in; [done|].
    by eapply thins_in_slot.
  - intros f t e e' Ho Hi. eapply (wf_shared g Hwf f t).
    + by eapply thins_out_slot.
    + by eapply thins_in_slot.
  - intros f t f' t' e e' H1 H2. eapply (wf_refs g Hwf f t f' t').
    + by eapply thins_out_slot.
    + by eapply thins_out_slot.
Qed.

(** *** Each method keeps the invariants *)

Lemma wf_newGraph : wf newGraph.
Proof. by split. Qed.

Lemma size_with_nodes_alter h k g :
  size (_nodes (with_nodes (alter h k) g)) = size (_nodes g).
Proof. apply size_alter. Qed.

Lemma wf_getEdge_state g f t : wf g → wf (getEdge_state g f t).
Proof.
  intros Hwf. apply (wf_thins g); [done|apply thins_getEdge_state|].
  destruct (getEdge_state_sizes g f t) as (-> & _ & _).
  rewrite <- !size_dom, getEdge_state_dom, size_dom. apply Hwf.
Qed.

Lemma wf_prune_in g id : wf g → wf (prune_in g id).
Proof.
  intros Hwf. apply (wf_thins g); [done|apply thins_prune_in|].
  unfold prune_in. rewrite size_with_nodes_alter. apply Hwf.
Qed.

Lemma wf_prune_out g id : wf g → wf (prune_out g id).
Proof.
  intros Hwf. apply (wf_thins g); [done|apply thins_prune_out|].
  unfold prune_out. rewrite size_with_nodes_alter. apply Hwf.
Qed.

Lemma wf_removeEdge_state g f t : wf g → wf (removeEdge_state g f t).
Proof.
  intros Hwf. apply (wf_thins g); [done|apply thins_removeEdge_state|].
  unfold removeEdge_state, delete_in_slot, delete_out_slot; simpl.
  rewrite !size_alter. apply Hwf.
Qed.

Lemma wf_removeNode_state g id n :
  wf g → _nodes g !! id = Some n → wf (removeNode_state g id n).
Proof.
  intros Hwf Hn. apply (wf_thins g); [done|apply thins_removeNode_state|].
  unfold removeNode_state; simpl. rewrite (wf_nodeSize g Hwf).
  rewrite <- (insert_delete_id (_nodes g) id n Hn) at 1.
  rewrite map_size_insert_None by apply lookup_delete_eq. lia.
Qed.

Lemma wf_addNode_state g id :
  wf g → _nodes g !! id = None → wf (addNode_state g id).
Proof.
  intros Hwf Hn. apply (wf_thins g); [done|apply thins_addNode_state|].
  unfold addNode_state; simpl. rewrite (wf_nodeSize g Hwf).
  rewrite map_size_insert_None by done. lia.
Qed.

(** *** [addEdge] *)

Lemma tidy_id : tidy id.
Proof. by intros n. Qed.

Lemma tidy_compose h1 h2 : tidy h1 → tidy h2 → tidy (h1 ∘ h2).
Proof.
  intros H1 H2 n. destruct (H1 (h2 n)) as (Hi1 & Ho1 & Hn1).
  destruct (H2 n) as (Hi2 & Ho2 & Hn2). simpl.
  split; [congruence|]. split; auto.
Qed.

Lemma tidy_set_out k e : tidy (with_outEdges (obj_set k e)).
Proof. intros n. split; [done|]. split; [apply obj_set_NoDup|done]. Qed.

Lemma tidy_set_in k e : tidy (with_inEdges (obj_set k e)).
Proof. intros n. split; [done|]. split; [done|apply obj_set_NoDup]. Qed.

Lemma tidy_edgeCount c : tidy (with_edgeCount c).
Proof. by intros n. Qed.

Lemma lookup_alter_tidy (m m' : gmap string Node) h0 k :
  tidy h0 →
  (∀ j, ∃ h, tidy h ∧ m' !! j = h <$> m !! j) →
  ∀ j, ∃ h, tidy h ∧ alter h0 k m' !! j = h <$> m !! j.
Proof.
  intros H0 Hm j. destruct (Hm j) as (h & Hh & Hj).
  rewrite lookup_alter. case_decide; subst.
  - exists (h0 ∘ h). split; [by apply tidy_compose|].
    rewrite Hj. by destruct (m !! j).
  - by exists h.
Qed.

Lemma addEdge_state_lookup g f t e j :
  ∃ h, tidy h
    ∧ _nodes (addEdge_state g f t e) !! j = h <$> _nodes (getEdge_state g f t) !! j.
Proof.
  unfold addEdge_state.
  assert (∀ j, ∃ h, tidy h
    ∧ alter (with_edgeCount (λ c, c + 1)) f
        (alter (with_inEdges (obj_set f e)) t
          (alter (with_outEdges (obj_set t e)) f (_nodes (getEdge_state g f t)))) !! j
      = h <$> _nodes (getEdge_state g f t) !! j) as H3.
  { apply lookup_alter_tidy; [apply tidy_edgeCount|].
    apply lookup_alter_tidy; [apply tidy_set_in|].
    apply lookup_alter_tidy; [apply tidy_set_out|].
    intros i. exists id. split; [apply tidy_id|].
    by destruct (_nodes (getEdge_state g f t) !! i). }
  destruct (negb (String.eqb f t)); simpl; [|apply H3].
  by apply lookup_alter_tidy; [apply tidy_edgeCount|].
Qed.

Lemma addEdge_state_size g f t e :
  nodeSize (addEdge_state g f t e) = nodeSize g
  ∧ size (_nodes (addEdge_state g f t e)) = size (_nodes g).
Proof.
  unfold addEdge_state.
  destruct (getEdge_state_sizes g f t) as (Hn & _ & _).
  assert (size (_nodes (getEdge_state g f t)) = size (_nodes g)) as Hs
    by (by rewrite <- !size_dom, getEdge_state_dom).
  destruct (negb (String.eqb f t)); simpl; by rewrite !size_alter.
Qed.

Lemma wf_addEdge_state g f t w :
  wf g → live g f = true → live g t = true →
  wf (addEdge_state g f t (addEdge_edge g f t w)).
Proof.
  intros Hwf Hf Ht. set (e := addEdge_edge g f t w).
  pose proof (wf_getEdge_state g f t Hwf) as Hwf0.
  pose proof (addEdge_state_out_slot g f t e Hf) as Ho.
  pose proof (addEdge_state_in_slot g f t e Ht) as Hi.
  pose proof (addEdge_state_fresh g f t e) as Hfr.
  assert (∀ a b x, out_slot (addEdge_state g f t e) a b = Some x →
            (a = f ∧ b = t ∧ x = e)
            ∨ (¬ (a = f ∧ b = t) ∧ out_slot g a b = Some x)) as Hout.
  { intros a b x Hx. destruct (decide (a = f ∧ b = t)) as [[-> ->]|Hne].
    - left. rewrite Ho in Hx. by injection Hx.
    - right. by destruct (addEdge_state_slots_other g f t e a b Hne) as [<- _]. }
  assert (∀ a b x, in_slot (addEdge_state g f t e) a b = Some x →
            (a = f ∧ b = t ∧ x = e)
            ∨ (¬ (a = f ∧ b = t) ∧ in_slot g a b = Some x)) as Hin.
  { intros a b x Hx. destruct (decide (a = f ∧ b = t)) as [[-> ->]|Hne].
    - left. rewrite Hi in Hx. by injection Hx.
    - right. by destruct (addEdge_state_slots_other g f t e a b Hne) as [_ <-]. }
  split.
  - destruct (addEdge_state_size g f t e) as [-> ->]. apply Hwf.
  - intros k n Hn. destruct (addEdge_state_lookup g f t e k) as (h & Hh & Hk).
    rewrite Hn in Hk. destruct (_nodes (getEdge_state g f t) !! k) as [n0|] eqn:Hn0;
      [|done].
    injection Hk as ->. destruct (Hh n0) as (-> & _). by eapply wf_id.
  - intros k n Hn. destruct (addEdge_state_lookup g f t e k) as (h & Hh & Hk).
    rewrite Hn in Hk. destruct (_nodes (getEdge_state g f t) !! k) as [n0|] eqn:Hn0;
      [|done].
    injection Hk as ->. destruct (Hh n0) as (_ & Hko & Hki).
    destruct (wf_keys _ Hwf0 k n0 Hn0). auto.
  - intros a b x [(-> & -> & ->)|[_ Hx]]%Hout; rewrite Hfr.
    + split; [done|]. split; [done|]. simpl. lia.
    + destruct (wf_out g Hwf a b x Hx) as (? & ? & ?). repeat split; try done. lia.
  - intros a b x [(-> & -> & ->)|[_ Hx]]%Hin; rewrite Hfr.
    + split; [done|]. split; [done|]. simpl. lia.
    + destruct (wf_in g Hwf a b x Hx) as (? & ? & ?). repeat split; try done. lia.
  - intros a b x x' Hx Hx'. apply Hout in Hx. apply Hin in Hx'.
    destruct Hx as [(Ha & Hb & ->)|[Hne Hx]], Hx' as [(Ha' & Hb' & ->)|[Hne' Hx']].
    + done.
    + by destruct Hne'.
    + by destruct Hne.
    + exact (wf_shared g Hwf a b x x' Hx Hx').
  - intros a b a' b' x x' Hx Hx' Href. apply Hout in Hx. apply Hout in Hx'.
    destruct Hx as [(Ha & Hb & ->)|[Hne Hx]], Hx' as [(Ha' & Hb' & ->)|[Hne' Hx']].
    + done.
    + pose proof (wf_out g Hwf a' b' x' Hx') as (_ & _ & Hlt).
      simpl in Href. lia.
    + pose proof (wf_out g Hwf a b x Hx) as (_ & _ & Hlt).
      simpl in Href. lia.
    + exact (wf_refs g Hwf a b a' b' x x' Hx Hx' Href).
Qed.

(** *** Sequences of calls *)

Lemma wf_exec c g g' : wf g → exec c g = Ok (tt, g') → wf g'.
Proof.
  intros Hwf. destruct c as [id|id|id|f t w|f t|f t|id|id|id]; unfold exec, bind, ret.
  - rewrite addNode_eq. destruct (_nodes g !! id) eqn:Hn; intros [= <-]; [done|].
    by apply wf_addNode_state.
  - unfold getNode. by intros [= <-].
  - rewrite removeNode_eq. destruct (_nodes g !! id) eqn:Hn; intros [= <-]; [|done].
    by apply wf_removeNode_state.
  - rewrite addEdge_eq. destruct (valid_edge g f t); [by intros [= <-]|].
    destruct (live g f) eqn:Hf, (live g t) eqn:Ht; simpl; intros [= <-];
      try by apply wf_getEdge_state.
    by apply wf_addEdge_state.
  - rewrite getEdge_eq. intros [= <-]. by apply wf_getEdge_state.
  - rewrite removeEdge_eq. destruct (valid_edge g f t); intros [= <-].
    + by apply wf_removeEdge_state.
    + by apply wf_getEdge_state.
  - rewrite getInEdgesOf_eq. intros [= <-]. by apply wf_prune_in.
  - rewrite getOutEdgesOf_eq. intros [= <-]. by apply wf_prune_out.
  - rewrite getAllEdgesOf_eq.
    destruct (Nat.eqb (length (inEdges_of g id)) 0); intros [= <-].
    + by apply wf_prune_out, wf_prune_in.
    + by apply wf_getEdge_state, wf_prune_out, wf_prune_in.
Qed.

Lemma wf_run cs : ∀ g g', wf g → run cs g = Ok (tt, g') → wf g'.
Proof.
  induction cs as [|c cs IH]; intros g g' Hwf; simpl.
  - unfold ret. by intros [= <-].
  - unfold bind. destruct (exec c g) as [[[] g1]|] eqn:Hc; [|done].
    intros Hr. eapply IH; [|done]. by eapply wf_exec.
Qed.

Lemma reachable_wf g : reachable g → wf g.
Proof. intros [cs Hcs]. eapply wf_run; [apply wf_newGraph|done]. Qed.

(** ** Properties of the reachable states *)

(** X10: in every reachable state, an edge that [getEdge(fromId, toId)]
    returns runs from [fromId] to [toId], it is the one object stored both in
    [fromNode._outEdges[toId]] and in [toNode._inEdges[fromId]], and the call
    changes nothing. *)
Theorem getEdge_returns_shared_edge (fromId toId : string) (g g' : Graph) (e : Edge) :
  reachable g →
  getEdge fromId toId g = Ok (Some e, g') →
  _fromId e = fromId ∧ _toId e = toId
  ∧ out_slot g fromId toId = Some e
  ∧ in_slot g fromId toId = Some e
  ∧ g' = g.
Proof.
  intros Hwf%reachable_wf. rewrite getEdge_eq. intros [= He <-].
  apply getEdge_value_Some in He as [Hv Ho].
  pose proof Hv as [_ [e' Hi]]%valid_edge_slots.
  pose proof (wf_shared g Hwf _ _ _ _ Ho Hi) as <-.
  destruct (wf_out g Hwf _ _ _ Ho) as (? & ? & _).
  repeat split; try done. by apply getEdge_state_valid.
Qed.

Lemma omap_NoDup (F : string → option Edge) (key : Edge → string)
    (keys : list string) :
  NoDup keys → (∀ k e, F k = Some e → key e = k) → NoDup (omap F keys).
Proof.
  intros Hnd HF. induction Hnd as [|k keys Hk Hnd IH]; [apply NoDup_nil_2|].
  simpl. destruct (F k) as [e|] eqn:He; [|done].
  apply NoDup_cons. split; [|done].
  intros (k' & Hk' & He')%list_elem_of_omap.
  apply HF in He, He'. congruence.
Qed.

Lemma inEdges_of_NoDup g id : wf g → NoDup (inEdges_of g id).
Proof.
  intros Hwf. unfold inEdges_of.
  destruct (_nodes g !! id) as [n|] eqn:Hn; [|apply NoDup_nil_2].
  apply (omap_NoDup _ _fromId); [by eapply wf_keys|].
  intros k e [_ Ho]%getEdge_value_Some. by destruct (wf_out g Hwf _ _ _ Ho).
Qed.

Lemma outEdges_of_NoDup g id : wf g → NoDup (outEdges_of g id).
Proof.
  intros Hwf. unfold outEdges_of.
  destruct (_nodes g !! id) as [n|] eqn:Hn; [|apply NoDup_nil_2].
  apply (omap_NoDup _ _toId); [by eapply wf_keys|].
  intros k e [_ Ho]%getEdge_value_Some. by destruct (wf_out g Hwf _ _ _ Ho) as (_ & ? & _).
Qed.

(** X11: in every reachable state, [getOutEdgesOf(id)] returns edges that
    leave [id], each once, and [getInEdgesOf(id)] edges that enter [id],
    each once. *)
Theorem enumerations_without_duplicates (id : string) (g : Graph) :
  reachable g →
  (∃ r s, getOutEdgesOf id g = Ok (r, s) ∧ NoDup r ∧ ∀ e, e ∈ r → _fromId e = id)
  ∧ (∃ r s, getInEdgesOf id g = Ok (r, s) ∧ NoDup r ∧ ∀ e, e ∈ r → _toId e = id).
Proof.
  intros Hwf%reachable_wf. split.
  - rewrite getOutEdgesOf_eq. eexists _, _. split; [done|].
    split; [by apply outEdges_of_NoDup|].
    intros e (k & _ & Ho)%outEdges_of_valid. by destruct (wf_out g Hwf _ _ _ Ho).
  - rewrite getInEdgesOf_eq. eexists _, _. split; [done|].
    split; [by apply inEdges_of_NoDup|].
    intros e (k & _ & Ho)%inEdges_of_valid.
    by destruct (wf_out g Hwf _ _ _ Ho) as (_ & ? & _).
Qed.

Lemma self_loop_in_outEdges g id s :
  getEdge_value g id id = Some s → s ∈ outEdges_of g id.
Proof.
  intros Hs. pose proof Hs as (_ & Ho)%getEdge_value_Some.
  unfold outEdges_of. unfold out_slot in Ho.
  destruct (_nodes g !! id) as [n|]; [|done].
  apply list_elem_of_omap. exists id. split; [|done].
  apply obj_get_keys. by rewrite Ho.
Qed.

(** An edge that is both an in-edge and an out-edge of [id] is its
    self-loop. *)
Lemma in_and_out_is_self g id e :
  wf g → e ∈ inEdges_of g id → e ∈ outEdges_of g id →
  getEdge_value g id id = Some e.
Proof.
  intros Hwf (k & Hv & Ho)%inEdges_of_valid (k' & Hv' & Ho')%outEdges_of_valid.
  destruct (wf_out g Hwf _ _ _ Ho) as (Hf & _ & _).
  destruct (wf_out g Hwf _ _ _ Ho') as (Hf' & _ & _).
  assert (k = id) as -> by congruence. by apply getEdge_value_Some.
Qed.

(** X12: in every reachable state, [getAllEdgesOf(id)] returns each edge
    that touches [id] exactly once: the array has no duplicate, and it holds
    an edge just when [getEdge] finds that edge to [id] or from [id]. *)
Theorem getAllEdgesOf_once_each (id : string) (g g' : Graph) (r : list Edge) :
  reachable g →
  getAllEdgesOf id g = Ok (r, g') →
  NoDup r
  ∧ ∀ e, e ∈ r ↔ (∃ k s, getEdge k id g = Ok (Some e, s))
               ∨ (∃ k s, getEdge id k g = Ok (Some e, s)).
Proof.
  intros Hwf%reachable_wf Hr.
  pose proof (inEdges_of_NoDup g id Hwf) as Hndi.
  pose proof (outEdges_of_NoDup g id Hwf) as Hndo.
  assert (NoDup r ∧ ∀ e, e ∈ r ↔ e ∈ inEdges_of g id ∨ e ∈ outEdges_of g id)
    as [Hnd Hmem].
  { destruct (getEdge_value g id id) as [s|] eqn:Hs.
    - destruct (getAllEdgesOf_self g id s Hs) as (r0 & g0 & j & x & Hr0 & Hj & Hx & Hp).
      rewrite Hr0 in Hr. injection Hr as <- <-.
      pose proof (delete_Permutation _ _ _ Hj) as Hperm.
      assert (x ∈ inEdges_of g id) as Hxin by (by eapply list_elem_of_lookup_2).
      assert (x = s) as ->.
      { apply inEdges_of_valid in Hxin as (k & _ & Ho).
        apply getEdge_value_Some in Hs as [_ Ho'].
        apply (wf_refs g Hwf _ _ _ _ _ _ Ho Ho'). by apply Nat.eqb_eq. }
      rewrite Hperm in Hndi. apply NoDup_cons in Hndi as [Hsn Hndd].
      rewrite <- Hp in Hsn, Hndd. split.
      + apply NoDup_app. split; [done|]. split; [|done].
        intros e He Heo. assert (e ∈ inEdges_of g id) as Hei
          by (rewrite Hperm, <- Hp; by right).
        pose proof (in_and_out_is_self g id e Hwf Hei Heo) as Hes.
        assert (e = s) as -> by congruence. done.
      + intros e. rewrite elem_of_app, Hperm, <- Hp, elem_of_cons.
        split; [tauto|]. intros [[->|?]|?]; auto.
        right. by apply self_loop_in_outEdges.
    - rewrite getAllEdgesOf_eq, Hs in Hr.
      destruct (Nat.eqb (length (inEdges_of g id)) 0) eqn:Hlen; injection Hr as <- <-.
      + apply Nat.eqb_eq, nil_length_inv in Hlen. split; [done|].
        intros e. rewrite Hlen, elem_of_nil. tauto.
      + split.
        * apply NoDup_app. split; [done|]. split; [|done].
          intros e Hei Heo. pose proof (in_and_out_is_self g id e Hwf Hei Heo).
          congruence.
        * intros e. apply elem_of_app. }
  split; [done|]. intros e. rewrite Hmem, inEdges_of_iff, outEdges_of_iff.
  split.
  - intros [[k Hk]|[k Hk]]; [left|right]; exists k; rewrite getEdge_eq, Hk; by eexists.
  - intros [(k & s & Hk)|(k & s & Hk)]; rewrite getEdge_eq in Hk;
      injection Hk as Hk _; [left|right]; by exists k.
Qed.

(** ** Traversals *)

Lemma foldl_visit {X Y A} (op : Y → A → A) (p : X → Y) (l : list X) : ∀ a,
  foldl (λ acc x, op (p x) acc) a l = foldl (λ acc y, op y acc) a (p <$> l).
Proof. induction l as [|x l IH]; intros a; simpl; [done|]. apply IH. Qed.

Lemma foldl_record {X} (l : list X) : ∀ a,
  foldl (λ acc x, record x acc) a l = a ++ l.
Proof.
  induction l as [|x l IH]; intros a; simpl; [by rewrite app_nil_r|].
  rewrite IH. unfold record. by rewrite <- app_assoc.
Qed.

Lemma forEachNode_eq {A} (op : Node → A → A) (a : A) g :
  forEachNode op a g
  = Ok (foldl (λ acc n, op n acc) a ((map_to_list (_nodes g)).*2), g).
Proof. unfold forEachNode. by rewrite (foldl_visit op snd). Qed.

Lemma foldl_out_entries {A} (op : Edge → A → A) (n : Node) (a : A) :
  foldl (λ acc toId,
           match obj_get toId (_outEdges n) with
           | Some edgeObject => op edgeObject acc
           | None => acc
           end) a (obj_keys (_outEdges n))
  = foldl (λ acc e, op e acc) a (out_entries n).
Proof.
  unfold out_entries. generalize (obj_keys (_outEdges n)). intros keys.
  revert a. induction keys as [|k keys IH]; intros a; simpl; [done|].
  rewrite IH. by destruct (obj_get k (_outEdges n)).
Qed.

Lemma forEachEdge_eq {A} (op : Edge → A → A) (a : A) g :
  forEachEdge op a g = Ok (foldl (λ acc e, op e acc) a (stored_edges g), g).
Proof.
  unfold forEachEdge, stored_edges. f_equal. f_equal.
  generalize (map_to_list (_nodes g)). intros l. revert a.
  induction l as [|[k n] l IH]; intros a; simpl; [done|].
  rewrite foldl_app, IH. f_equal. apply foldl_out_entries.
Qed.

Lemma out_entries_iff n e :
  e ∈ out_entries n ↔ ∃ t, obj_get t (_outEdges n) = Some e.
Proof.
  unfold out_entries. rewrite list_elem_of_omap. split.
  - intros (t & _ & Ht). by exists t.
  - intros (t & Ht). exists t. split; [|done]. apply obj_get_keys. by rewrite Ht.
Qed.

Lemma stored_edges_iff g e :
  e ∈ stored_edges g ↔ ∃ f t, out_slot g f t = Some e.
Proof.
  unfold stored_edges. rewrite list_elem_of_bind. split.
  - intros ([k n] & (t & Ht)%out_entries_iff & Hkn%elem_of_map_to_list).
    exists k, t. unfold out_slot. by rewrite Hkn.
  - intros (f & t & Hs). unfold out_slot in Hs.
    destruct (_nodes g !! f) as [n|] eqn:Hn; [|done].
    exists (f, n). split; [|by apply elem_of_map_to_list].
    apply out_entries_iff. by exists t.
Qed.

(** On own keys: in every reachable state, [forEachNode] calls its
    callback on each node of the graph exactly once, [nodeSize] times in
    all. *)
Lemma forEachNode_own_keys (g : Graph) :
  reachable g →
  ∃ seen, forEachNode record [] g = Ok (seen, g)
    ∧ NoDup seen
    ∧ (∀ n, n ∈ seen ↔ ∃ id, _nodes g !! id = Some n)
    ∧ Z.of_nat (length seen) = nodeSize g.
Proof.
  intros Hwf%reachable_wf. exists ((map_to_list (_nodes g)).*2).
  split; [by rewrite forEachNode_eq, foldl_record|].
  split; [|split].
  - apply (NoDup_fmap_1 _id). rewrite <- list_fmap_compose.
    rewrite (list_fmap_ext (_id ∘ snd) fst).
    + apply NoDup_fst_map_to_list.
    + intros i [k n] Hi; simpl.
      apply (wf_id g Hwf), elem_of_map_to_list. by eapply list_elem_of_lookup_2.
  - intros n. rewrite list_elem_of_fmap. split.
    + intros ([k n'] & -> & Hkn%elem_of_map_to_list). by exists k.
    + intros (k & Hk). exists (k, n). split; [done|]. by apply elem_of_map_to_list.
  - rewrite length_fmap, length_map_to_list. symmetry. apply Hwf.
Qed.

(** X14: [forEachEdge] calls its callback on the edges stored in the
    out-maps of the nodes, and on those only; every edge that [getEdge]
    finds is among them.  It leaves the graph as it was, and whatever the
    callback computes, it computes it from that sequence of edges. *)
Theorem forEachEdge_visits_stored_edges (g : Graph) :
  ∃ seen, forEachEdge record [] g = Ok (seen, g)
    ∧ (∀ e, e ∈ seen ↔ ∃ f t, out_slot g f t = Some e)
    ∧ (∀ f t e s, getEdge f t g = Ok (Some e, s) → e ∈ seen)
    ∧ ∀ A (op : Edge → A → A) (a : A),
        forEachEdge op a g = Ok (foldl (λ acc e, op e acc) a seen, g).
Proof.
  exists (stored_edges g).
  split; [by rewrite forEachEdge_eq, foldl_record|].
  split; [apply stored_edges_iff|]. split.
  - intros f t e s. rewrite getEdge_eq. intros [= [_ He]%getEdge_value_Some _].
    apply stored_edges_iff. by exists f, t.
  - intros A op a. apply forEachEdge_eq.
Qed.

(** X15: [forEachEdge] does not repair: once the head of an edge is
    removed, [getEdge] no longer finds the edge, yet [forEachEdge] still
    calls its callback on it, until a look-up has cleaned the slot. *)
Theorem forEachEdge_visits_stale_edge (fromId toId : string) (g g' : Graph)
    (e : Edge) :
  getEdge fromId toId g = Ok (Some e, g') →
  fromId ≠ toId →
  ∃ n g1 seen g2,
    removeNode toId g = Ok (Some n, g1)
    ∧ forEachEdge record [] g1 = Ok (seen, g1)
    ∧ e ∈ seen
    ∧ getEdge fromId toId g1 = Ok (None, g2)
    ∧ out_slot g2 fromId toId = None.
Proof.
  rewrite getEdge_eq. intros [= [Hv Ho]%getEdge_value_Some _] Hne.
  pose proof Hv as [_ Ht]%valid_edge_live.
  apply live_lookup in Ht as [n Hn]. rewrite removeNode_eq, Hn.
  set (g1 := removeNode_state g toId n).
  assert (out_slot g1 fromId toId = Some e) as Ho1.
  { unfold out_slot, g1, removeNode_state in *; simpl.
    by rewrite lookup_delete_ne by done. }
  assert (live g1 toId = false) as Hl
    by (unfold live, g1, removeNode_state; simpl; by rewrite lookup_delete_eq).
  assert (valid_edge g1 fromId toId = false) as Hv1
    by (apply not_live_invalid; by right).
  eexists n, g1, (stored_edges g1), _.
  split; [done|]. split; [by rewrite forEachEdge_eq, foldl_record|].
  split; [apply stored_edges_iff; by exists fromId, toId|].
  rewrite getEdge_eq. unfold getEdge_value. rewrite Hv1. split; [done|].
  unfold getEdge_state. rewrite Hv1.
  assert (in_slot g1 fromId toId = None) as ->.
  { unfold in_slot, live in *. by destruct (_nodes g1 !! toId). }
  simpl. rewrite Ho1. simpl.
  by rewrite out_slot_delete_out_slot, decide_True.
Qed.

Lemma out_entries_NoDup g k n :
  wf g → _nodes g !! k = Some n → NoDup (out_entries n).
Proof.
  intros Hwf Hn. apply (omap_NoDup _ _toId); [by eapply wf_keys|].
  intros t e He. assert (out_slot g k t = Some e) as Ho
    by (unfold out_slot; by rewrite Hn).
  by destruct (wf_out g Hwf _ _ _ Ho) as (_ & ? & _).
Qed.

(** X16: in every reachable state, [forEachEdge] calls its callback
    exactly once on each edge stored in an out-map. *)
Theorem forEachEdge_visits_each_once (g : Graph) :
  reachable g →
  ∃ seen, forEachEdge record [] g = Ok (seen, g) ∧ NoDup seen.
Proof.
  intros Hwf%reachable_wf. exists (stored_edges g).
  split; [by rewrite forEachEdge_eq, foldl_record|].
  unfold stored_edges. apply NoDup_bind.
  - intros [k1 n1] [k2 n2] e Hk1%elem_of_map_to_list Hk2%elem_of_map_to_list
      (t1 & H1)%out_entries_iff (t2 & H2)%out_entries_iff. simpl in *.
    assert (out_slot g k1 t1 = Some e) as Ho1 by (unfold out_slot; by rewrite Hk1).
    assert (out_slot g k2 t2 = Some e) as Ho2 by (unfold out_slot; by rewrite Hk2).
    destruct (wf_out g Hwf _ _ _ Ho1) as (Hf1 & _).
    destruct (wf_out g Hwf _ _ _ Ho2) as (Hf2 & _).
    assert (k1 = k2) as -> by congruence. congruence.
  - intros [k n] Hkn%elem_of_map_to_list. by eapply out_entries_NoDup.
  - apply NoDup_map_to_list.
Qed.


(** ** The further properties at concrete graphs *)

Lemma reachable_after cs g : run cs newGraph = Ok (tt, g) → reachable g.
Proof. intros H. by exists cs. Qed.

(** [addEdge_removeEdge_roundtrip] at the graph of two nodes. *)
Lemma addEdge_removeEdge_roundtrip_witness :
  ∃ e g1 g2, addEdge "A" "B" None (after [AddNode "A"; AddNode "B"]) = Ok (Some e, g1)
    ∧ removeEdge "A" "B" g1 = Ok (Some e, g2)
    ∧ edgeSize g2 = 0.
Proof.
  destruct (addEdge_removeEdge_roundtrip "A" "B" None
              (after [AddNode "A"; AddNode "B"]) _ _
              ltac:(vm_compute; reflexivity)) as (g2 & Hrem & Hsize & _).
  eexists _, _, g2. split; [vm_compute; reflexivity|]. split; [exact Hrem|exact Hsize].
Defined.

(** [addEdge_edgeCount] for a self-loop: the count of ['A'] goes from 0 to 1. *)
Lemma addEdge_edgeCount_witness :
  ∃ e g1, addEdge "A" "A" None (after [AddNode "A"]) = Ok (Some e, g1)
    ∧ _edgeCount <$> _nodes g1 !! "A" = Some 1.
Proof.
  destruct (addEdge_edgeCount "A" "A" None (after [AddNode "A"]) _ _
              ltac:(vm_compute; reflexivity)) as (Hc & _).
  eexists _, _. split; [vm_compute; reflexivity|].
  rewrite (Hc "A"). vm_compute. reflexivity.
Defined.

(** [getEdge_returns_shared_edge] at the graph [A→B]. *)
Lemma getEdge_returns_shared_edge_witness :
  ∃ e, in_slot (after [AddNode "A"; AddNode "B"; AddEdge "A" "B" None]) "A" "B"
       = Some e
    ∧ _fromId e = "A" ∧ _toId e = "B".
Proof.
  destruct (getEdge_returns_shared_edge "A" "B"
              (after [AddNode "A"; AddNode "B"; AddEdge "A" "B" None]) _ _
              (reachable_after [AddNode "A"; AddNode "B"; AddEdge "A" "B" None] _
                 ltac:(vm_compute; reflexivity))
              ltac:(vm_compute; reflexivity)) as (Hf & Ht & _ & Hi & _).
  eexists. split; [exact Hi|]. split; [exact Hf|exact Ht].
Defined.

(** [enumerations_without_duplicates] at the graph [A→B], [A→C]. *)
Lemma enumerations_without_duplicates_witness :
  ∃ r s, getOutEdgesOf "A" (after [AddNode "A"; AddNode "B"; AddNode "C";
                                   AddEdge "A" "B" None; AddEdge "A" "C" None])
         = Ok (r, s)
    ∧ NoDup r.
Proof.
  destruct (enumerations_without_duplicates "A"
              (after [AddNode "A"; AddNode "B"; AddNode "C";
                      AddEdge "A" "B" None; AddEdge "A" "C" None])
              (reachable_after [AddNode "A"; AddNode "B"; AddNode "C";
                                AddEdge "A" "B" None; AddEdge "A" "C" None] _
                 ltac:(vm_compute; reflexivity)))
    as [(r & s & Hr & Hnd & _) _].
  exists r, s. split; [exact Hr|exact Hnd].
Defined.

(** [getAllEdgesOf_once_each] at the graph [A→A], [A→B], [B→A]. *)
Lemma getAllEdgesOf_once_each_witness :
  ∃ r g', getAllEdgesOf "A" (after [AddNode "A"; AddNode "B"; AddEdge "A" "A" None;
                                    AddEdge "A" "B" None; AddEdge "B" "A" None])
          = Ok (r, g')
    ∧ length r = 3%nat ∧ NoDup r.
Proof.
  eexists _, _. split; [vm_compute; reflexivity|]. split; [reflexivity|].
  apply (getAllEdgesOf_once_each "A"
           (after [AddNode "A"; AddNode "B"; AddEdge "A" "A" None;
                   AddEdge "A" "B" None; AddEdge "B" "A" None]) _ _
           (reachable_after [AddNode "A"; AddNode "B"; AddEdge "A" "A" None;
                             AddEdge "A" "B" None; AddEdge "B" "A" None] _
              ltac:(vm_compute; reflexivity))
           ltac:(vm_compute; reflexivity)).
Defined.

(** [forEachEdge_visits_stale_edge] at the graph [A→B], removing ['B']. *)
Lemma forEachEdge_visits_stale_edge_witness :
  ∃ e n g1 seen g2,
    removeNode "B" (after [AddNode "A"; AddNode "B"; AddEdge "A" "B" None])
    = Ok (Some n, g1)
    ∧ forEachEdge record [] g1 = Ok (seen, g1)
    ∧ e ∈ seen
    ∧ getEdge "A" "B" g1 = Ok (None, g2).
Proof.
  assert ("A" ≠ "B") as Hne by discriminate.
  destruct (forEachEdge_visits_stale_edge "A" "B"
              (after [AddNode "A"; AddNode "B"; AddEdge "A" "B" None]) _ _
              ltac:(vm_compute; reflexivity) Hne)
    as (n & g1 & seen & g2 & Hrem & Hseen & He & Hget & _).
  eexists _, n, g1, seen, g2.
  split; [exact Hrem|]. split; [exact Hseen|]. split; [exact He|exact Hget].
Defined.

(** [forEachEdge_visits_each_once] at the graph [A→B], [B→A]. *)
Lemma forEachEdge_visits_each_once_witness :
  ∃ seen, forEachEdge record []
            (after [AddNode "A"; AddNode "B"; AddEdge "A" "B" None;
                    AddEdge "B" "A" None])
          = Ok (seen, after [AddNode "A"; AddNode "B"; AddEdge "A" "B" None;
                             AddEdge "B" "A" None])
    ∧ NoDup seen.
Proof.
  apply (forEachEdge_visits_each_once
           (after [AddNode "A"; AddNode "B"; AddEdge "A" "B" None;
                   AddEdge "B" "A" None])).
  apply (reachable_after [AddNode "A"; AddNode "B"; AddEdge "A" "B" None;
                          AddEdge "B" "A" None]).
  vm_compute. reflexivity.
Defined.

(** * The methods of [Js] *)

(** ** Names that are not inherited *)

Lemma prop_get_own {A} (own : option A) k :
  inherited k = false → prop_get own k = of_option own.
Proof. intros Hk. unfold prop_get. rewrite Hk. by destruct own. Qed.

Lemma Js_addNode_own id g b :
  inherited id = false →
  Js.addNode id (Js.mkState g b) = Js.lift of_option (Js.mkState g b) (addNode id g).
Proof.
  intros Hid. unfold Js.addNode, Js.bind, Js.nodes_get, Js.modify, Js.ret,
    addNode, bind, nodes_get, modify, ret; simpl.
  rewrite prop_get_own by done. by destruct (_nodes g !! id).
Qed.

Lemma Js_getNode_own id g b :
  inherited id = false →
  Js.getNode id (Js.mkState g b) = Js.lift of_option (Js.mkState g b) (getNode id g).
Proof.
  intros Hid. unfold Js.getNode, Js.bind, Js.nodes_get, Js.node_of, getNode; simpl.
  rewrite prop_get_own by done. destruct (_nodes g !! id) eqn:Hn; simpl; [|done].
  by rewrite Hn.
Qed.

Lemma Js_removeNode_own id g b :
  inherited id = false →
  Js.removeNode id (Js.mkState g b) = Js.lift of_option (Js.mkState g b) (removeNode id g).
Proof.
  intros Hid. unfold Js.removeNode, Js.bind, Js.nodes_get, Js.node_of,
    Js.edgeCount_get, Js.edgeSize_sub, Js.modify, Js.ret,
    removeNode, bind, nodes_get, deref, modify, ret; simpl.
  rewrite prop_get_own by done. destruct (_nodes g !! id) eqn:Hn; simpl; [|done].
  rewrite Hn; simpl. rewrite prop_get_own by done. rewrite Hn; simpl.
  by rewrite Hn.
Qed.

Lemma Js_getEdge_own f t g b :
  inherited f = false → inherited t = false →
  Js.getEdge f t (Js.mkState g b) = Js.lift of_option (Js.mkState g b) (getEdge f t g).
Proof.
  intros Hf Ht. unfold Js.getEdge, Js.bind, Js.nodes_get, Js.edges_get, Js.update,
    Js.ret, getEdge, bind, nodes_get, deref, update, ret; simpl.
  rewrite !prop_get_own by done.
  destruct (_nodes g !! f) as [fn|] eqn:Hfn, (_nodes g !! t) as [tn|] eqn:Htn;
    [destruct (obj_get t (_outEdges fn)) eqn:Ho, (obj_get f (_inEdges tn)) eqn:Hi
    |destruct (obj_get t (_outEdges fn)) eqn:Ho
    |destruct (obj_get f (_inEdges tn)) eqn:Hi
    |];
    repeat (progress (simpl;
      try (rewrite prop_get_own by done);
      repeat match goal with
             | H : inherited _ = _ |- _ => rewrite H
             | H : _nodes _ !! _ = _ |- _ => rewrite H
             | H : obj_get _ _ = _ |- _ => rewrite H
             end));
    done.
Qed.

Lemma Js_truthy_of_option {A} (v : option A) :
  Js.truthy (of_option v) = truthy v.
Proof. by destruct v. Qed.

Lemma Js_nodes_get_own id g b :
  inherited id = false →
  Js.nodes_get id (Js.mkState g b)
  = Js.Returns (if live g id then object id else undefined) (Js.mkState g b).
Proof.
  intros Hid. unfold Js.nodes_get, live; simpl. rewrite prop_get_own by done.
  by destruct (_nodes g !! id).
Qed.

Lemma Js_update_live k h g b :
  live g k = true →
  Js.update (object k) h (Js.mkState g b)
  = Js.Returns tt (Js.mkState (with_nodes (alter h k) g) b).
Proof.
  unfold live, Js.update; simpl. destruct (_nodes g !! k) as [n|] eqn:Hn; [|done].
  intros _. unfold with_nodes; simpl. by erewrite insert_as_alter.
Qed.

Lemma Js_addEdge_own f t w g b :
  inherited f = false → inherited t = false →
  Js.addEdge f t w (Js.mkState g b) = Js.lift of_option (Js.mkState g b) (addEdge f t w g).
Proof.
  intros Hf Ht. rewrite addEdge_eq. unfold Js.addEdge, Js.bind.
  rewrite Js_getEdge_own by done. rewrite getEdge_eq. cbn [Js.lift Js.edgeSize_NaN].
  rewrite Js_truthy_of_option, getEdge_value_truthy.
  destruct (valid_edge g f t) eqn:Hv.
  { by rewrite getEdge_state_valid. }
  rewrite !Js_nodes_get_own by done. cbv beta iota. rewrite !getEdge_state_live.
  destruct (live g f) eqn:Hlf, (live g t) eqn:Hlt; try done.
  unfold Js.new_edge. cbn [Js.truthy negb orb andb Js.lift Js.graph Js.edgeSize_NaN].
  cbv beta iota.
  destruct (getEdge_state_sizes g f t) as (_ & _ & Hfr).
  set (s := getEdge_state g f t) in *.
  assert (Hsf : live s f = true) by (by unfold s; rewrite getEdge_state_live).
  assert (Hst : live s t = true) by (by unfold s; rewrite getEdge_state_live).
  assert (Hsf' : live (with_fresh S s) f = true) by done.
  assert (Hst' : live (with_fresh S s) t = true) by done.
  rewrite Js_update_live by done.
  rewrite Js_update_live by (by rewrite live_with_nodes_alter).
  unfold Js.edgeCount_incr.
  rewrite Js_update_live by (by rewrite !live_with_nodes_alter).
  unfold Js.modify, addEdge_state, addEdge_edge, Js.ref_neq, Js.ret. fold s.
  rewrite Hfr. cbn [Js.graph Js.edgeSize_NaN].
  destruct (String.eqb f t) eqn:Hft; cbn [negb]; [done|].
  rewrite Js_update_live; [done|].
  change (live (with_edgeSize ?h ?x)) with (live x).
  by rewrite !live_with_nodes_alter.
Qed.

Lemma Js_removeEdge_own f t g b :
  inherited f = false → inherited t = false →
  Js.removeEdge f t (Js.mkState g b) = Js.lift of_option (Js.mkState g b) (removeEdge f t g).
Proof.
  intros Hf Ht. rewrite removeEdge_eq. unfold Js.removeEdge, Js.bind.
  rewrite !Js_nodes_get_own by done. rewrite Js_getEdge_own by done.
  rewrite getEdge_eq. cbn [Js.lift Js.edgeSize_NaN].
  rewrite Js_truthy_of_option, getEdge_value_truthy.
  destruct (valid_edge g f t) eqn:Hv; simpl; [|done].
  rewrite (getEdge_state_valid _ _ _ Hv).
  apply valid_edge_live in Hv as Hl. destruct Hl as [Hlf Hlt]. rewrite Hlf, Hlt.
  rewrite Js_update_live by done.
  rewrite Js_update_live by (by rewrite live_with_nodes_alter).
  unfold getEdge_value. by rewrite Hv.
Qed.

(** ** Own keys are kept *)

Lemma own_keys_newGraph : own_keys newGraph.
Proof. intros k n; simpl. by rewrite lookup_empty. Qed.

Lemma own_keys_alter h k g :
  (∀ n a, a ∈ obj_keys (_outEdges (h n)) →
          a ∈ obj_keys (_outEdges n) ∨ inherited a = false) →
  (∀ n a, a ∈ obj_keys (_inEdges (h n)) →
          a ∈ obj_keys (_inEdges n) ∨ inherited a = false) →
  own_keys g → own_keys (with_nodes (alter h k) g).
Proof.
  intros Ho Hi Hg j n'. unfold with_nodes; simpl. rewrite lookup_alter.
  case_decide; subst; [|apply Hg].
  destruct (_nodes g !! j) as [n|] eqn:Hn; simpl; [|done]. intros [= <-].
  destruct (Hg j n Hn) as (Hj & Hout & Hin). split; [done|].
  split; intros a Ha.
  - destruct (Ho n a Ha); auto.
  - destruct (Hi n a Ha); auto.
Qed.

Lemma own_keys_thin h k g :
  (∀ n, _outEdges (h n) `sublist_of` _outEdges n
        ∧ _inEdges (h n) `sublist_of` _inEdges n) →
  own_keys g → own_keys (with_nodes (alter h k) g).
Proof.
  intros Hh. apply own_keys_alter; intros n a Ha; left;
    destruct (Hh n) as [Ho Hi]; eapply elem_of_sublist; try exact Ha;
    by apply obj_keys_sublist.
Qed.

Lemma own_keys_getEdge_state g f t : own_keys g → own_keys (getEdge_state g f t).
Proof.
  intros Hg.
  destruct (getEdge_state_cases g f t) as [->|[(_ & _ & ->)|(_ & _ & ->)]]; [done|..].
  - apply own_keys_thin; [|done]. intros n. split; [done|apply obj_delete_sublist].
  - apply own_keys_thin; [|done]. intros n. split; [apply obj_delete_sublist|done].
Qed.

Lemma own_keys_prune_in g id : own_keys g → own_keys (prune_in g id).
Proof.
  apply own_keys_thin. intros n. split; [done|apply sublist_filter].
Qed.

Lemma own_keys_prune_out g id : own_keys g → own_keys (prune_out g id).
Proof.
  apply own_keys_thin. intros n. split; [apply sublist_filter|done].
Qed.

Lemma own_keys_removeEdge_state g f t : own_keys g → own_keys (removeEdge_state g f t).
Proof.
  intros Hg. unfold removeEdge_state.
  assert (own_keys (delete_in_slot f t (delete_out_slot f t g))) as H; [|exact H].
  apply own_keys_thin; [intros n; split; [done|apply obj_delete_sublist]|].
  apply own_keys_thin; [intros n; split; [apply obj_delete_sublist|done]|done].
Qed.

Lemma own_keys_removeNode_state g id n : own_keys g → own_keys (removeNode_state g id n).
Proof.
  intros Hg k n'. unfold removeNode_state; simpl.
  intros [_ Hn]%lookup_delete_Some. by apply Hg.
Qed.

Lemma own_keys_addNode_state g id :
  inherited id = false → own_keys g → own_keys (addNode_state g id).
Proof.
  intros Hid Hg k n'. unfold addNode_state; simpl.
  intros [[<- <-]|[_ Hn]]%lookup_insert_Some; [|by apply Hg].
  split; [done|]. split; intros a Ha; simpl in Ha; by apply elem_of_nil in Ha.
Qed.

Lemma own_keys_addEdge_state g f t e :
  inherited f = false → inherited t = false →
  own_keys g → own_keys (addEdge_state g f t e).
Proof.
  intros Hf Ht Hg. unfold addEdge_state.
  assert (own_keys (with_nodes (alter (with_edgeCount (λ c, c + 1)) f)
            (with_nodes (alter (with_inEdges (obj_set f e)) t)
              (with_nodes (alter (with_outEdges (obj_set t e)) f)
                (getEdge_state g f t))))) as H3.
  { apply own_keys_thin; [done|].
    apply own_keys_alter.
    { intros n a Ha. by left. }
    { intros n a [->|Ha]%obj_keys_set; [by right|by left]. }
    apply own_keys_alter.
    { intros n a [->|Ha]%obj_keys_set; [by right|by left]. }
    { intros n a Ha. by left. }
    by apply own_keys_getEdge_state. }
  destruct (negb (String.eqb f t)); simpl; [|exact H3].
  assert (∀ x, own_keys x →
            own_keys (with_nodes (alter (with_edgeCount (λ c, c + 1)) t) x)) as Hc
    by (intros x; by apply own_keys_thin).
  exact (Hc _ H3).
Qed.

Lemma own_names_1 c id :
  call_ids c = [id] → own_names c = true → inherited id = false.
Proof.
  unfold own_names. intros ->. simpl. by destruct (inherited id).
Qed.

Lemma own_names_2 c f t :
  call_ids c = [f; t] → own_names c = true →
  inherited f = false ∧ inherited t = false.
Proof.
  unfold own_names. intros ->. simpl. by destruct (inherited f), (inherited t).
Qed.

Lemma own_keys_exec c g g' :
  own_names c = true → own_keys g → exec c g = Ok (tt, g') → own_keys g'.
Proof.
  intros Hc Hg. destruct c as [id|id|id|f t w|f t|f t|id|id|id]; unfold exec, bind, ret.
  - apply (own_names_1 _ id) in Hc; [|done].
    rewrite addNode_eq. destruct (_nodes g !! id) eqn:Hn; intros [= <-]; [done|].
    by apply own_keys_addNode_state.
  - unfold getNode. by intros [= <-].
  - rewrite removeNode_eq. destruct (_nodes g !! id) eqn:Hn; intros [= <-]; [|done].
    by apply own_keys_removeNode_state.
  - apply (own_names_2 _ f t) in Hc as [Hf Ht]; [|done].
    rewrite addEdge_eq. destruct (valid_edge g f t); [by intros [= <-]|].
    destruct (live g f && live g t); intros [= <-].
    + by apply own_keys_addEdge_state.
    + by apply own_keys_getEdge_state.
  - rewrite getEdge_eq. intros [= <-]. by apply own_keys_getEdge_state.
  - rewrite removeEdge_eq. destruct (valid_edge g f t); intros [= <-].
    + by apply own_keys_removeEdge_state.
    + by apply own_keys_getEdge_state.
  - rewrite getInEdgesOf_eq. intros [= <-]. by apply own_keys_prune_in.
  - rewrite getOutEdgesOf_eq. intros [= <-]. by apply own_keys_prune_out.
  - rewrite getAllEdgesOf_eq.
    destruct (Nat.eqb (length (inEdges_of g id)) 0); intros [= <-].
    + by apply own_keys_prune_out, own_keys_prune_in.
    + by apply own_keys_getEdge_state, own_keys_prune_out, own_keys_prune_in.
Qed.

(** ** The enumerations *)

Lemma Js_for_in_push_own (body' : string → Js.M (jsval Edge))
    (body : string → M (option Edge)) (keys : list string) b :
  (∀ k g, k ∈ keys →
     ∃ r g', body k g = Ok (r, g')
       ∧ body' k (Js.mkState g b) = Js.Returns (of_option r) (Js.mkState g' b)) →
  ∀ acc g, ∃ r g', for_in_push body keys acc g = Ok (r, g')
    ∧ Js.for_in_push body' keys (object <$> acc) (Js.mkState g b)
      = Js.Returns (object <$> r) (Js.mkState g' b).
Proof.
  induction keys as [|k keys IH]; intros Hb acc g; simpl.
  { by exists acc, g. }
  unfold Js.bind, bind.
  destruct (Hb k g (list_elem_of_here _ _)) as (e & g1 & -> & ->).
  assert (∀ k0 g0, k0 ∈ keys →
            ∃ r g', body k0 g0 = Ok (r, g')
              ∧ body' k0 (Js.mkState g0 b)
                = Js.Returns (of_option r) (Js.mkState g' b)) as Hb'
    by (intros k0 g0 Hk0; apply Hb; by apply list_elem_of_further).
  destruct e as [e|]; simpl.
  - destruct (IH Hb' (acc ++ [e]) g1) as (r & g' & Hr & Hj).
    exists r, g'. split; [done|]. by rewrite <- Hj, fmap_app.
  - apply (IH Hb').
Qed.

Lemma Js_getEdge_returns f t g b :
  inherited f = false → inherited t = false →
  ∃ r g', getEdge f t g = Ok (r, g')
    ∧ Js.getEdge f t (Js.mkState g b) = Js.Returns (of_option r) (Js.mkState g' b).
Proof.
  intros Hf Ht. rewrite Js_getEdge_own, getEdge_eq by done. by eexists _, _.
Qed.

Lemma Js_getInEdgesOf_own id g b :
  inherited id = false → own_keys g →
  Js.getInEdgesOf id (Js.mkState g b)
  = Js.lift (fmap object) (Js.mkState g b) (getInEdgesOf id g).
Proof.
  intros Hid Hg. unfold Js.getInEdgesOf, Js.bind, getInEdgesOf, bind.
  rewrite Js_nodes_get_own by done. rewrite nodes_get_eq. unfold live.
  destruct (_nodes g !! id) as [n|] eqn:Hn; simpl; [|done]. rewrite Hn.
  destruct (Hg id n Hn) as (_ & _ & Hin).
  destruct (Js_for_in_push_own (λ fromId, Js.getEdge fromId id)
              (λ fromId, getEdge fromId id) (obj_keys (_inEdges n)) b
              (λ k g0 Hk, Js_getEdge_returns k id g0 b (Hin k Hk) Hid) [] g)
    as (r & g' & -> & Hj).
  exact Hj.
Qed.

Lemma Js_getOutEdgesOf_own id g b :
  inherited id = false → own_keys g →
  Js.getOutEdgesOf id (Js.mkState g b)
  = Js.lift (fmap object) (Js.mkState g b) (getOutEdgesOf id g).
Proof.
  intros Hid Hg. unfold Js.getOutEdgesOf, Js.bind, getOutEdgesOf, bind.
  rewrite Js_nodes_get_own by done. rewrite nodes_get_eq. unfold live.
  destruct (_nodes g !! id) as [n|] eqn:Hn; simpl; [|done]. rewrite Hn.
  destruct (Hg id n Hn) as (_ & Hout & _).
  destruct (Js_for_in_push_own (λ toId, Js.getEdge id toId)
              (λ toId, getEdge id toId) (obj_keys (_outEdges n)) b
              (λ k g0 Hk, Js_getEdge_returns id k g0 b Hid (Hout k Hk)) [] g)
    as (r & g' & -> & Hj).
  exact Hj.
Qed.

Lemma removelast_fmap {A B} (f : A → B) (l : list A) :
  removelast (f <$> l) = f <$> removelast l.
Proof.
  induction l as [|a l IH]; [done|]. destruct l as [|a' l]; [done|].
  change (f a :: removelast (f <$> a' :: l) = f a :: (f <$> removelast (a' :: l))).
  by rewrite IH.
Qed.

Lemma Js_drop_self_own (s : Edge) (l : list Edge) : ∀ n i,
  Js.drop_self (object s) (object <$> l) i n = object <$> drop_self s l i n.
Proof.
  induction n as [|n IH]; intros i; simpl; [done|].
  rewrite list_lookup_fmap, fmap_last.
  destruct (l !! i) as [e|]; simpl; [|done].
  destruct (last l) as [x|]; simpl; [|done].
  destruct (same_edge e s); [|apply IH].
  by rewrite <- list_fmap_insert, removelast_fmap.
Qed.

Lemma Js_getAllEdgesOf_own id g b :
  inherited id = false → own_keys g →
  Js.getAllEdgesOf id (Js.mkState g b)
  = Js.lift (fmap object) (Js.mkState g b) (getAllEdgesOf id g).
Proof.
  intros Hid Hg. unfold Js.getAllEdgesOf, Js.bind, getAllEdgesOf, bind.
  rewrite Js_getInEdgesOf_own by done. rewrite getInEdgesOf_eq.
  cbn [Js.lift Js.edgeSize_NaN].
  rewrite Js_getOutEdgesOf_own by (done || by apply own_keys_prune_in).
  rewrite getOutEdgesOf_eq. cbn [Js.lift Js.edgeSize_NaN]. rewrite length_fmap.
  destruct (Nat.eqb (length (inEdges_of g id)) 0); [done|].
  rewrite Js_getEdge_own by done. rewrite getEdge_eq. cbn [Js.lift Js.edgeSize_NaN].
  destruct (getEdge_value _ id id) as [s|]; simpl.
  - unfold Js.ret. by rewrite fmap_app, Js_drop_self_own.
  - unfold Js.ret. by rewrite fmap_app.
Qed.

(** ** Calls and sequences of calls *)

(** On identifiers that are not inherited names, the methods of [Js] are
    the methods that read own keys. *)
Lemma Js_exec_own c g b :
  own_names c = true → own_keys g →
  Js.exec c (Js.mkState g b) = Js.lift id (Js.mkState g b) (exec c g).
Proof.
  intros Hc Hg. destruct c as [i|i|i|f t w|f t|f t|i|i|i];
    unfold Js.exec, Js.bind, exec, bind.
  - apply (own_names_1 _ i) in Hc; [|done]. rewrite Js_addNode_own by done.
    by destruct (addNode i g) as [[? ?]|].
  - apply (own_names_1 _ i) in Hc; [|done]. rewrite Js_getNode_own by done.
    by destruct (getNode i g) as [[? ?]|].
  - apply (own_names_1 _ i) in Hc; [|done]. rewrite Js_removeNode_own by done.
    by destruct (removeNode i g) as [[? ?]|].
  - apply (own_names_2 _ f t) in Hc as [Hf Ht]; [|done].
    rewrite Js_addEdge_own by done. by destruct (addEdge f t w g) as [[? ?]|].
  - apply (own_names_2 _ f t) in Hc as [Hf Ht]; [|done].
    rewrite Js_getEdge_own by done. by destruct (getEdge f t g) as [[? ?]|].
  - apply (own_names_2 _ f t) in Hc as [Hf Ht]; [|done].
    rewrite Js_removeEdge_own by done. by destruct (removeEdge f t g) as [[? ?]|].
  - apply (own_names_1 _ i) in Hc; [|done]. rewrite Js_getInEdgesOf_own by done.
    by destruct (getInEdgesOf i g) as [[? ?]|].
  - apply (own_names_1 _ i) in Hc; [|done]. rewrite Js_getOutEdgesOf_own by done.
    by destruct (getOutEdgesOf i g) as [[? ?]|].
  - apply (own_names_1 _ i) in Hc; [|done]. rewrite Js_getAllEdgesOf_own by done.
    by destruct (getAllEdgesOf i g) as [[? ?]|].
Qed.

(** Every call on own keys returns. *)
Lemma exec_returns c g : ∃ g', exec c g = Ok (tt, g').
Proof.
  destruct (operations_total g) as (H1 & H2 & H3 & H4 & H5 & H6 & H7 & H8 & H9).
  destruct c as [i|i|i|f t w|f t|f t|i|i|i]; unfold exec, bind, ret.
  - destruct (H1 i) as (r & g' & -> & _). by eexists.
  - destruct (H2 i) as (r & -> & _). by eexists.
  - destruct (H3 i) as (r & g' & -> & _). by eexists.
  - destruct (H4 f t w) as (r & g' & -> & _). by eexists.
  - destruct (H5 f t) as (r & g' & -> & _). by eexists.
  - destruct (H6 f t) as (r & g' & -> & _). by eexists.
  - destruct (H7 i) as (r & g' & -> & _). by eexists.
  - destruct (H8 i) as (r & g' & -> & _). by eexists.
  - destruct (H9 i) as (r & g' & -> & _). by eexists.
Qed.

(** ** Inherited names *)

Lemma own_keys_inherited g id :
  own_keys g → inherited id = true → _nodes g !! id = None.
Proof.
  intros Hg Hid. destruct (_nodes g !! id) as [n|] eqn:Hn; [|done].
  destruct (Hg id n Hn) as (Hf & _). congruence.
Qed.

Lemma Js_nodes_get_inherited id g b :
  own_keys g → inherited id = true →
  Js.nodes_get id (Js.mkState g b)
  = Js.Returns (inherited_member id) (Js.mkState g b).
Proof.
  intros Hg Hid. unfold Js.nodes_get, prop_get; simpl.
  by rewrite (own_keys_inherited g id), Hid.
Qed.

Lemma Js_addNode_inherited id g b :
  own_keys g → inherited id = true →
  Js.addNode id (Js.mkState g b) = Js.Returns undefined (Js.mkState g b).
Proof.
  intros Hg Hid. unfold Js.addNode, Js.bind.
  by rewrite Js_nodes_get_inherited.
Qed.

Lemma Js_getNode_inherited id g b :
  own_keys g → inherited id = true →
  Js.getNode id (Js.mkState g b)
  = Js.Returns (inherited_member id) (Js.mkState g b).
Proof.
  intros Hg Hid. unfold Js.getNode, Js.bind.
  by rewrite Js_nodes_get_inherited.
Qed.

Lemma Js_removeNode_inherited id g b :
  own_keys g → inherited id = true →
  Js.removeNode id (Js.mkState g b)
  = Js.Returns (inherited_member id)
               (Js.mkState (with_nodeSize (λ s, s - 1) g) true).
Proof.
  intros Hg Hid. unfold Js.removeNode, Js.bind.
  rewrite !Js_nodes_get_inherited by done. simpl.
  rewrite (own_keys_inherited g id) by done. unfold prop_get. rewrite Hid. simpl.
  unfold Js.ret. f_equal. f_equal.
  destruct g as [m ns es fr]; unfold with_nodes, with_nodeSize; simpl. f_equal.
  apply delete_id. by apply (own_keys_inherited _ id Hg).
Qed.

Lemma Js_getEdge_member f t g b :
  (inherited f = true ∧ _nodes g !! f = None)
  ∨ (inherited t = true ∧ _nodes g !! t = None) →
  Js.getEdge f t (Js.mkState g b) = Js.Throws TypeError (Js.mkState g b).
Proof.
  unfold Js.getEdge, Js.bind, Js.nodes_get, Js.edges_get, prop_get.
  cbn [Js.graph]. intros [[Hf Hfn]|[Ht Htn]].
  - rewrite Hfn, Hf. destruct (_nodes g !! t); [done|]. by destruct (inherited t).
  - rewrite Htn, Ht. destruct (_nodes g !! f) as [fn|] eqn:Hfn; simpl.
    + rewrite Hfn. by destruct (obj_get t (_outEdges fn)).
    + by destruct (inherited f).
Qed.

Lemma Js_getEdge_inherited f t g b :
  own_keys g → inherited f = true ∨ inherited t = true →
  Js.getEdge f t (Js.mkState g b) = Js.Throws TypeError (Js.mkState g b).
Proof.
  intros Hg [Hf|Ht]; apply Js_getEdge_member; [left|right];
    (split; [done|by apply own_keys_inherited]).
Qed.

Lemma Js_addEdge_inherited f t w g b :
  own_keys g → inherited f = true ∨ inherited t = true →
  Js.addEdge f t w (Js.mkState g b) = Js.Throws TypeError (Js.mkState g b).
Proof.
  intros Hg Hft. unfold Js.addEdge, Js.bind. by rewrite Js_getEdge_inherited.
Qed.

Lemma Js_removeEdge_inherited f t g b :
  own_keys g → inherited f = true ∨ inherited t = true →
  Js.removeEdge f t (Js.mkState g b) = Js.Throws TypeError (Js.mkState g b).
Proof.
  intros Hg Hft. unfold Js.removeEdge, Js.bind, Js.nodes_get; simpl.
  by rewrite Js_getEdge_inherited.
Qed.

Lemma Js_getInEdgesOf_inherited id g b :
  own_keys g → inherited id = true →
  Js.getInEdgesOf id (Js.mkState g b) = Js.Returns [] (Js.mkState g b).
Proof.
  intros Hg Hid. unfold Js.getInEdgesOf, Js.bind.
  by rewrite Js_nodes_get_inherited.
Qed.

Lemma Js_getOutEdgesOf_inherited id g b :
  own_keys g → inherited id = true →
  Js.getOutEdgesOf id (Js.mkState g b) = Js.Returns [] (Js.mkState g b).
Proof.
  intros Hg Hid. unfold Js.getOutEdgesOf, Js.bind.
  by rewrite Js_nodes_get_inherited.
Qed.

Lemma Js_getAllEdgesOf_inherited id g b :
  own_keys g → inherited id = true →
  Js.getAllEdgesOf id (Js.mkState g b) = Js.Returns [] (Js.mkState g b).
Proof.
  intros Hg Hid. unfold Js.getAllEdgesOf, Js.bind.
  rewrite Js_getInEdgesOf_inherited by done.
  by rewrite Js_getOutEdgesOf_inherited by done.
Qed.

(** A call that is no [removeNode] of an inherited name leaves the state
    it found, or the state the same call leaves on own keys. *)
Lemma Js_exec_state c g b :
  own_keys g → removes_own_name c = true →
  Js.state_of (Js.exec c (Js.mkState g b)) = Js.mkState g b
  ∨ ∃ g', exec c g = Ok (tt, g') ∧ own_keys g'
          ∧ Js.state_of (Js.exec c (Js.mkState g b)) = Js.mkState g' b.
Proof.
  intros Hg Hr.
  assert (own_names c = true →
          ∃ g', exec c g = Ok (tt, g') ∧ own_keys g'
                ∧ Js.state_of (Js.exec c (Js.mkState g b)) = Js.mkState g' b) as Hown.
  { intros Hc. rewrite Js_exec_own by done.
    destruct (exec_returns c g) as (g' & Hc'). rewrite Hc'.
    exists g'. split; [done|]. split; [|done]. by eapply own_keys_exec. }
  destruct c as [i|i|i|f t w|f t|f t|i|i|i]; unfold own_names in Hown; simpl in *.
  - destruct (inherited i) eqn:Hi; [|right; by apply Hown].
    left. unfold Js.exec, Js.bind. by rewrite Js_addNode_inherited.
  - destruct (inherited i) eqn:Hi; [|right; by apply Hown].
    left. unfold Js.exec, Js.bind. by rewrite Js_getNode_inherited.
  - destruct (inherited i) eqn:Hi; [done|]. right; by apply Hown.
  - destruct (inherited f) eqn:Hf.
    { left. unfold Js.exec, Js.bind.
      by rewrite Js_addEdge_inherited by (done || by left). }
    destruct (inherited t) eqn:Ht.
    { left. unfold Js.exec, Js.bind.
      by rewrite Js_addEdge_inherited by (done || by right). }
    right; by apply Hown.
  - destruct (inherited f) eqn:Hf.
    { left. unfold Js.exec, Js.bind.
      by rewrite Js_getEdge_inherited by (done || by left). }
    destruct (inherited t) eqn:Ht.
    { left. unfold Js.exec, Js.bind.
      by rewrite Js_getEdge_inherited by (done || by right). }
    right; by apply Hown.
  - destruct (inherited f) eqn:Hf.
    { left. unfold Js.exec, Js.bind.
      by rewrite Js_removeEdge_inherited by (done || by left). }
    destruct (inherited t) eqn:Ht.
    { left. unfold Js.exec, Js.bind.
      by rewrite Js_removeEdge_inherited by (done || by right). }
    right; by apply Hown.
  - destruct (inherited i) eqn:Hi; [|right; by apply Hown].
    left. unfold Js.exec, Js.bind. by rewrite Js_getInEdgesOf_inherited.
  - destruct (inherited i) eqn:Hi; [|right; by apply Hown].
    left. unfold Js.exec, Js.bind. by rewrite Js_getOutEdgesOf_inherited.
  - destruct (inherited i) eqn:Hi; [|right; by apply Hown].
    left. unfold Js.exec, Js.bind. by rewrite Js_getAllEdgesOf_inherited.
Qed.

(** The state after calls, none of them a [removeNode] of an inherited
    name, is a state the methods reach on own keys. *)
Lemma Js_run_state cs : ∀ g b,
  own_keys g → forallb removes_own_name cs = true →
  ∃ cs' g', run cs' g = Ok (tt, g') ∧ own_keys g'
            ∧ Js.run cs (Js.mkState g b) = Js.mkState g' b.
Proof.
  induction cs as [|c cs IH]; intros g b Hg Hcs; simpl.
  - by exists [], g.
  - apply andb_true_iff in Hcs as [Hc Hcs].
    destruct (Js_exec_state c g b Hg Hc) as [->|(g1 & Hc1 & Hg1 & ->)].
    + by apply IH.
    + destruct (IH g1 b Hg1 Hcs) as (cs' & g' & Hr & Hg' & ->).
      exists (c :: cs'), g'. split; [|done]. simpl. unfold bind. by rewrite Hc1.
Qed.

Lemma Js_reachable cs :
  forallb removes_own_name cs = true →
  reachable (Js.graph (Js.after cs))
  ∧ own_keys (Js.graph (Js.after cs))
  ∧ Js.edgeSize_NaN (Js.after cs) = false.
Proof.
  intros Hcs.
  destruct (Js_run_state cs newGraph false own_keys_newGraph Hcs)
    as (cs' & g' & Hr & Hg' & Hs).
  unfold Js.after, Js.newGraph, Js.of_graph. rewrite Hs.
  split; [by exists cs'|done].
Qed.

Lemma Js_exec_own_keys c g b :
  own_keys g → own_keys (Js.graph (Js.state_of (Js.exec c (Js.mkState g b)))).
Proof.
  intros Hg. destruct (removes_own_name c) eqn:Hr.
  - by destruct (Js_exec_state c g b Hg Hr) as [->|(g' & _ & Hg' & ->)].
  - destruct c; try done. simpl in Hr. apply negb_false_iff in Hr.
    unfold Js.exec, Js.bind. by rewrite Js_removeNode_inherited.
Qed.

(** No method ever stores a key that is an inherited name. *)
Lemma Js_run_own_keys cs : ∀ s,
  own_keys (Js.graph s) → own_keys (Js.graph (Js.run cs s)).
Proof.
  induction cs as [|c cs IH]; intros s Hs; simpl; [done|].
  apply IH. destruct s as [g b]. by apply Js_exec_own_keys.
Qed.

Lemma Js_after_own_keys cs : own_keys (Js.graph (Js.after cs)).
Proof. apply Js_run_own_keys, own_keys_newGraph. Qed.

(** ** A node without slots *)

Lemma Js_getInEdgesOf_empty id n g b :
  _nodes g !! id = Some n → _inEdges n = [] →
  Js.getInEdgesOf id (Js.mkState g b) = Js.Returns [] (Js.mkState g b).
Proof.
  intros Hn Hi. unfold Js.getInEdgesOf, Js.bind, Js.nodes_get, Js.edges_keys.
  cbn [Js.graph]. rewrite Hn. cbn [prop_get Js.truthy negb Js.graph].
  by rewrite Hn, Hi.
Qed.

Lemma Js_getOutEdgesOf_empty id n g b :
  _nodes g !! id = Some n → _outEdges n = [] →
  Js.getOutEdgesOf id (Js.mkState g b) = Js.Returns [] (Js.mkState g b).
Proof.
  intros Hn Ho. unfold Js.getOutEdgesOf, Js.bind, Js.nodes_get, Js.edges_keys.
  cbn [Js.graph]. rewrite Hn. cbn [prop_get Js.truthy negb Js.graph].
  by rewrite Hn, Ho.
Qed.

(** ** The methods at inherited names *)

(** C4: on a fresh graph no node is named ['constructor'], yet
    [addNode('constructor')] returns [undefined] and adds nothing:
    [nodeSize] stays 0 and [getNode('constructor')] returns the inherited
    member, no node.  It is so for every inherited name. *)
Theorem addNode_refuses_inherited_names :
  _nodes (Js.graph Js.newGraph) !! "constructor" = None
  ∧ Js.addNode "constructor" Js.newGraph = Js.Returns undefined Js.newGraph
  ∧ nodeSize (Js.graph Js.newGraph) = 0
  ∧ Js.getNode "constructor" Js.newGraph
    = Js.Returns (inherited_member "constructor") Js.newGraph
  ∧ Forall (λ id, Js.addNode id Js.newGraph = Js.Returns undefined Js.newGraph)
           inherited_names.
Proof.
  split; [done|]. split; [vm_compute; reflexivity|]. split; [done|].
  split; [vm_compute; reflexivity|].
  apply Forall_forall. intros id Hid.
  apply Js_addNode_inherited; [apply own_keys_newGraph|].
  by apply bool_decide_eq_true.
Qed.

(** C5: in the graph of the one node ['A'], where ['toString'] names no
    node, [addEdge('A', 'toString')] and [addEdge('toString', 'A')] throw
    a [TypeError]; they do not return [undefined]. *)
Theorem addEdge_throws_at_inherited_name :
  ∃ n s, Js.addNode "A" Js.newGraph = Js.Returns (object n) s
    ∧ _nodes (Js.graph s) !! "toString" = None
    ∧ Js.addEdge "A" "toString" None s = Js.Throws TypeError s
    ∧ Js.addEdge "toString" "A" None s = Js.Throws TypeError s.
Proof.
  eexists _, _. split; [vm_compute; reflexivity|].
  split; [vm_compute; reflexivity|].
  split; vm_compute; reflexivity.
Qed.

(** C10: in the graph of the one node ['A'], [getEdge], [addEdge] and
    [removeEdge] throw a [TypeError] when an endpoint is ['constructor'],
    which names no node; [getNode('constructor')] returns the inherited
    member; and on a fresh graph [removeNode('toString')] returns the
    inherited member, leaving [nodeSize] at -1 and [edgeSize] at [NaN]. *)
Theorem methods_fail_at_inherited_names :
  ∃ n s, Js.addNode "A" Js.newGraph = Js.Returns (object n) s
    ∧ _nodes (Js.graph s) !! "constructor" = None
    ∧ Js.getEdge "A" "constructor" s = Js.Throws TypeError s
    ∧ Js.getEdge "constructor" "A" s = Js.Throws TypeError s
    ∧ Js.addEdge "A" "constructor" None s = Js.Throws TypeError s
    ∧ Js.removeEdge "A" "constructor" s = Js.Throws TypeError s
    ∧ Js.getNode "constructor" s = Js.Returns (inherited_member "constructor") s
    ∧ ∃ s', Js.removeNode "toString" Js.newGraph
            = Js.Returns (inherited_member "toString") s'
        ∧ _nodes (Js.graph s') = ∅
        ∧ nodeSize (Js.graph s') = -1
        ∧ Js.edgeSize s' = None.
Proof.
  eexists _, _. split; [vm_compute; reflexivity|].
  split; [vm_compute; reflexivity|].
  split; [vm_compute; reflexivity|].
  split; [vm_compute; reflexivity|].
  split; [vm_compute; reflexivity|].
  split; [vm_compute; reflexivity|].
  split; [vm_compute; reflexivity|].
  eexists. split; [vm_compute; reflexivity|].
  split; [vm_compute; reflexivity|]. split; vm_compute; reflexivity.
Qed.

(** X21: in every state a fresh graph reaches by calls of its methods,
    whether they return or throw, and at every inherited name: [addNode]
    returns [undefined] and adds nothing; [getNode] returns the inherited
    member; [getEdge], [addEdge] and [removeEdge] throw a [TypeError]
    whatever the other endpoint, and change nothing; the enumerations
    return the empty array and change nothing; and [removeNode] returns
    the inherited member, removes no node, takes one from [nodeSize] and
    turns [edgeSize] into [NaN]. *)
Theorem methods_at_inherited_names (cs : list Call) (id other : string)
    (w : option Z) :
  inherited id = true →
  Js.addNode id (Js.after cs) = Js.Returns undefined (Js.after cs)
  ∧ Js.getNode id (Js.after cs) = Js.Returns (inherited_member id) (Js.after cs)
  ∧ Js.getEdge id other (Js.after cs) = Js.Throws TypeError (Js.after cs)
  ∧ Js.getEdge other id (Js.after cs) = Js.Throws TypeError (Js.after cs)
  ∧ Js.addEdge id other w (Js.after cs) = Js.Throws TypeError (Js.after cs)
  ∧ Js.addEdge other id w (Js.after cs) = Js.Throws TypeError (Js.after cs)
  ∧ Js.removeEdge id other (Js.after cs) = Js.Throws TypeError (Js.after cs)
  ∧ Js.removeEdge other id (Js.after cs) = Js.Throws TypeError (Js.after cs)
  ∧ Js.getInEdgesOf id (Js.after cs) = Js.Returns [] (Js.after cs)
  ∧ Js.getOutEdgesOf id (Js.after cs) = Js.Returns [] (Js.after cs)
  ∧ Js.getAllEdgesOf id (Js.after cs) = Js.Returns [] (Js.after cs)
  ∧ ∃ s', Js.removeNode id (Js.after cs) = Js.Returns (inherited_member id) s'
      ∧ _nodes (Js.graph s') = _nodes (Js.graph (Js.after cs))
      ∧ nodeSize (Js.graph s') = nodeSize (Js.graph (Js.after cs)) - 1
      ∧ Js.edgeSize s' = None.
Proof.
  intros Hid. pose proof (Js_after_own_keys cs) as Hg.
  destruct (Js.after cs) as [g b]. cbn [Js.graph] in Hg.
  split; [by apply Js_addNode_inherited|].
  split; [by apply Js_getNode_inherited|].
  split; [apply Js_getEdge_inherited; [done|by left]|].
  split; [apply Js_getEdge_inherited; [done|by right]|].
  split; [apply Js_addEdge_inherited; [done|by left]|].
  split; [apply Js_addEdge_inherited; [done|by right]|].
  split; [apply Js_removeEdge_inherited; [done|by left]|].
  split; [apply Js_removeEdge_inherited; [done|by right]|].
  split; [by apply Js_getInEdgesOf_inherited|].
  split; [by apply Js_getOutEdgesOf_inherited|].
  split; [by apply Js_getAllEdgesOf_inherited|].
  eexists. split; [by apply Js_removeNode_inherited|]. done.
Qed.

(** ** The methods at names that are not inherited *)

(** X1: for an identifier that is no inherited name and names no node,
    [addNode(id)] followed by [removeNode(id)] returns the node just
    created and gives back the state the graph was in, counters included. *)
Theorem addNode_removeNode_roundtrip (id : string) (s : Js.State) :
  inherited id = false →
  _nodes (Js.graph s) !! id = None →
  ∃ n s1, Js.addNode id s = Js.Returns (object n) s1
    ∧ Js.removeNode id s1 = Js.Returns (object n) s.
Proof.
  intros Hid Hn. destruct s as [g b]; simpl in Hn.
  destruct (addNode_removeNode_own_keys id g Hn) as (n & g1 & Ha & Hr).
  exists n, (Js.mkState g1 b).
  rewrite Js_addNode_own, Ha by done. split; [done|].
  by rewrite Js_removeNode_own, Hr by done.
Qed.

(** X2: a node added under an identifier that is no inherited name and
    names no node has no edge, whatever slots a former node of that name
    has left behind in its neighbours: [getEdge] from it or to it finds
    nothing at any identifier that is no inherited name, and throws at an
    inherited name that names no node; the enumerations return the empty
    array. *)
Theorem addNode_starts_without_edges (id : string) (s : Js.State) :
  inherited id = false →
  _nodes (Js.graph s) !! id = None →
  ∃ n s1, Js.addNode id s = Js.Returns (object n) s1
    ∧ (∀ k, inherited k = false →
            ∃ s', Js.getEdge id k s1 = Js.Returns undefined s')
    ∧ (∀ k, inherited k = false →
            ∃ s', Js.getEdge k id s1 = Js.Returns undefined s')
    ∧ (∀ k, inherited k = true → _nodes (Js.graph s1) !! k = None →
            Js.getEdge id k s1 = Js.Throws TypeError s1
            ∧ Js.getEdge k id s1 = Js.Throws TypeError s1)
    ∧ Js.getInEdgesOf id s1 = Js.Returns [] s1
    ∧ Js.getOutEdgesOf id s1 = Js.Returns [] s1
    ∧ Js.getAllEdgesOf id s1 = Js.Returns [] s1.
Proof.
  intros Hid Hn. destruct s as [g b]; simpl in Hn.
  assert (live g id = false) as Hl by (unfold live; by rewrite Hn).
  destruct (addNode_starts_without_edges_own_keys id g Hl)
    as (n & g1 & Ha & Hout & Hin & _ & _ & _).
  exists n, (Js.mkState g1 b).
  rewrite Js_addNode_own, Ha by done. split; [done|].
  rewrite addNode_eq, Hn in Ha. injection Ha as <- <-.
  assert (_nodes (addNode_state g id) !! id = Some (new_node id)) as Hnew
    by (unfold addNode_state; simpl; apply lookup_insert_eq).
  split; [|split; [|split; [|split; [|split]]]].
  - intros k Hk. destruct (Hout k) as [g' Hg'].
    exists (Js.mkState g' b). by rewrite Js_getEdge_own, Hg' by done.
  - intros k Hk. destruct (Hin k) as [g' Hg'].
    exists (Js.mkState g' b). by rewrite Js_getEdge_own, Hg' by done.
  - intros k Hk Hkn. cbn [Js.graph] in Hkn.
    split; apply Js_getEdge_member; [by right|by left].
  - by apply (Js_getInEdgesOf_empty id (new_node id)).
  - by apply (Js_getOutEdgesOf_empty id (new_node id)).
  - unfold Js.getAllEdgesOf, Js.bind.
    rewrite (Js_getInEdgesOf_empty id (new_node id)) by done.
    by rewrite (Js_getOutEdgesOf_empty id (new_node id)) by done.
Qed.

(** X9: in every state a fresh graph reaches by calls of its methods,
    whether they return or throw, none of them a [removeNode] of an
    inherited name, [nodeSize] is the number of nodes the graph holds. *)
Theorem nodeSize_counts_nodes (cs : list Call) :
  forallb removes_own_name cs = true →
  nodeSize (Js.graph (Js.after cs))
  = Z.of_nat (size (_nodes (Js.graph (Js.after cs)))).
Proof.
  intros Hcs. destruct (Js_reachable cs Hcs) as (Hr & _ & _).
  apply wf_nodeSize. by apply reachable_wf.
Qed.

(** X13: in every state a fresh graph reaches by calls of its methods,
    whether they return or throw, none of them a [removeNode] of an
    inherited name, [forEachNode] calls its callback on each node that
    [getNode] finds, once each and on nothing else, [nodeSize] times in
    all. *)
Theorem forEachNode_visits_each_node_once (cs : list Call) :
  forallb removes_own_name cs = true →
  ∃ seen, Js.forEachNode record [] (Js.after cs) = Js.Returns seen (Js.after cs)
    ∧ NoDup seen
    ∧ (∀ n, n ∈ seen ↔
            ∃ id, Js.getNode id (Js.after cs) = Js.Returns (object n) (Js.after cs))
    ∧ Z.of_nat (length seen) = nodeSize (Js.graph (Js.after cs)).
Proof.
  intros Hcs. destruct (Js_reachable cs Hcs) as (Hr & Hown & _).
  set (s := Js.after cs) in *.
  destruct (forEachNode_own_keys _ Hr) as (seen & Hseen & Hnd & Hmem & Hlen).
  exists seen. split; [|split; [done|split; [|done]]].
  - unfold Js.forEachNode. unfold forEachNode in Hseen. by injection Hseen as ->.
  - intros n. rewrite Hmem. destruct s as [g b]; simpl in *.
    split; intros (id & Hn); exists id.
    + destruct (Hown id n Hn) as (Hid & _).
      by rewrite Js_getNode_own by done; unfold getNode; rewrite Hn.
    + unfold Js.getNode, Js.bind, Js.nodes_get, Js.node_of, prop_get in Hn;
        simpl in Hn.
      destruct (_nodes g !! id) as [n'|] eqn:Hn'; simpl in Hn.
      * rewrite Hn' in Hn. by injection Hn as ->.
      * by destruct (inherited id).
Qed.

(** X18: for an identifier that is no inherited name: when it names no
    node, [addNode(id)] returns a node, [getNode(id)] then returns that
    node and [nodeSize] has grown by one; when it names a node,
    [addNode(id)] returns [undefined] and leaves the whole state, the node
    and its edge maps included, as it was. *)
Theorem addNode_at_own_names (id : string) (s : Js.State) :
  inherited id = false →
  match _nodes (Js.graph s) !! id with
  | None =>
      ∃ n s', Js.addNode id s = Js.Returns (object n) s'
        ∧ Js.getNode id s' = Js.Returns (object n) s'
        ∧ nodeSize (Js.graph s') = nodeSize (Js.graph s) + 1
  | Some n =>
      Js.addNode id s = Js.Returns undefined s
      ∧ Js.getNode id s = Js.Returns (object n) s
  end.
Proof.
  intros Hid. destruct s as [g b]. cbn [Js.graph].
  pose proof (addNode_spec id g) as H.
  destruct (_nodes g !! id) as [n|].
  - destruct H as [Ha Hg]. by rewrite Js_addNode_own, Ha, Js_getNode_own, Hg.
  - destruct H as (n & g' & Ha & Hg & Hs). exists n, (Js.mkState g' b).
    by rewrite Js_addNode_own, Ha, Js_getNode_own, Hg.
Qed.


(** X20: in every state a fresh graph reaches by calls of its methods,
    whether they return or throw, no method throws at identifiers that are
    no inherited names: each returns a value and a state; when the node or
    edge asked for is missing, or the node or edge to add exists, the
    value is [undefined], or the empty array for the enumerations. *)
Theorem methods_return_at_own_names (cs : list Call) :
  (∀ id, inherited id = false →
     ∃ r s', Js.addNode id (Js.after cs) = Js.Returns r s'
       ∧ (live (Js.graph (Js.after cs)) id = true → r = undefined))
  ∧ (∀ id, inherited id = false →
     ∃ r, Js.getNode id (Js.after cs) = Js.Returns r (Js.after cs)
       ∧ (live (Js.graph (Js.after cs)) id = false → r = undefined))
  ∧ (∀ id, inherited id = false →
     ∃ r s', Js.removeNode id (Js.after cs) = Js.Returns r s'
       ∧ (live (Js.graph (Js.after cs)) id = false → r = undefined))
  ∧ (∀ f t w, inherited f = false → inherited t = false →
     ∃ r s', Js.addEdge f t w (Js.after cs) = Js.Returns r s'
       ∧ (valid_edge (Js.graph (Js.after cs)) f t = true
          ∨ live (Js.graph (Js.after cs)) f = false
          ∨ live (Js.graph (Js.after cs)) t = false → r = undefined))
  ∧ (∀ f t, inherited f = false → inherited t = false →
     ∃ r s', Js.getEdge f t (Js.after cs) = Js.Returns r s'
       ∧ (valid_edge (Js.graph (Js.after cs)) f t = false → r = undefined))
  ∧ (∀ f t, inherited f = false → inherited t = false →
     ∃ r s', Js.removeEdge f t (Js.after cs) = Js.Returns r s'
       ∧ (valid_edge (Js.graph (Js.after cs)) f t = false → r = undefined))
  ∧ (∀ id, inherited id = false →
     ∃ r s', Js.getInEdgesOf id (Js.after cs) = Js.Returns r s'
       ∧ (live (Js.graph (Js.after cs)) id = false → r = []))
  ∧ (∀ id, inherited id = false →
     ∃ r s', Js.getOutEdgesOf id (Js.after cs) = Js.Returns r s'
       ∧ (live (Js.graph (Js.after cs)) id = false → r = []))
  ∧ (∀ id, inherited id = false →
     ∃ r s', Js.getAllEdgesOf id (Js.after cs) = Js.Returns r s'
       ∧ (live (Js.graph (Js.after cs)) id = false → r = [])).
Proof.
  pose proof (Js_after_own_keys cs) as Hg.
  destruct (Js.after cs) as [g b]. cbn [Js.graph] in *.
  destruct (operations_total g)
    as (H1 & H2 & H3 & H4 & H5 & H6 & H7 & H8 & H9).
  split; [|split; [|split; [|split; [|split; [|split; [|split; [|split]]]]]]].
  - intros id Hid. destruct (H1 id) as (r & g' & Hr & H).
    exists (of_option r), (Js.mkState g' b). rewrite Js_addNode_own, Hr by done.
    split; [done|]. by intros ->%H.
  - intros id Hid. destruct (H2 id) as (r & Hr & H).
    exists (of_option r). rewrite Js_getNode_own, Hr by done.
    split; [done|]. by intros ->%H.
  - intros id Hid. destruct (H3 id) as (r & g' & Hr & H).
    exists (of_option r), (Js.mkState g' b). rewrite Js_removeNode_own, Hr by done.
    split; [done|]. by intros ->%H.
  - intros f t w Hf Ht. destruct (H4 f t w) as (r & g' & Hr & H).
    exists (of_option r), (Js.mkState g' b). rewrite Js_addEdge_own, Hr by done.
    split; [done|]. by intros ->%H.
  - intros f t Hf Ht. destruct (H5 f t) as (r & g' & Hr & H).
    exists (of_option r), (Js.mkState g' b). rewrite Js_getEdge_own, Hr by done.
    split; [done|]. by intros ->%H.
  - intros f t Hf Ht. destruct (H6 f t) as (r & g' & Hr & H).
    exists (of_option r), (Js.mkState g' b). rewrite Js_removeEdge_own, Hr by done.
    split; [done|]. by intros ->%H.
  - intros id Hid. destruct (H7 id) as (r & g' & Hr & H).
    exists (object <$> r), (Js.mkState g' b).
    rewrite Js_getInEdgesOf_own, Hr by done. split; [done|]. by intros ->%H.
  - intros id Hid. destruct (H8 id) as (r & g' & Hr & H).
    exists (object <$> r), (Js.mkState g' b).
    rewrite Js_getOutEdgesOf_own, Hr by done. split; [done|]. by intros ->%H.
  - intros id Hid. destruct (H9 id) as (r & g' & Hr & H).
    exists (object <$> r), (Js.mkState g' b).
    rewrite Js_getAllEdgesOf_own, Hr by done. split; [done|]. by intros ->%H.
Qed.

(** ** Which calls throw, and what a look-up may change *)

(** X22: in every state a fresh graph reaches by calls of its methods,
    whether they return or throw, a call throws exactly when it is an
    [addEdge], [getEdge] or [removeEdge] with an endpoint that is an
    inherited name; it then throws a [TypeError] and leaves the state as
    it was. *)
Theorem calls_throw_at_inherited_endpoints (cs : list Call) (c : Call) :
  if inherited_endpoint c
  then Js.exec c (Js.after cs) = Js.Throws TypeError (Js.after cs)
  else ∃ s', Js.exec c (Js.after cs) = Js.Returns tt s'.
Proof.
  pose proof (Js_after_own_keys cs) as Hg.
  destruct (Js.after cs) as [g b]. cbn [Js.graph] in Hg.
  assert (own_names c = true →
          ∃ s', Js.exec c (Js.mkState g b) = Js.Returns tt s') as Hown.
  { intros Hc. rewrite Js_exec_own by done.
    destruct (exec_returns c g) as (g' & ->). by eexists. }
  destruct c as [i|i|i|f t w|f t|f t|i|i|i]; unfold own_names in Hown;
    simpl in *.
  - destruct (inherited i) eqn:Hi; [|by apply Hown].
    unfold Js.exec, Js.bind. rewrite Js_addNode_inherited by done. by eexists.
  - destruct (inherited i) eqn:Hi; [|by apply Hown].
    unfold Js.exec, Js.bind. rewrite Js_getNode_inherited by done. by eexists.
  - destruct (inherited i) eqn:Hi; [|by apply Hown].
    unfold Js.exec, Js.bind. rewrite Js_removeNode_inherited by done. by eexists.
  - destruct (inherited f) eqn:Hf; simpl.
    { unfold Js.exec, Js.bind. by rewrite Js_addEdge_inherited by (done || by left). }
    destruct (inherited t) eqn:Ht; [|by apply Hown].
    unfold Js.exec, Js.bind. by rewrite Js_addEdge_inherited by (done || by right).
  - destruct (inherited f) eqn:Hf; simpl.
    { unfold Js.exec, Js.bind. by rewrite Js_getEdge_inherited by (done || by left). }
    destruct (inherited t) eqn:Ht; [|by apply Hown].
    unfold Js.exec, Js.bind. by rewrite Js_getEdge_inherited by (done || by right).
  - destruct (inherited f) eqn:Hf; simpl.
    { unfold Js.exec, Js.bind.
      by rewrite Js_removeEdge_inherited by (done || by left). }
    destruct (inherited t) eqn:Ht; [|by apply Hown].
    unfold Js.exec, Js.bind. by rewrite Js_removeEdge_inherited by (done || by right).
  - destruct (inherited i) eqn:Hi; [|by apply Hown].
    unfold Js.exec, Js.bind. rewrite Js_getInEdgesOf_inherited by done. by eexists.
  - destruct (inherited i) eqn:Hi; [|by apply Hown].
    unfold Js.exec, Js.bind. rewrite Js_getOutEdgesOf_inherited by done. by eexists.
  - destruct (inherited i) eqn:Hi; [|by apply Hown].
    unfold Js.exec, Js.bind. rewrite Js_getAllEdgesOf_inherited by done. by eexists.
Qed.

(** X23: in every state a fresh graph reaches by calls of its methods,
    whether they return or throw, a [getEdge(fromId, toId)] call, at any
    identifiers and whether it returns or throws, leaves [nodeSize],
    [edgeSize] and the set of nodes as they were, and either leaves the
    whole state unchanged or deletes exactly one slot, the filled half of
    a pair that is no valid edge: [toNode._inEdges[fromId]] or
    [fromNode._outEdges[toId]]. *)
Theorem getEdge_frame_at_every_name (cs : list Call) (fromId toId : string) :
  nodeSize (Js.graph (Js.state_of (Js.getEdge fromId toId (Js.after cs))))
  = nodeSize (Js.graph (Js.after cs))
  ∧ Js.edgeSize (Js.state_of (Js.getEdge fromId toId (Js.after cs)))
    = Js.edgeSize (Js.after cs)
  ∧ dom (_nodes (Js.graph (Js.state_of (Js.getEdge fromId toId (Js.after cs)))))
    = dom (_nodes (Js.graph (Js.after cs)))
  ∧ (Js.state_of (Js.getEdge fromId toId (Js.after cs)) = Js.after cs
     ∨ (valid_edge (Js.graph (Js.after cs)) fromId toId = false
        ∧ is_Some (in_slot (Js.graph (Js.after cs)) fromId toId)
        ∧ Js.getEdge fromId toId (Js.after cs)
          = Js.Returns undefined
              (Js.mkState (delete_in_slot fromId toId (Js.graph (Js.after cs)))
                          (Js.edgeSize_NaN (Js.after cs))))
     ∨ (valid_edge (Js.graph (Js.after cs)) fromId toId = false
        ∧ is_Some (out_slot (Js.graph (Js.after cs)) fromId toId)
        ∧ Js.getEdge fromId toId (Js.after cs)
          = Js.Returns undefined
              (Js.mkState (delete_out_slot fromId toId (Js.graph (Js.after cs)))
                          (Js.edgeSize_NaN (Js.after cs))))).
Proof.
  pose proof (Js_after_own_keys cs) as Hg.
  destruct (Js.after cs) as [g b]. cbn [Js.graph Js.edgeSize_NaN] in *.
  destruct (inherited fromId) eqn:Hf.
  { rewrite Js_getEdge_inherited by (done || by left). simpl. by repeat split; try left. }
  destruct (inherited toId) eqn:Ht.
  { rewrite Js_getEdge_inherited by (done || by right). simpl.
    by repeat split; try left. }
  rewrite Js_getEdge_own, getEdge_eq by done.
  cbn [Js.lift Js.state_of Js.graph Js.edgeSize_NaN].
  destruct (getEdge_state_sizes g fromId toId) as (Hn & He & _).
  split; [done|]. split; [by unfold Js.edgeSize; simpl; rewrite He|].
  split; [apply getEdge_state_dom|].
  destruct (getEdge_state_cases g fromId toId) as [H|[(Hv & Hs & H)|(Hv & Hs & H)]].
  - left. by rewrite H.
  - right; left. unfold getEdge_value. by rewrite Hv, H.
  - right; right. unfold getEdge_value. by rewrite Hv, H.
Qed.

(** ** The properties of [Js] at concrete graphs *)

(** [addNode_removeNode_roundtrip] at the graph of one node ['A'], for ['B']. *)
Lemma addNode_removeNode_roundtrip_witness :
  ∃ n s1, Js.addNode "B" (Js.after [AddNode "A"]) = Js.Returns (object n) s1
    ∧ Js.removeNode "B" s1 = Js.Returns (object n) (Js.after [AddNode "A"]).
Proof.
  apply (addNode_removeNode_roundtrip "B" (Js.after [AddNode "A"]));
    vm_compute; reflexivity.
Defined.

(** [addNode_starts_without_edges] where a former ['A'] has left a slot in
    ['B']. *)
Lemma addNode_starts_without_edges_witness :
  ∃ n s1, Js.addNode "A" (Js.after [AddNode "A"; AddNode "B"; AddEdge "A" "B" None;
                                    RemoveNode "A"])
          = Js.Returns (object n) s1
    ∧ (∃ s', Js.getEdge "A" "B" s1 = Js.Returns undefined s')
    ∧ Js.getAllEdgesOf "A" s1 = Js.Returns [] s1.
Proof.
  destruct (addNode_starts_without_edges "A"
              (Js.after [AddNode "A"; AddNode "B"; AddEdge "A" "B" None;
                         RemoveNode "A"])
              ltac:(vm_compute; reflexivity) ltac:(vm_compute; reflexivity))
    as (n & s1 & Hadd & Hout & _ & _ & _ & _ & Hall).
  exists n, s1. split; [exact Hadd|].
  split; [exact (Hout "B" ltac:(vm_compute; reflexivity))|exact Hall].
Defined.

(** [nodeSize_counts_nodes] after additions, one of them refused, a
    look-up that throws and a removal. *)
Lemma nodeSize_counts_nodes_witness :
  nodeSize (Js.graph (Js.after [AddNode "A"; AddNode "constructor";
                                GetEdge "A" "toString"; AddNode "B";
                                RemoveNode "A"]))
  = 1.
Proof.
  rewrite (nodeSize_counts_nodes
             [AddNode "A"; AddNode "constructor"; GetEdge "A" "toString";
              AddNode "B"; RemoveNode "A"]).
  - vm_compute. reflexivity.
  - vm_compute. reflexivity.
Defined.

(** [forEachNode_visits_each_node_once] at a graph of two nodes. *)
Lemma forEachNode_visits_each_node_once_witness :
  ∃ seen, Js.forEachNode record [] (Js.after [AddNode "A"; AddNode "valueOf";
                                              AddNode "B"])
          = Js.Returns seen (Js.after [AddNode "A"; AddNode "valueOf"; AddNode "B"])
    ∧ Z.of_nat (length seen) = 2.
Proof.
  destruct (forEachNode_visits_each_node_once
              [AddNode "A"; AddNode "valueOf"; AddNode "B"]
              ltac:(vm_compute; reflexivity))
    as (seen & Hs & _ & _ & Hlen).
  exists seen. split; [exact Hs|]. rewrite Hlen. vm_compute. reflexivity.
Defined.

(** [addNode_at_own_names] for ['A'] on a fresh graph. *)
Lemma addNode_at_own_names_witness :
  ∃ n s', Js.addNode "A" Js.newGraph = Js.Returns (object n) s'
    ∧ Js.getNode "A" s' = Js.Returns (object n) s'
    ∧ nodeSize (Js.graph s') = 1.
Proof.
  exact (addNode_at_own_names "A" Js.newGraph ltac:(vm_compute; reflexivity)).
Defined.


(** [methods_at_inherited_names] at the graph of one node ['A'], for
    ['constructor']. *)
Lemma methods_at_inherited_names_witness :
  Js.addNode "constructor" (Js.after [AddNode "A"])
  = Js.Returns undefined (Js.after [AddNode "A"])
  ∧ Js.getEdge "A" "constructor" (Js.after [AddNode "A"])
    = Js.Throws TypeError (Js.after [AddNode "A"]).
Proof.
  destruct (methods_at_inherited_names [AddNode "A"] "constructor" "A" None
              ltac:(vm_compute; reflexivity))
    as (Hadd & _ & _ & Hget & _).
  split; [exact Hadd|exact Hget].
Defined.
